(** * GCTaskManager: the task queue and the manager's dispatch bookkeeping

    A shallow embedding of [src/hotspot/share/gc/parallel/gcTaskManager.cpp]
    (debug build: every [assert] is active and [verify_length] runs).

    - A [GCTask*] is an [option addr]; [NULL] is [None].  The tasks live in a
      heap, a finite map from addresses to task records, so that the link
      fields [_older] and [_newer] alias exactly as the pointers do.
    - A [uint] is a [Z] in the range [0, 2^32); [+= 1] and [-= 1] wrap.
    - An operation yields an [outcome]: a value, a failed assertion (which
      aborts the VM), a fault (a pointer that is not a live task is
      dereferenced), a traversal that never ends, or a thread that stays
      in [Monitor::wait].                                                  *)

From Stdlib Require Import ZArith Lia String.
From stdpp Require Import base option list gmap fin_maps.

Open Scope Z_scope.

(** ** Outcomes *)

Inductive outcome (A : Type) : Type :=
| Ok (a : A)
| AssertFail (msg : string)
| Fault
| Diverges
| Waiting.

Arguments Ok {A} a.
Arguments AssertFail {A} msg.
Arguments Fault {A}.
Arguments Diverges {A}.
Arguments Waiting {A}.

#[global] Instance outcome_ret : MRet outcome := λ A a, Ok a.
#[global] Instance outcome_bind : MBind outcome := λ A B f m,
  match m with
  | Ok a => f a
  | AssertFail msg => AssertFail msg
  | Fault => Fault
  | Diverges => Diverges
  | Waiting => Waiting
  end.

(** [assert(cond, msg)] of the debug build. *)
Definition assert (cond : bool) (msg : string) : outcome unit :=
  if cond then Ok tt else AssertFail msg.

(** ** Machine integers *)

Definition uint_modulus : Z := 2 ^ 32.
Definition is_uint (z : Z) : Prop := 0 <= z < uint_modulus.
Definition uint_incr (z : Z) : Z := (z + 1) mod uint_modulus.
Definition uint_decr (z : Z) : Z := (z - 1) mod uint_modulus.
Definition uint_add (x y : Z) : Z := (x + y) mod uint_modulus.

(** ** Addresses and pointers *)

Abbreviation addr := positive (only parsing).
Abbreviation NULL := (@None positive) (only parsing).

Definition ptr_eqb (p q : option addr) : bool := bool_decide (p = q).

(** ** GCTask *)

Module Kind.
Inductive kind : Set :=
| unknown_task
| ordinary_task
| wait_for_barrier_task
| noop_task
| idle_task.

Definition to_string (value : kind) : string :=
  match value with
  | unknown_task => "unknown task"
  | ordinary_task => "ordinary task"
  | wait_for_barrier_task => "wait for barrier task"
  | noop_task => "noop task"
  | idle_task => "idle task"
  end.

Definition eqb (a b : kind) : bool :=
  match a, b with
  | unknown_task, unknown_task
  | ordinary_task, ordinary_task
  | wait_for_barrier_task, wait_for_barrier_task
  | noop_task, noop_task
  | idle_task, idle_task => true
  | _, _ => false
  end.
End Kind.

(** Modelled from the spec: the sentinel worker index ("no particular
    worker").  [GCTaskManager::sentinel_worker()] is declared in
    gcTaskManager.hpp, which is not part of the sources at hand; it is the
    largest [uint], so that no worker index below a [uint] worker count
    ever equals it. *)
Definition sentinel_worker : Z := uint_modulus - 1.

Record GCTask : Type := mkGCTask {
  kind : Kind.kind;
  affinity : Z;
  older : option addr;
  newer : option addr;
  gc_id : Z
}.

(** [GCTask::initialize(kind, gc_id)]. *)
Definition GCTask_initialize (k : Kind.kind) (id : Z) : GCTask :=
  {| kind := k;
     affinity := sentinel_worker;
     older := NULL;
     newer := NULL;
     gc_id := id |}.

(** Modelled from the spec: the kind tests [is_barrier_task()] and
    [is_idle_task()] are inline members of gcTaskManager.hpp (absent); a
    task "self-identifies by kind". *)
Definition is_barrier_task (t : GCTask) : bool :=
  Kind.eqb (kind t) Kind.wait_for_barrier_task.
Definition is_idle_task (t : GCTask) : bool :=
  Kind.eqb (kind t) Kind.idle_task.

Definition with_older (t : GCTask) (p : option addr) : GCTask :=
  {| kind := kind t; affinity := affinity t;
     older := p; newer := newer t; gc_id := gc_id t |}.
Definition with_newer (t : GCTask) (p : option addr) : GCTask :=
  {| kind := kind t; affinity := affinity t;
     older := older t; newer := p; gc_id := gc_id t |}.

(** ** The heap of tasks *)

Abbreviation heap := (gmap positive GCTask) (only parsing).

(** [*p] for a task pointer known to be non-null. *)
Definition load (h : heap) (p : addr) : outcome GCTask :=
  match h !! p with
  | Some t => Ok t
  | None => Fault
  end.

(** [p->set_older(v)] and [p->set_newer(v)]. *)
Definition set_older (p : addr) (v : option addr) (h : heap) : outcome heap :=
  t ← load h p; Ok (<[p := with_older t v]> h).
Definition set_newer (p : addr) (v : option addr) (h : heap) : outcome heap :=
  t ← load h p; Ok (<[p := with_newer t v]> h).

(** [GCTask::destruct()]: only checks that the task is on no queue. *)
Definition GCTask_destruct (h : heap) (p : addr) : outcome unit :=
  t ← load h p;
  _ ← assert (ptr_eqb (older t) NULL) "shouldn't have an older task";
  assert (ptr_eqb (newer t) NULL) "shouldn't have a newer task".

(** ** GCTaskQueue *)

Module GCTaskQueue.

Record t : Type := mk {
  insert_end : option addr;
  remove_end : option addr;
  length : Z
}.

Definition set_insert_end (q : t) (p : option addr) : t :=
  {| insert_end := p; remove_end := remove_end q; length := length q |}.
Definition set_remove_end (q : t) (p : option addr) : t :=
  {| insert_end := insert_end q; remove_end := p; length := length q |}.
Definition set_length (q : t) (n : Z) : t :=
  {| insert_end := insert_end q; remove_end := remove_end q; length := n |}.
Definition increment_length (q : t) : t := set_length q (uint_incr (length q)).
Definition decrement_length (q : t) : t := set_length q (uint_decr (length q)).

(** Modelled from the spec: [is_empty()] is an inline member of
    gcTaskManager.hpp (absent); it tests [remove_end() == NULL], one of
    the three equivalent emptiness conditions of the queue invariant. *)
Definition is_empty (q : t) : bool := ptr_eqb (remove_end q) NULL.

(** [GCTaskQueue::initialize()]. *)
Definition initialize : t :=
  {| insert_end := NULL; remove_end := NULL; length := 0 |}.

(** The loop of [verify_length()]: count the elements from [element]
    along [older()].  The traversal only reads; once it has made more
    steps than there are tasks it is inside a cycle and never ends. *)
Fixpoint count_older (fuel : nat) (h : heap) (element : option addr)
    (count : Z) : outcome Z :=
  match element with
  | None => Ok count
  | Some p =>
      match fuel with
      | O => Diverges
      | S fuel' =>
          tk ← load h p;
          count_older fuel' h (older tk) (uint_incr count)
      end
  end.

Definition verify_length (h : heap) (q : t) : outcome unit :=
  count ← count_older (S (size h)) h (insert_end q) 0;
  assert (count =? length q) "Length does not match queue".

(** [GCTaskQueue::enqueue(GCTask* task)]. *)
Definition enqueue (task : option addr) (h : heap) (q : t)
    : outcome (heap * t) :=
  match task with
  | None => AssertFail "shouldn't have null task"
  | Some p =>
      tk ← load h p;
      _ ← assert (ptr_eqb (older tk) NULL) "shouldn't be on queue";
      _ ← assert (ptr_eqb (newer tk) NULL) "shouldn't be on queue";
      h ← set_newer p NULL h;
      h ← set_older p (insert_end q) h;
      '(h, q) ←
        (if is_empty q then Ok (h, set_remove_end q task)
         else match insert_end q with
              | Some ie => h ← set_newer ie task h; Ok (h, q)
              | None => Fault
              end);
      let q := set_insert_end q task in
      let q := increment_length q in
      _ ← verify_length h q;
      Ok (h, q)
  end.

(** [GCTaskQueue::enqueue(GCTaskQueue* list)] for a [list] that is
    another object than [this]; the result is the heap, this queue and
    the argument list.  The call on queue objects named by their
    addresses, [list == this] included, is [QueueObjects.enqueue_list]
    below. *)
Definition enqueue_list (h : heap) (q list : t) : outcome (heap * t * t) :=
  if is_empty list then Ok (h, q, list)
  else
    let list_length := length list in
    '(h, q) ←
      (if is_empty q then
         let q := set_insert_end q (insert_end list) in
         let q := set_remove_end q (remove_end list) in
         Ok (h, set_length q list_length)
       else
         match remove_end list, insert_end q with
         | Some lre, Some ie =>
             h ← set_older lre (insert_end q) h;
             h ← set_newer ie (remove_end list) h;
             let q := set_insert_end q (insert_end list) in
             Ok (h, set_length q (uint_add (length q) list_length))
         | _, _ => Fault
         end);
    let list := initialize in
    _ ← verify_length h q;
    Ok (h, q, list).

(** [GCTaskQueue::remove()]: unlink the task at the remove end. *)
Definition remove (h : heap) (q : t) : outcome (heap * t * option addr) :=
  let result := remove_end q in
  match result with
  | None => AssertFail "shouldn't have null task"
  | Some r =>
      tr ← load h r;
      _ ← assert (ptr_eqb (older tr) NULL) "not the remove_end";
      let q := set_remove_end q (newer tr) in
      '(h, q) ←
        match remove_end q with
        | None =>
            _ ← assert (ptr_eqb (insert_end q) result) "not a singleton";
            Ok (h, set_insert_end q NULL)
        | Some re => h ← set_older re NULL h; Ok (h, q)
        end;
      h ← set_newer r NULL h;
      let q := decrement_length q in
      tr ← load h r;
      _ ← assert (ptr_eqb (newer tr) NULL) "shouldn't be on queue";
      _ ← assert (ptr_eqb (older tr) NULL) "shouldn't be on queue";
      _ ← verify_length h q;
      Ok (h, q, result)
  end.

(** [GCTaskQueue::remove(GCTask* task)]: unlink a task anywhere in the
    queue. *)
Definition remove_task (task : option addr) (h : heap) (q : t)
    : outcome (heap * t * option addr) :=
  match task with
  | None => AssertFail "shouldn't have null task"
  | Some r =>
      let result := task in
      tr ← load h r;
      '(h, q) ←
        match newer tr with
        | Some n => h ← set_older n (older tr) h; Ok (h, q)
        | None =>
            _ ← assert (ptr_eqb (insert_end q) result) "not youngest";
            Ok (h, set_insert_end q (older tr))
        end;
      tr ← load h r;
      '(h, q) ←
        match older tr with
        | Some o => h ← set_newer o (newer tr) h; Ok (h, q)
        | None =>
            _ ← assert (ptr_eqb (remove_end q) result) "not oldest";
            Ok (h, set_remove_end q (newer tr))
        end;
      h ← set_newer r NULL h;
      h ← set_older r NULL h;
      let q := decrement_length q in
      _ ← verify_length h q;
      Ok (h, q, result)
  end.

(** [GCTaskQueue::dequeue()]. *)
Definition dequeue (h : heap) (q : t) : outcome (heap * t * option addr) :=
  _ ← assert (negb (is_empty q)) "shouldn't dequeue from empty list";
  '(h, q, result) ← remove h q;
  _ ← assert (negb (ptr_eqb result NULL)) "shouldn't have NULL task";
  Ok (h, q, result).

(** The [for] loop of [dequeue(uint affinity)]: look down to the next
    barrier for a task with this affinity.  Like [count_older] the walk
    only reads until it leaves the loop. *)
Fixpoint affinity_walk (fuel : nat) (aff : Z) (element : option addr)
    (h : heap) (q : t) : outcome (heap * t * option addr) :=
  match element with
  | None => Ok (h, q, NULL)
  | Some e =>
      match fuel with
      | O => Diverges
      | S fuel' =>
          te ← load h e;
          if is_barrier_task te then Ok (h, q, NULL)
          else if affinity te =? aff then remove_task element h q
          else affinity_walk fuel' aff (newer te) h q
      end
  end.

(** [GCTaskQueue::dequeue(uint affinity)]. *)
Definition dequeue_affinity (aff : Z) (h : heap) (q : t)
    : outcome (heap * t * option addr) :=
  _ ← assert (negb (is_empty q)) "shouldn't dequeue from empty list";
  '(h, q, result) ← affinity_walk (S (size h)) aff (remove_end q) h q;
  match result with
  | None => remove h q
  | Some _ => Ok (h, q, result)
  end.

End GCTaskQueue.

(** ** GCTaskManager *)

Module GCTaskManager.

(** The manager's data members.  [monitor_owned] tells whether the running
    thread owns the manager's monitor ([queue()->own_lock()]); the thread
    and processor-assignment arrays belong to the thread primitive and are
    left out.  [queue] is the queue behind the SynchronizedGCTaskQueue
    wrapper, whose members (gcTaskManager.hpp) forward to it under the
    same monitor. *)
Record t : Type := mk {
workers : Z;
created_workers : Z;
active_workers : Z;
idle_workers : Z;
busy_workers : Z;
blocking_worker : Z;
resource_flag : list bool;
delivered_tasks : Z;
completed_tasks : Z;
barriers : Z;
emptied_queue : Z;
noop_task : option addr;
queue : GCTaskQueue.t;
monitor_owned : bool
}.

Definition set_monitor_owned (m : t) (b : bool) : t :=
  mk (workers m) (created_workers m) (active_workers m) (idle_workers m)
     (busy_workers m) (blocking_worker m) (resource_flag m)
     (delivered_tasks m) (completed_tasks m) (barriers m) (emptied_queue m)
     (noop_task m) (queue m) b.
Definition set_queue (m : t) (q : GCTaskQueue.t) : t :=
  mk (workers m) (created_workers m) (active_workers m) (idle_workers m)
     (busy_workers m) (blocking_worker m) (resource_flag m)
     (delivered_tasks m) (completed_tasks m) (barriers m) (emptied_queue m)
     (noop_task m) q (monitor_owned m).
Definition set_busy_workers (m : t) (n : Z) : t :=
  mk (workers m) (created_workers m) (active_workers m) (idle_workers m)
     n (blocking_worker m) (resource_flag m)
     (delivered_tasks m) (completed_tasks m) (barriers m) (emptied_queue m)
     (noop_task m) (queue m) (monitor_owned m).
Definition set_blocking_worker (m : t) (which : Z) : t :=
  mk (workers m) (created_workers m) (active_workers m) (idle_workers m)
     (busy_workers m) which (resource_flag m)
     (delivered_tasks m) (completed_tasks m) (barriers m) (emptied_queue m)
     (noop_task m) (queue m) (monitor_owned m).
Definition set_resource_flags (m : t) (flags : list bool) : t :=
  mk (workers m) (created_workers m) (active_workers m) (idle_workers m)
     (busy_workers m) (blocking_worker m) flags
     (delivered_tasks m) (completed_tasks m) (barriers m) (emptied_queue m)
     (noop_task m) (queue m) (monitor_owned m).
Definition set_delivered_tasks (m : t) (n : Z) : t :=
  mk (workers m) (created_workers m) (active_workers m) (idle_workers m)
     (busy_workers m) (blocking_worker m) (resource_flag m)
     n (completed_tasks m) (barriers m) (emptied_queue m)
     (noop_task m) (queue m) (monitor_owned m).
Definition set_completed_tasks (m : t) (n : Z) : t :=
  mk (workers m) (created_workers m) (active_workers m) (idle_workers m)
     (busy_workers m) (blocking_worker m) (resource_flag m)
     (delivered_tasks m) n (barriers m) (emptied_queue m)
     (noop_task m) (queue m) (monitor_owned m).
Definition set_barriers (m : t) (n : Z) : t :=
  mk (workers m) (created_workers m) (active_workers m) (idle_workers m)
     (busy_workers m) (blocking_worker m) (resource_flag m)
     (delivered_tasks m) (completed_tasks m) n (emptied_queue m)
     (noop_task m) (queue m) (monitor_owned m).
Definition set_emptied_queue (m : t) (n : Z) : t :=
  mk (workers m) (created_workers m) (active_workers m) (idle_workers m)
     (busy_workers m) (blocking_worker m) (resource_flag m)
     (delivered_tasks m) (completed_tasks m) (barriers m) n
     (noop_task m) (queue m) (monitor_owned m).

(** [MutexLockerEx ml(monitor(), ...)] and the end of its scope. *)
Definition lock (m : t) : t := set_monitor_owned m true.
Definition unlock (m : t) : t := set_monitor_owned m false.

(** Modelled from the spec: the barrier state accessors of
    gcTaskManager.hpp (absent): the manager is blocked when
    [blocking_worker] is not the sentinel, and [set_unblocked] stores the
    sentinel. *)
Definition is_blocked (m : t) : bool :=
  negb (blocking_worker m =? sentinel_worker).
Definition set_unblocked (m : t) : t := set_blocking_worker m sentinel_worker.

Definition increment_barriers (m : t) : t :=
  set_barriers m (uint_incr (barriers m)).
Definition increment_completed_tasks (m : t) : t :=
  set_completed_tasks m (uint_incr (completed_tasks m)).
Definition increment_delivered_tasks (m : t) : t :=
  set_delivered_tasks m (uint_incr (delivered_tasks m)).
Definition increment_emptied_queue (m : t) : t :=
  set_emptied_queue m (uint_incr (emptied_queue m)).

(** [GCTaskManager::increment_busy_workers()]. *)
Definition increment_busy_workers (m : t) : outcome (t * Z) :=
  _ ← assert (monitor_owned m) "don't own the lock";
  let m := set_busy_workers m (uint_incr (busy_workers m)) in
  Ok (m, busy_workers m).

(** [GCTaskManager::decrement_busy_workers()]. *)
Definition decrement_busy_workers (m : t) : outcome (t * Z) :=
  _ ← assert (monitor_owned m) "don't own the lock";
  _ ← assert (0 <? busy_workers m) "About to make a mistake";
  let m := set_busy_workers m (uint_decr (busy_workers m)) in
  Ok (m, busy_workers m).

(** [GCTaskManager::resource_flag(which)]; the array has [workers()]
    slots, a slot outside the array is a fault. *)
Definition resource_flag_at (m : t) (which : Z) : outcome bool :=
  _ ← assert (which <? workers m) "index out of bounds";
  match resource_flag m !! Z.to_nat which with
  | Some b => Ok b
  | None => Fault
  end.

(** [GCTaskManager::set_resource_flag(which, value)]. *)
Definition set_resource_flag (m : t) (which : Z) (value : bool)
    : outcome t :=
  _ ← assert (which <? workers m) "index out of bounds";
  if decide (Z.to_nat which < List.length (resource_flag m))%nat
  then Ok (set_resource_flags m (<[Z.to_nat which := value]> (resource_flag m)))
  else Fault.

Definition should_release_resources (m : t) (which : Z) : outcome bool :=
  resource_flag_at m which.

(** [GCTaskManager::note_release(which)]. *)
Definition note_release (m : t) (which : Z) : outcome t :=
  set_resource_flag m which false.

(** The loop of [release_all_resources()], entered with index [i]; it
    makes at most [created_workers()] rounds. *)
Fixpoint release_from (rounds : nat) (i : Z) (m : t) : outcome t :=
  if i <? created_workers m then
    match rounds with
    | O => Diverges
    | S rounds' =>
        m ← set_resource_flag m i true;
        release_from rounds' (uint_incr i) m
    end
  else Ok m.

(** [GCTaskManager::release_all_resources()]. *)
Definition release_all_resources (m : t) : outcome t :=
  release_from (Z.to_nat (created_workers m)) 0 m.

(** [GCTaskManager::add_task(task)] and [add_list(list)]: enqueue under the
    monitor; [notify_all] changes no data. *)
Definition add_task (task : option addr) (h : heap) (m : t)
    : outcome (heap * t) :=
  match task with
  | None => AssertFail "shouldn't have null task"
  | Some _ =>
      let m := lock m in
      '(h, q) ← GCTaskQueue.enqueue task h (queue m);
      Ok (h, unlock (set_queue m q))
  end.

Definition add_list (h : heap) (m : t) (list : GCTaskQueue.t)
    : outcome (heap * t * GCTaskQueue.t) :=
  let m := lock m in
  '(h, q, list) ← GCTaskQueue.enqueue_list h (queue m) list;
  Ok (h, unlock (set_queue m q), list).

(** The condition of the [while] loop of [get_task], with the short
    circuits of [||] and [&&]. *)
Definition must_wait (which : Z) (m : t) : outcome bool :=
  if is_blocked m then Ok true
  else if GCTaskQueue.is_empty (queue m) then
    release ← should_release_resources m which;
    Ok (negb release)
  else Ok false.

(** The [while] loop of [get_task].  [monitor()->wait()] gives the monitor
    up; [wakeups] lists the shared state (heap and manager) the thread
    finds each time it wakes up owning the monitor again.  A thread that
    is never woken stays waiting. *)
Fixpoint wait_for_work (which : Z) (h : heap) (m : t)
    (wakeups : list (heap * t)) : outcome (heap * t) :=
  w ← must_wait which m;
  if w : bool then
    match wakeups with
    | [] => Waiting
    | (h', m') :: wakeups' => wait_for_work which h' (lock m') wakeups'
    end
  else Ok (h, m).

(** [GCTaskManager::get_task(which)], under the flag
    [UseGCTaskAffinity]. *)
Definition get_task (UseGCTaskAffinity : bool) (which : Z)
    (h : heap) (m : t) (wakeups : list (heap * t))
    : outcome (heap * t * option addr) :=
  let m := lock m in
  '(h, m) ← wait_for_work which h m wakeups;
  '(h, m, result) ←
    (if negb (GCTaskQueue.is_empty (queue m)) then
       '(h, q, result) ←
         (if UseGCTaskAffinity
          then GCTaskQueue.dequeue_affinity which h (queue m)
          else GCTaskQueue.dequeue h (queue m));
       let m := set_queue m q in
       match result with
       | None => Fault
       | Some r =>
           tr ← load h r;
           if is_barrier_task tr then
             _ ← assert (negb (which =? sentinel_worker))
                   "blocker shouldn't be bogus";
             Ok (h, set_blocking_worker m which, result)
           else Ok (h, m, result)
       end
     else Ok (h, m, noop_task m));
  match result with
  | None => AssertFail "shouldn't have null task"
  | Some r =>
      tr ← load h r;
      m ← (if negb (is_idle_task tr) then
             '(m, busy) ← increment_busy_workers m;
             Ok (increment_delivered_tasks m)
           else Ok m);
      Ok (h, unlock m, result)
  end.

(** [GCTaskManager::note_completion(which)]. *)
Definition note_completion (which : Z) (m : t) : outcome t :=
  let m := lock m in
  m ← (if blocking_worker m =? which then
         _ ← assert (negb (blocking_worker m =? sentinel_worker))
               "blocker shouldn't be bogus";
         Ok (set_unblocked (increment_barriers m))
       else Ok m);
  let m := increment_completed_tasks m in
  '(m, active) ← decrement_busy_workers m;
  let m := if (active =? 0) && GCTaskQueue.is_empty (queue m)
           then increment_emptied_queue m else m in
  Ok (unlock m).

End GCTaskManager.

(** * The queue invariant *)

(** ** Doubly-linked segments

    [dseg h prev l next]: the tasks of [l], oldest first, are chained in
    [h]; the oldest points back to [prev] and the newest on to [next]. *)

Definition first_or (next : option addr) (l : list addr) : option addr :=
  match l with
  | [] => next
  | a :: _ => Some a
  end.

Definition last_or (prev : option addr) (l : list addr) : option addr :=
  match last l with
  | Some a => Some a
  | None => prev
  end.

Fixpoint dseg (h : heap) (prev : option addr) (l : list addr)
    (next : option addr) : Prop :=
  match l with
  | [] => True
  | a :: l' =>
      (∃ t, h !! a = Some t ∧ older t = prev ∧ newer t = first_or next l')
      ∧ dseg h (Some a) l' next
  end.

(** [queue_repr h q l]: in heap [h] the queue [q] holds exactly the tasks
    [l], oldest (remove end) first. *)
Record queue_repr (h : heap) (q : GCTaskQueue.t) (l : list addr) : Prop :=
  mk_queue_repr {
    repr_chain : dseg h NULL l NULL;
    repr_nodup : NoDup l;
    repr_remove_end : GCTaskQueue.remove_end q = head l;
    repr_insert_end : GCTaskQueue.insert_end q = last l;
    repr_length : GCTaskQueue.length q = Z.of_nat (List.length l);
    repr_bound : Z.of_nat (List.length l) < uint_modulus
  }.

(** Tasks outside [l] are on no queue: both link fields are null. *)
Definition dormant (h : heap) (l : list addr) : Prop :=
  ∀ p t, h !! p = Some t → p ∉ l → older t = NULL ∧ newer t = NULL.

(** What the queue operations never change: which tasks exist, and their
    kind, affinity and gc id. *)
Definition payload (t : GCTask) : Kind.kind * Z * Z :=
  (kind t, affinity t, gc_id t).
Definition same_payload (h h' : heap) : Prop :=
  ∀ p, payload <$> h' !! p = payload <$> h !! p.

(** The tasks outside [l] are untouched. *)
Definition frame (l : list addr) (h h' : heap) : Prop :=
  ∀ p, p ∉ l → h' !! p = h !! p.

(** ** The invariant in the words of the specification *)

(** [reaches_older h p n]: node [n] is reached from pointer [p] by
    following [older()]. *)
Inductive reaches_older (h : heap) : option addr → addr → Prop :=
| reaches_here (p : addr) : reaches_older h (Some p) p
| reaches_step (p : addr) (t : GCTask) (n : addr) :
    h !! p = Some t → reaches_older h (older t) n →
    reaches_older h (Some p) n.

Record structural_invariant (h : heap) (q : GCTaskQueue.t) : Prop :=
  mk_structural_invariant {
    inv_empty_insert :
      GCTaskQueue.length q = 0 ↔ GCTaskQueue.insert_end q = NULL;
    inv_empty_remove :
      GCTaskQueue.insert_end q = NULL ↔ GCTaskQueue.remove_end q = NULL;
    inv_remove_end_older : ∀ r, GCTaskQueue.remove_end q = Some r →
      ∃ t, h !! r = Some t ∧ older t = NULL;
    inv_insert_end_newer : ∀ i, GCTaskQueue.insert_end q = Some i →
      ∃ t, h !! i = Some t ∧ newer t = NULL;
    inv_links : ∀ n, reaches_older h (GCTaskQueue.insert_end q) n →
      ∃ t, h !! n = Some t
        ∧ (∀ o, older t = Some o → ∃ t', h !! o = Some t' ∧ newer t' = Some n)
        ∧ (∀ w, newer t = Some w → ∃ t', h !! w = Some t' ∧ older t' = Some n);
    inv_count : ∃ l, NoDup l
        ∧ (∀ n, reaches_older h (GCTaskQueue.insert_end q) n ↔ n ∈ l)
        ∧ GCTaskQueue.length q = Z.of_nat (List.length l)
  }.

(** A system of queues sharing the heap: each queue holds its list, no
    task is on two queues (or twice on one), and every task on no queue
    has null links. *)
Definition queues_inv (h : heap) (qls : list (GCTaskQueue.t * list addr))
    : Prop :=
  Forall (λ ql, queue_repr h ql.1 ql.2) qls
  ∧ NoDup (concat (qls.*2))
  ∧ dormant h (concat (qls.*2)).

(** ** The cases of the affinity walk *)

(** The walk passes over a task that is neither a barrier nor of the
    wanted affinity. *)
Definition passed_over (h : heap) (aff : Z) (a : addr)
    : Prop :=
  ∃ t, h !! a = Some t ∧ is_barrier_task t = false ∧ affinity t ≠ aff.

(** The walk stops at a barrier task. *)
Definition barrier_at (h : heap) (a : addr) : Prop :=
  ∃ t, h !! a = Some t ∧ is_barrier_task t = true.

(** The walk takes a task of the wanted affinity that is no barrier. *)
Definition match_at (h : heap) (aff : Z) (a : addr)
    : Prop :=
  ∃ t, h !! a = Some t ∧ is_barrier_task t = false ∧ affinity t = aff.

(** The invariant of a system of queues in the words of the
    specification: every queue is structurally sound, and a task on no
    queue (reached from no insert end) has both link fields null. *)
Definition on_queue (h : heap) (q : GCTaskQueue.t) (p : addr) : Prop :=
  reaches_older h (GCTaskQueue.insert_end q) p.

Definition system_invariant (h : heap) (qs : list GCTaskQueue.t) : Prop :=
  Forall (structural_invariant h) qs
  ∧ ∀ p t, h !! p = Some t → (∀ q, q ∈ qs → ¬ on_queue h q p) →
      older t = NULL ∧ newer t = NULL.

(** ** Repeated dequeue

    What a consumer gets from [n] calls of [dequeue()], or of
    [dequeue(affinity)], first call first. *)
Fixpoint drain (n : nat) (h : heap) (q : GCTaskQueue.t)
    : outcome (heap * GCTaskQueue.t * list (option addr)) :=
  match n with
  | O => Ok (h, q, [])
  | S n' =>
      '(h, q, r) ← GCTaskQueue.dequeue h q;
      '(h, q, rs) ← drain n' h q;
      Ok (h, q, r :: rs)
  end.

Fixpoint drain_affinity (aff : Z) (n : nat) (h : heap) (q : GCTaskQueue.t)
    : outcome (heap * GCTaskQueue.t * list (option addr)) :=
  match n with
  | O => Ok (h, q, [])
  | S n' =>
      '(h, q, r) ← GCTaskQueue.dequeue_affinity aff h q;
      '(h, q, rs) ← drain_affinity aff n' h q;
      Ok (h, q, r :: rs)
  end.

(** The task handed out by a dequeue, [NULL] if the call does not return. *)
Definition returned (o : outcome (heap * GCTaskQueue.t * option addr))
    : option addr :=
  match o with
  | Ok (_, _, r) => r
  | _ => NULL
  end.

(** A queue filled by enqueueing [tasks] one after the other, first task
    first (so the list reads oldest first). *)
Fixpoint enqueue_all (tasks : list addr) (h : heap) (q : GCTaskQueue.t)
    : outcome (heap * GCTaskQueue.t) :=
  match tasks with
  | [] => Ok (h, q)
  | p :: tasks' =>
      '(h, q) ← GCTaskQueue.enqueue (Some p) h q;
      enqueue_all tasks' h q
  end.

(** Three tasks at addresses 1, 2, 3 on no queue: a barrier task with the
    default affinity, and two ordinary tasks of affinities [x] and [y]. *)
Definition three_tasks (x y : Z) : heap :=
  <[1%positive := GCTask_initialize Kind.wait_for_barrier_task 0]>
  (<[2%positive := mkGCTask Kind.ordinary_task x NULL NULL 0]>
  (<[3%positive := mkGCTask Kind.ordinary_task y NULL NULL 0]> ∅)).

(** The scenario tasks [T_a], [T_b], [T_c] of affinities 2, 1, 2. *)
Definition scenario_tasks : heap :=
  <[1%positive := mkGCTask Kind.ordinary_task 2 NULL NULL 0]>
  (<[2%positive := mkGCTask Kind.ordinary_task 1 NULL NULL 0]>
  (<[3%positive := mkGCTask Kind.ordinary_task 2 NULL NULL 0]> ∅)).

(** No task of the list has affinity [w]. *)
Definition no_affinity (h : heap) (l : list addr) (w : Z) : Prop :=
  ∀ a t, a ∈ l → h !! a = Some t → affinity t ≠ w.

(** Every task of the list still has the affinity that
    [GCTask::initialize] gave it. *)
Definition default_affinity (h : heap) (l : list addr) : Prop :=
  ∀ a t, a ∈ l → h !! a = Some t →
    affinity t = affinity (GCTask_initialize (kind t) (gc_id t)).

(** A manager configured for two workers of which one has been created
    so far (as under [UseDynamicNumberOfGCThreads]); no flag is set. *)
Definition two_workers_one_created : GCTaskManager.t :=
  {| GCTaskManager.workers := 2;
     GCTaskManager.created_workers := 1;
     GCTaskManager.active_workers := 1;
     GCTaskManager.idle_workers := 0;
     GCTaskManager.busy_workers := 0;
     GCTaskManager.blocking_worker := sentinel_worker;
     GCTaskManager.resource_flag := [false; false];
     GCTaskManager.delivered_tasks := 0;
     GCTaskManager.completed_tasks := 0;
     GCTaskManager.barriers := 0;
     GCTaskManager.emptied_queue := 0;
     GCTaskManager.noop_task := Some 1%positive;
     GCTaskManager.queue := GCTaskQueue.initialize;
     GCTaskManager.monitor_owned := false |}.

(** ** A concrete state

    Five tasks: 1, 2, 3 are chained on a queue (oldest first: an ordinary
    task of affinity 2, an ordinary task of affinity 1, a barrier task);
    4 is an ordinary task on no queue and 5 the shared noop task. *)
Definition chain_heap : heap :=
  <[1%positive := mkGCTask Kind.ordinary_task 2 NULL (Some 2%positive) 0]>
  (<[2%positive := mkGCTask Kind.ordinary_task 1 (Some 1%positive)
                     (Some 3%positive) 0]>
  (<[3%positive := mkGCTask Kind.wait_for_barrier_task sentinel_worker
                     (Some 2%positive) NULL 0]>
  (<[4%positive := GCTask_initialize Kind.ordinary_task 0]>
  (<[5%positive := GCTask_initialize Kind.noop_task 0]> ∅)))).

Definition chain_queue : GCTaskQueue.t :=
  {| GCTaskQueue.insert_end := Some 3%positive;
     GCTaskQueue.remove_end := Some 1%positive;
     GCTaskQueue.length := 3 |}.

(** A manager of two workers, one of them busy, with [chain_queue] as its
    queue; worker 1 has been asked to release its resources. *)
Definition chain_manager : GCTaskManager.t :=
  {| GCTaskManager.workers := 2;
     GCTaskManager.created_workers := 2;
     GCTaskManager.active_workers := 2;
     GCTaskManager.idle_workers := 0;
     GCTaskManager.busy_workers := 1;
     GCTaskManager.blocking_worker := sentinel_worker;
     GCTaskManager.resource_flag := [false; true];
     GCTaskManager.delivered_tasks := 1;
     GCTaskManager.completed_tasks := 0;
     GCTaskManager.barriers := 0;
     GCTaskManager.emptied_queue := 0;
     GCTaskManager.noop_task := Some 5%positive;
     GCTaskManager.queue := chain_queue;
     GCTaskManager.monitor_owned := false |}.

(** The queue [B, T_x, T_y] (oldest first) of a barrier task and two
    ordinary tasks of affinities 5 and 6, and a one-task queue holding
    task 4 of [chain_heap]. *)
Definition barrier_first_heap : heap :=
  <[1%positive := mkGCTask Kind.wait_for_barrier_task sentinel_worker
                    NULL (Some 2%positive) 0]>
  (<[2%positive := mkGCTask Kind.ordinary_task 5 (Some 1%positive)
                     (Some 3%positive) 0]>
  (<[3%positive := mkGCTask Kind.ordinary_task 6 (Some 2%positive) NULL 0]>
   ∅)).

Definition single_queue : GCTaskQueue.t :=
  {| GCTaskQueue.insert_end := Some 4%positive;
     GCTaskQueue.remove_end := Some 4%positive;
     GCTaskQueue.length := 1 |}.

(** * Further definitions *)

(** The task a pointer names, if any, as a list. *)
Definition opt_list (p : option addr) : list addr :=
  match p with
  | Some a => [a]
  | None => []
  end.

(** The manager [m] after the delivery of a task with record [t] by
    [get_task]: [blocker] is the new [blocking_worker] and [q] the new
    queue; the busy and delivered counters move unless the task is an
    idle task, and the monitor is released. *)
Definition delivery (m : GCTaskManager.t) (t : GCTask) (blocker : Z)
    (q : GCTaskQueue.t) : GCTaskManager.t :=
  GCTaskManager.mk
    (GCTaskManager.workers m)
    (GCTaskManager.created_workers m)
    (GCTaskManager.active_workers m)
    (GCTaskManager.idle_workers m)
    (if is_idle_task t then GCTaskManager.busy_workers m
     else uint_incr (GCTaskManager.busy_workers m))
    blocker
    (GCTaskManager.resource_flag m)
    (if is_idle_task t then GCTaskManager.delivered_tasks m
     else uint_incr (GCTaskManager.delivered_tasks m))
    (GCTaskManager.completed_tasks m)
    (GCTaskManager.barriers m)
    (GCTaskManager.emptied_queue m)
    (GCTaskManager.noop_task m)
    q
    false.

(** The bookkeeping of the manager is balanced: the busy workers are the
    tasks delivered and not yet completed (all three are uint). *)
Definition counters_inv (m : GCTaskManager.t) : Prop :=
  GCTaskManager.busy_workers m
  = (GCTaskManager.delivered_tasks m - GCTaskManager.completed_tasks m)
    mod uint_modulus.

(** ** MonitorSupply

    The process-wide supply of monitors.  A monitor is an address.  The
    free list is a [GrowableArray<Monitor*>], used as a stack: [push]
    appends, [pop] takes the last element.  Of the mutex [_lock] only
    its being created matters.  Whether a monitor is locked is the
    business of the threads that use it: the operations read it through
    [is_locked]. *)

Module MonitorSupply.

Record t : Type := mk {
  lock_created : bool;
  freelist : option (list addr)
}.

(** The supply before its first use: [_lock] and [_freelist] are NULL. *)
Definition uninitialized : t :=
  {| lock_created := false; freelist := None |}.

(** [MonitorSupply::reserve()]; [new_monitor] is the address that
    [new Monitor] returns if the free list is empty. *)
Definition reserve (new_monitor : addr) (is_locked : addr → bool) (s : t)
    : outcome (t * option addr) :=
  let s := if lock_created s then s
           else {| lock_created := true; freelist := freelist s |} in
  let s := match freelist s with
           | None => {| lock_created := lock_created s; freelist := Some [] |}
           | Some _ => s
           end in
  match freelist s with
  | None => Fault
  | Some fl =>
      let '(s, result) :=
        match last fl with
        | Some top =>
            ({| lock_created := lock_created s;
                freelist := Some (removelast fl) |}, Some top)
        | None => (s, Some new_monitor)
        end in
      match result with
      | None => AssertFail "shouldn't return NULL"
      | Some r =>
          _ ← assert (negb (is_locked r)) "shouldn't be locked";
          Ok (s, result)
      end
  end.

(** [MonitorSupply::release(instance)]. *)
Definition release (is_locked : addr → bool) (instance : option addr)
    (s : t) : outcome t :=
  match instance with
  | None => AssertFail "shouldn't release NULL"
  | Some i =>
      _ ← assert (negb (is_locked i)) "shouldn't be locked";
      match freelist s with
      | None => Fault
      | Some fl =>
          Ok {| lock_created := lock_created s; freelist := Some (fl ++ [i]) |}
      end
  end.

End MonitorSupply.

(** ** WaitHelper *)

Module WaitHelper.

Record t : Type := mk {
  monitor : option addr;
  should_wait : bool
}.

Definition set_should_wait (wh : t) (value : bool) : t :=
  {| monitor := monitor wh; should_wait := value |}.

(** [WaitHelper::WaitHelper()]. *)
Definition create (new_monitor : addr) (is_locked : addr → bool)
    (supply : MonitorSupply.t) : outcome (MonitorSupply.t * t) :=
  '(supply, mon) ← MonitorSupply.reserve new_monitor is_locked supply;
  Ok (supply, {| monitor := mon; should_wait := true |}).

(** [WaitHelper::release_monitor()]; the destructor is a call of it. *)
Definition release_monitor (is_locked : addr → bool) (wh : t)
    (supply : MonitorSupply.t) : outcome (MonitorSupply.t * t) :=
  _ ← assert (negb (ptr_eqb (monitor wh) NULL)) EmptyString;
  supply ← MonitorSupply.release is_locked (monitor wh) supply;
  Ok (supply, {| monitor := NULL; should_wait := should_wait wh |}).

(** The [while] loop of [wait_for]: [wakeups] lists the helper as the
    thread finds it each time it wakes up.  Waiting on a monitor that
    has been given back is a fault. *)
Fixpoint wait_loop (wh : t) (wakeups : list t) : outcome t :=
  if should_wait wh then
    match monitor wh with
    | None => Fault
    | Some _ =>
        match wakeups with
        | [] => Waiting
        | wh' :: wakeups' => wait_loop wh' wakeups'
        end
    end
  else Ok wh.

(** [WaitHelper::wait_for(reset)]. *)
Definition wait_for (reset : bool) (wh : t) (wakeups : list t) : outcome t :=
  wh ← wait_loop wh wakeups;
  Ok (if reset then set_should_wait wh true else wh).

(** [WaitHelper::notify()]. *)
Definition notify (wh : t) : outcome t :=
  let wh := set_should_wait wh false in
  match monitor wh with
  | None => Fault
  | Some _ => Ok wh
  end.

End WaitHelper.

(** ** Idle workers

    The manager's member [_wait_helper] is carried beside the manager
    record: the functions below take and return both. *)

(** The conversions between [uint] and [int] (32 bits, two's
    complement). *)
Definition to_int (z : Z) : Z :=
  if z mod uint_modulus <? 2 ^ 31 then z mod uint_modulus
  else z mod uint_modulus - uint_modulus.
Definition to_uint (z : Z) : Z := z mod uint_modulus.
Definition uint_sub (x y : Z) : Z := (x - y) mod uint_modulus.

(** [new] of a task: [new_task] names the address the allocator hands
    out for the heap as it is; an allocator never hands out an address
    in use. *)
Definition new_GCTask (new_task : heap → addr) (t : GCTask) (h : heap)
    : outcome (heap * addr) :=
  let p := new_task h in
  match h !! p with
  | Some _ => Fault
  | None => Ok (<[p := t]> h, p)
  end.

Module IdleGCTask.

(** [IdleGCTask::create_on_c_heap()]: the constructor is
    [GCTask(GCTask::Kind::idle_task)], which initializes the task with
    the current gc id. *)
Definition create_on_c_heap (UseDynamicNumberOfGCThreads : bool)
    (current_gc_id : Z) (new_task : heap → addr) (h : heap)
    : outcome (heap * addr) :=
  '(h, result) ←
    new_GCTask new_task (GCTask_initialize Kind.idle_task current_gc_id) h;
  _ ← assert UseDynamicNumberOfGCThreads
        "Should only be used with dynamic GC thread";
  Ok (h, result).

End IdleGCTask.

Module GCTaskManagerIdle.

Definition set_idle_workers (m : GCTaskManager.t) (n : Z) : GCTaskManager.t :=
  GCTaskManager.mk
    (GCTaskManager.workers m) (GCTaskManager.created_workers m)
    (GCTaskManager.active_workers m) n
    (GCTaskManager.busy_workers m) (GCTaskManager.blocking_worker m)
    (GCTaskManager.resource_flag m) (GCTaskManager.delivered_tasks m)
    (GCTaskManager.completed_tasks m) (GCTaskManager.barriers m)
    (GCTaskManager.emptied_queue m) (GCTaskManager.noop_task m)
    (GCTaskManager.queue m) (GCTaskManager.monitor_owned m).

(** Modelled from the spec: the idle counter is incremented when an idle
    task is created and decremented when an idle task is released;
    [increment_idle_workers()] and [decrement_idle_workers()] are inline
    members of gcTaskManager.hpp (absent). *)
Definition increment_idle_workers (m : GCTaskManager.t) : GCTaskManager.t :=
  set_idle_workers m (uint_incr (GCTaskManager.idle_workers m)).
Definition decrement_idle_workers (m : GCTaskManager.t) : GCTaskManager.t :=
  set_idle_workers m (uint_decr (GCTaskManager.idle_workers m)).

(** The [for] loop of [task_idle_workers()], entered with index [i]. *)
Fixpoint idle_loop (rounds : nat) (i bound : Z)
    (UseDynamicNumberOfGCThreads : bool) (current_gc_id : Z)
    (new_task : heap → addr)
    (h : heap) (m : GCTaskManager.t) (q : GCTaskQueue.t)
    : outcome (heap * GCTaskManager.t * GCTaskQueue.t) :=
  if i <? bound then
    match rounds with
    | O => Diverges
    | S rounds' =>
        '(h, task) ← IdleGCTask.create_on_c_heap
                       UseDynamicNumberOfGCThreads current_gc_id new_task h;
        '(h, q) ← GCTaskQueue.enqueue (Some task) h q;
        let m := increment_idle_workers m in
        idle_loop rounds' (uint_incr i) bound UseDynamicNumberOfGCThreads
          current_gc_id new_task h m q
    end
  else Ok (h, m, q).

(** [GCTaskManager::task_idle_workers()].  [update_active_workers] is
    the member of gcTaskManager.hpp (absent) that the function calls
    when more workers are idle than the request for active workers
    allows. *)
Definition task_idle_workers (UseDynamicNumberOfGCThreads : bool)
    (current_gc_id : Z) (new_task : heap → addr)
    (update_active_workers : Z → GCTaskManager.t → outcome GCTaskManager.t)
    (h : heap) (m : GCTaskManager.t) (wh : WaitHelper.t)
    : outcome (heap * GCTaskManager.t * WaitHelper.t) :=
  let m := GCTaskManager.lock m in
  let wh := WaitHelper.set_should_wait wh true in
  let more_inactive_workers :=
    to_int (uint_sub (uint_sub (GCTaskManager.created_workers m)
                               (GCTaskManager.active_workers m))
                     (GCTaskManager.idle_workers m)) in
  '(m, more_inactive_workers) ←
    (if more_inactive_workers <? 0 then
       let reduced_active_workers :=
         to_int (uint_add (GCTaskManager.active_workers m)
                          (to_uint more_inactive_workers)) in
       m ← update_active_workers (to_uint reduced_active_workers) m;
       Ok (m, 0)
     else Ok (m, more_inactive_workers));
  let m := GCTaskManager.unlock m in
  let q := GCTaskQueue.initialize in
  '(h, m, q) ← idle_loop (Z.to_nat (to_uint more_inactive_workers)) 0
                 (to_uint more_inactive_workers)
                 UseDynamicNumberOfGCThreads current_gc_id new_task h m q;
  _ ← assert (GCTaskManager.created_workers m
              =? uint_add (GCTaskManager.active_workers m)
                          (GCTaskManager.idle_workers m))
        "total workers should equal active + inactive";
  '(h, m, q) ← GCTaskManager.add_list h m q;
  Ok (h, m, wh).

(** [GCTaskManager::release_idle_workers()]. *)
Definition release_idle_workers (m : GCTaskManager.t) (wh : WaitHelper.t)
    : GCTaskManager.t * WaitHelper.t :=
  let m := GCTaskManager.lock m in
  let wh := WaitHelper.set_should_wait wh false in
  (GCTaskManager.unlock m, wh).

(** The [while] loop of [IdleGCTask::do_it]: [wakeups] lists the manager
    and its wait helper as the thread finds them at each wake-up. *)
Fixpoint idle_wait (m : GCTaskManager.t) (wh : WaitHelper.t)
    (wakeups : list (GCTaskManager.t * WaitHelper.t))
    : outcome (GCTaskManager.t * WaitHelper.t) :=
  if WaitHelper.should_wait wh then
    match wakeups with
    | [] => Waiting
    | (m', wh') :: wakeups' => idle_wait (GCTaskManager.lock m') wh' wakeups'
    end
  else Ok (m, wh).

(** [IdleGCTask::do_it(manager, which)]. *)
Definition IdleGCTask_do_it (which : Z) (m : GCTaskManager.t)
    (wh : WaitHelper.t) (wakeups : list (GCTaskManager.t * WaitHelper.t))
    : outcome (GCTaskManager.t * WaitHelper.t) :=
  let m := GCTaskManager.lock m in
  '(m, wh) ← idle_wait m wh wakeups;
  let m := decrement_idle_workers m in
  Ok (GCTaskManager.unlock m, wh).

End GCTaskManagerIdle.

(** ** WaitForBarrierGCTask *)

Module WaitForBarrierGCTask.

(** The [while] loop of [do_it_internal]: [wakeups] lists the manager as
    the thread finds it at each wake-up. *)
Fixpoint drain_wait (m : GCTaskManager.t) (wakeups : list GCTaskManager.t)
    : outcome GCTaskManager.t :=
  if 1 <? GCTaskManager.busy_workers m then
    match wakeups with
    | [] => Waiting
    | m' :: wakeups' => drain_wait (GCTaskManager.lock m') wakeups'
    end
  else Ok m.

(** [WaitForBarrierGCTask::do_it_internal(manager, which)]. *)
Definition do_it_internal (which : Z) (m : GCTaskManager.t)
    (wakeups : list GCTaskManager.t) : outcome GCTaskManager.t :=
  _ ← assert (GCTaskManager.monitor_owned m) "don't own the lock";
  _ ← assert (GCTaskManager.is_blocked m) "manager isn't blocked";
  drain_wait m wakeups.

(** [WaitForBarrierGCTask::do_it(manager, which)]; [wh] is the task's
    member [_wait_helper]. *)
Definition do_it (which : Z) (m : GCTaskManager.t) (wh : WaitHelper.t)
    (wakeups : list GCTaskManager.t)
    : outcome (GCTaskManager.t * WaitHelper.t) :=
  let m := GCTaskManager.lock m in
  m ← do_it_internal which m wakeups;
  let m := GCTaskManager.unlock m in
  wh ← WaitHelper.notify wh;
  Ok (m, wh).

(** [WaitForBarrierGCTask::create()]: [new], the constructor of the base
    class [GCTask(GCTask::Kind::wait_for_barrier_task)] with the current
    gc id, then the constructor of the member [_wait_helper]. *)
Definition create (current_gc_id : Z) (new_task : heap → addr)
    (new_monitor : addr) (is_locked : addr → bool)
    (h : heap) (supply : MonitorSupply.t)
    : outcome (heap * MonitorSupply.t * addr * WaitHelper.t) :=
  '(h, result) ←
    new_GCTask new_task
      (GCTask_initialize Kind.wait_for_barrier_task current_gc_id) h;
  '(supply, wh) ← WaitHelper.create new_monitor is_locked supply;
  Ok (h, supply, result, wh).

(** [WaitForBarrierGCTask::destruct()]. *)
Definition destruct (is_locked : addr → bool) (h : heap) (this : addr)
    (wh : WaitHelper.t) (supply : MonitorSupply.t)
    : outcome (MonitorSupply.t * WaitHelper.t) :=
  _ ← GCTask_destruct h this;
  WaitHelper.release_monitor is_locked wh supply.

(** [WaitForBarrierGCTask::destroy(that)]. *)
Definition destroy (is_locked : addr → bool) (h : heap) (that : option addr)
    (wh : WaitHelper.t) (supply : MonitorSupply.t)
    : outcome (MonitorSupply.t * WaitHelper.t) :=
  match that with
  | None => Ok (supply, wh)
  | Some this => destruct is_locked h this wh supply
  end.

End WaitForBarrierGCTask.

(** ** execute_and_wait *)

Module GCTaskManagerExecute.

(** What the thread shares with the workers while it waits: the heap,
    the manager, the monitor supply and the wait helper of the barrier
    task. *)
Definition shared : Type :=
  heap * GCTaskManager.t * MonitorSupply.t * WaitHelper.t.

(** Modelled from the spec: [fin->wait_for(reset)] is the [wait_for] of
    the task's member [_wait_helper] (the forwarding member is in
    gcTaskManager.hpp, absent).  The loop is that of
    [WaitHelper::wait_for]; [wakeups] lists the shared state as the
    thread finds it each time it wakes up. *)
Fixpoint wait_loop (st : shared) (wakeups : list shared) : outcome shared :=
  if WaitHelper.should_wait st.2 then
    match WaitHelper.monitor st.2 with
    | None => Fault
    | Some _ =>
        match wakeups with
        | [] => Waiting
        | st' :: wakeups' => wait_loop st' wakeups'
        end
    end
  else Ok st.

Definition wait_for (reset : bool) (st : shared) (wakeups : list shared)
    : outcome shared :=
  st ← wait_loop st wakeups;
  Ok (if reset then (st.1, WaitHelper.set_should_wait st.2 true) else st).

(** [GCTaskManager::execute_and_wait(list)] up to and including
    [add_list(list)]: the result carries the barrier task [fin] and its
    wait helper. *)
Definition submit (current_gc_id : Z) (new_task : heap → addr)
    (new_monitor : addr) (is_locked : addr → bool)
    (h : heap) (m : GCTaskManager.t) (supply : MonitorSupply.t)
    (list : GCTaskQueue.t)
    : outcome (shared * GCTaskQueue.t * addr) :=
  '(h, supply, fin, wh) ←
    WaitForBarrierGCTask.create current_gc_id new_task new_monitor is_locked
      h supply;
  '(h, list) ← GCTaskQueue.enqueue (Some fin) h list;
  '(h, m, list) ← GCTaskManager.add_list h m list;
  Ok (h, m, supply, wh, list, fin).

(** [GCTaskManager::execute_and_wait(list)].  [is_locked] tells which
    monitors are locked when the barrier task is created, [is_locked']
    when it is destroyed. *)
Definition execute_and_wait (current_gc_id : Z) (new_task : heap → addr)
    (new_monitor : addr) (is_locked is_locked' : addr → bool)
    (h : heap) (m : GCTaskManager.t) (supply : MonitorSupply.t)
    (list : GCTaskQueue.t) (wakeups : Datatypes.list shared)
    : outcome (heap * GCTaskManager.t * MonitorSupply.t * GCTaskQueue.t) :=
  '(st, list, fin) ←
    submit current_gc_id new_task new_monitor is_locked h m supply list;
  '(h, m, supply, wh) ← wait_for true st wakeups;
  '(supply, wh) ←
    WaitForBarrierGCTask.destroy is_locked' h (Some fin) wh supply;
  Ok (h, m, supply, list).

End GCTaskManagerExecute.

(** * Further concrete states *)

(** An allocator: the first address that is not in use. *)
Definition next_free (h : heap) : addr := fresh (dom h).

(** Three workers created, one requested, none idle; nothing queued. *)
Definition one_of_three_active : GCTaskManager.t :=
  {| GCTaskManager.workers := 3;
     GCTaskManager.created_workers := 3;
     GCTaskManager.active_workers := 1;
     GCTaskManager.idle_workers := 0;
     GCTaskManager.busy_workers := 0;
     GCTaskManager.blocking_worker := sentinel_worker;
     GCTaskManager.resource_flag := [false; false; false];
     GCTaskManager.delivered_tasks := 0;
     GCTaskManager.completed_tasks := 0;
     GCTaskManager.barriers := 0;
     GCTaskManager.emptied_queue := 0;
     GCTaskManager.noop_task := Some 5%positive;
     GCTaskManager.queue := GCTaskQueue.initialize;
     GCTaskManager.monitor_owned := false |}.

(** Three workers created, all requested, two of them idle. *)
Definition two_of_three_idle : GCTaskManager.t :=
  {| GCTaskManager.workers := 3;
     GCTaskManager.created_workers := 3;
     GCTaskManager.active_workers := 3;
     GCTaskManager.idle_workers := 2;
     GCTaskManager.busy_workers := 0;
     GCTaskManager.blocking_worker := sentinel_worker;
     GCTaskManager.resource_flag := [false; false; false];
     GCTaskManager.delivered_tasks := 0;
     GCTaskManager.completed_tasks := 0;
     GCTaskManager.barriers := 0;
     GCTaskManager.emptied_queue := 0;
     GCTaskManager.noop_task := Some 5%positive;
     GCTaskManager.queue := GCTaskQueue.initialize;
     GCTaskManager.monitor_owned := false |}.

(** [update_active_workers] as a plain store of the new value. *)
Definition store_active_workers (v : Z) (m : GCTaskManager.t)
    : outcome GCTaskManager.t :=
  Ok (GCTaskManager.mk
        (GCTaskManager.workers m) (GCTaskManager.created_workers m)
        v (GCTaskManager.idle_workers m)
        (GCTaskManager.busy_workers m) (GCTaskManager.blocking_worker m)
        (GCTaskManager.resource_flag m) (GCTaskManager.delivered_tasks m)
        (GCTaskManager.completed_tasks m) (GCTaskManager.barriers m)
        (GCTaskManager.emptied_queue m) (GCTaskManager.noop_task m)
        (GCTaskManager.queue m) (GCTaskManager.monitor_owned m)).

(** A wait helper that holds monitor 1 and has not been notified. *)
Definition waiting_helper : WaitHelper.t :=
  {| WaitHelper.monitor := Some 1%positive; WaitHelper.should_wait := true |}.

(** No monitor is locked. *)
Definition none_locked : addr → bool := λ _, false.

(** The queue that holds the one task [p]. *)
Definition singleton_queue (p : addr) : GCTaskQueue.t :=
  {| GCTaskQueue.insert_end := Some p;
     GCTaskQueue.remove_end := Some p;
     GCTaskQueue.length := 1 |}.

(** Two ordinary tasks, each the only task of a queue of its own
    ([singleton_queue 1] and [singleton_queue 2]). *)
Definition two_singletons : heap :=
  <[1%positive := GCTask_initialize Kind.ordinary_task 0]>
  (<[2%positive := GCTask_initialize Kind.ordinary_task 0]> ∅).

(** * Queue objects

    [this] and [list] of [enqueue(GCTaskQueue* list)] are pointers and
    may name the same object.  Here the queue objects live in a store of
    their own, by address, and every member call reads and writes the
    object it is made on. *)

Module QueueObjects.

Abbreviation store := (gmap positive GCTaskQueue.t) (only parsing).

(** The object at [p]; a pointer to no queue object is a fault. *)
Definition get (qs : store) (p : addr) : outcome GCTaskQueue.t :=
  match qs !! p with
  | Some q => Ok q
  | None => Fault
  end.

(** A setter called on the object at [p]. *)
Definition update (p : addr) (f : GCTaskQueue.t → GCTaskQueue.t)
    (qs : store) : outcome store :=
  q ← get qs p; Ok (<[p := f q]> qs).

(** [this->enqueue(list)], statement by statement. *)
Definition enqueue_list (this list : addr) (h : heap) (qs : store)
    : outcome (heap * store) :=
  l ← get qs list;
  if GCTaskQueue.is_empty l then Ok (h, qs)
  else
    let list_length := GCTaskQueue.length l in
    t ← get qs this;
    '(h, qs) ←
      (if GCTaskQueue.is_empty t then
         l ← get qs list;
         qs ← update this
                (λ q, GCTaskQueue.set_insert_end q (GCTaskQueue.insert_end l))
                qs;
         l ← get qs list;
         qs ← update this
                (λ q, GCTaskQueue.set_remove_end q (GCTaskQueue.remove_end l))
                qs;
         qs ← update this (λ q, GCTaskQueue.set_length q list_length) qs;
         Ok (h, qs)
       else
         l ← get qs list;
         t ← get qs this;
         match GCTaskQueue.remove_end l, GCTaskQueue.insert_end t with
         | Some lre, Some ie =>
             h ← set_older lre (GCTaskQueue.insert_end t) h;
             h ← set_newer ie (GCTaskQueue.remove_end l) h;
             qs ← update this
                    (λ q, GCTaskQueue.set_insert_end q
                            (GCTaskQueue.insert_end l))
                    qs;
             t ← get qs this;
             qs ← update this
                    (λ q, GCTaskQueue.set_length q
                            (uint_add (GCTaskQueue.length t) list_length))
                    qs;
             Ok (h, qs)
         | _, _ => Fault
         end);
    qs ← update list (λ _, GCTaskQueue.initialize) qs;
    t ← get qs this;
    _ ← GCTaskQueue.verify_length h t;
    Ok (h, qs).

End QueueObjects.

(** The queue objects of the concrete state: [chain_queue] at address 1
    and [single_queue] at address 2. *)
Definition chain_store : QueueObjects.store :=
  <[1%positive := chain_queue]> (<[2%positive := single_queue]> ∅).
(** * Proofs *)

Lemma bind_Ok {A B} (a : A) (f : A → outcome B) : (Ok a ≫= f) = f a.
Proof. reflexivity. Qed.

Lemma load_Some (h : heap) p t : h !! p = Some t → load h p = Ok t.
Proof. unfold load. by intros ->. Qed.

Lemma ptr_eqb_refl p : ptr_eqb p p = true.
Proof. unfold ptr_eqb. by apply bool_decide_eq_true. Qed.

Lemma ptr_eqb_Some_None p : ptr_eqb (Some p) NULL = false.
Proof. unfold ptr_eqb. by apply bool_decide_eq_false. Qed.

Section Segments.
Implicit Types (h : gmap positive GCTask) (l : list positive)
  (prev next : option positive).

Lemma last_or_snoc prev l a : last_or prev (l ++ [a]) = Some a.
Proof. unfold last_or. by rewrite last_snoc. Qed.

Lemma last_or_nil prev : last_or prev [] = prev.
Proof. done. Qed.

Lemma last_or_cons prev a l : last_or prev (a :: l) = last_or (Some a) l.
Proof.
  unfold last_or. destruct l as [|b l]; [done|].
  rewrite last_cons_cons. by destruct (last (b :: l)) eqn:E; [|by apply last_None in E].
Qed.

Lemma last_or_None l : last_or NULL l = last l.
Proof. unfold last_or. by destruct (last l). Qed.

Lemma first_or_None l : first_or NULL l = head l.
Proof. by destruct l. Qed.

Lemma first_or_app next l1 l2 :
  first_or next (l1 ++ l2) = first_or (first_or next l2) l1.
Proof. by destruct l1. Qed.

Lemma last_or_app prev l1 l2 :
  last_or prev (l1 ++ l2) = last_or (last_or prev l1) l2.
Proof.
  revert prev. induction l1 as [|a l1 IH]; intros prev; [done|].
  by rewrite <- app_comm_cons, !last_or_cons, IH.
Qed.

Lemma dseg_app h prev l1 l2 next :
  dseg h prev (l1 ++ l2) next
  ↔ dseg h prev l1 (first_or next l2) ∧ dseg h (last_or prev l1) l2 next.
Proof.
  revert prev. induction l1 as [|a l1 IH]; intros prev; simpl.
  - rewrite last_or_nil. tauto.
  - rewrite IH, first_or_app, last_or_cons. tauto.
Qed.

Lemma dseg_frame h h' prev l next :
  (∀ a, a ∈ l → h' !! a = h !! a) →
  dseg h prev l next → dseg h' prev l next.
Proof.
  revert prev. induction l as [|a l IH]; intros prev Hsame; simpl; [done|].
  intros [(t & Ht & Ho & Hn) Hrest]. split.
  - exists t. rewrite Hsame; [done|]. by left.
  - apply IH; [|done]. intros b Hb. apply Hsame. by right.
Qed.

Lemma dseg_lookup h prev l1 a l2 next :
  dseg h prev (l1 ++ a :: l2) next →
  ∃ t, h !! a = Some t ∧ older t = last_or prev l1
       ∧ newer t = first_or next l2.
Proof. rewrite dseg_app. simpl. naive_solver. Qed.

Lemma dseg_is_Some h prev l next a :
  dseg h prev l next → a ∈ l → is_Some (h !! a).
Proof.
  intros Hd [l1 [l2 ->]]%list_elem_of_split.
  apply dseg_lookup in Hd as (t & -> & _). by eexists.
Qed.

End Segments.

Section SegmentUpdates.
Implicit Types (h : gmap positive GCTask) (l : list positive)
  (prev next : option positive).

Lemma dseg_insert_ne h prev l next a t :
  a ∉ l → dseg h prev l next → dseg (<[a := t]> h) prev l next.
Proof.
  intros Ha. apply dseg_frame. intros b Hb.
  apply lookup_insert_ne. by intros ->.
Qed.

Lemma dseg_set_newer_last h prev l a ta v next :
  dseg h prev (l ++ [a]) next → a ∉ l → h !! a = Some ta →
  dseg (<[a := with_newer ta v]> h) prev (l ++ [a]) v.
Proof.
  rewrite !dseg_app. simpl. intros [H1 [(t & Ht & Ho & Hn) _]] Hnotin Ha.
  split.
  - by apply dseg_insert_ne.
  - split; [|done]. exists (with_newer ta v).
    rewrite lookup_insert_eq. simplify_eq. done.
Qed.

Lemma dseg_set_older_first h prev a l v next ta :
  dseg h prev (a :: l) next → a ∉ l → h !! a = Some ta →
  dseg (<[a := with_older ta v]> h) v (a :: l) next.
Proof.
  simpl. intros [(t & Ht & Ho & Hn) Hrest] Hnotin Ha. split.
  - exists (with_older ta v). rewrite lookup_insert_eq. simplify_eq. done.
  - by apply dseg_insert_ne.
Qed.

Lemma dseg_length_le_size h prev l next :
  dseg h prev l next → NoDup l → (List.length l ≤ size h)%nat.
Proof.
  intros Hd Hnd.
  rewrite <- (size_list_to_set (C := gset positive) l) by done.
  rewrite <- (size_dom h). apply subseteq_size.
  intros a Ha%elem_of_list_to_set. apply elem_of_dom.
  by eapply dseg_is_Some.
Qed.

Lemma uint_incr_is_uint c : is_uint (uint_incr c).
Proof. unfold is_uint, uint_incr, uint_modulus. apply Z.mod_pos_bound. lia. Qed.

Lemma count_older_dseg h l next fuel c :
  dseg h NULL l next → (List.length l ≤ fuel)%nat → is_uint c →
  GCTaskQueue.count_older fuel h (last l) c
  = Ok ((c + Z.of_nat (List.length l)) mod uint_modulus).
Proof.
  revert next fuel c. induction l as [|a l IH] using rev_ind;
    intros next fuel c Hd Hfuel Hc.
  - simpl. destruct fuel; simpl; f_equal; rewrite Z.add_0_r;
      symmetry; apply Z.mod_small; apply Hc.
  - rewrite last_snoc, length_app in *. simpl in Hfuel.
    destruct fuel as [|fuel]; [lia|]. simpl.
    pose proof Hd as Hd'. apply dseg_lookup in Hd' as (t & Ht & Ho & _).
    rewrite (load_Some _ _ _ Ht), bind_Ok, Ho, last_or_None.
    rewrite (IH (Some a) fuel (uint_incr c)).
    + f_equal. unfold uint_incr. rewrite Zplus_mod_idemp_l. f_equal.
      simpl. lia.
    + apply dseg_app in Hd. tauto.
    + lia.
    + apply uint_incr_is_uint.
Qed.

Lemma verify_length_ok h q l next :
  dseg h NULL l next → NoDup l →
  GCTaskQueue.insert_end q = last l →
  GCTaskQueue.length q = Z.of_nat (List.length l) →
  Z.of_nat (List.length l) < uint_modulus →
  GCTaskQueue.verify_length h q = Ok tt.
Proof.
  intros Hd Hnd Hie Hlen Hbound. unfold GCTaskQueue.verify_length.
  rewrite Hie, (count_older_dseg h l next); [| done | | ].
  - rewrite bind_Ok, Z.add_0_l, Z.mod_small by lia.
    rewrite Hlen, Z.eqb_refl. done.
  - pose proof (dseg_length_le_size _ _ _ _ Hd Hnd). lia.
  - unfold is_uint, uint_modulus. lia.
Qed.

Lemma reaches_older_dseg h l next n :
  dseg h NULL l next → reaches_older h (last l) n ↔ n ∈ l.
Proof.
  revert next n. induction l as [|a l IH] using rev_ind; intros next n Hd.
  - simpl. split; [inversion 1 | by intros ?%elem_of_nil].
  - rewrite last_snoc. pose proof Hd as (t & Ht & Ho & _)%dseg_lookup.
    rewrite last_or_None in Ho.
    apply dseg_app in Hd as [Hd _]. specialize (IH _ n Hd).
    rewrite elem_of_app, list_elem_of_singleton. split.
    + inversion 1; simplify_eq; [by right|]. left. apply IH. congruence.
    + intros [Hn | ->]; [|constructor].
      eapply reaches_step; [done|]. rewrite Ho. by apply IH.
Qed.

End SegmentUpdates.

Lemma queue_repr_structural (h : gmap positive GCTask) q l :
  queue_repr h q l → structural_invariant h q.
Proof.
  intros [Hd Hnd Hre Hie Hlen Hb]. split.
  - rewrite Hlen, Hie, last_None. destruct l; simpl; split; (done || lia).
  - rewrite Hie, Hre, last_None, head_None. done.
  - intros r Hr. rewrite Hre in Hr. destruct l as [|a l]; simplify_eq/=.
    destruct Hd as [(t & Ht & Ho & _) _]. eauto.
  - intros i Hi. rewrite Hie in Hi.
    apply last_Some in Hi as [l' ->].
    apply dseg_lookup in Hd as (t & Ht & _ & Hn). eauto.
  - intros n Hn. rewrite Hie in Hn. apply (reaches_older_dseg h l None) in Hn; [|done].
    apply list_elem_of_split in Hn as (l1 & l2 & ->).
    pose proof Hd as (t & Ht & Ho & Hn)%dseg_lookup.
    exists t. split; [done|]. split.
    + intros o Hoo. rewrite Hoo, last_or_None in Ho. symmetry in Ho.
      apply last_Some in Ho as [l1' ->]. rewrite <- app_assoc in Hd. simpl in Hd.
      apply dseg_lookup in Hd as (t' & Ht' & _ & Hn'). eauto.
    + intros w Hw. rewrite Hw in Hn. destruct l2 as [|b l2]; simplify_eq/=.
      replace (l1 ++ n :: b :: l2) with ((l1 ++ [n]) ++ b :: l2) in Hd
        by (by rewrite <- app_assoc).
      apply dseg_lookup in Hd as (t' & Ht' & Ho' & _).
      rewrite last_or_snoc in Ho'. eauto.
  - exists l. split; [done|]. split; [|done].
    intros n. rewrite Hie. by apply reaches_older_dseg with (next := None).
Qed.


Lemma set_older_Some (h : gmap positive GCTask) p t v :
  h !! p = Some t → set_older p v h = Ok (<[p := with_older t v]> h).
Proof. intros Hp. unfold set_older. by rewrite (load_Some _ _ _ Hp). Qed.

Lemma set_newer_Some (h : gmap positive GCTask) p t v :
  h !! p = Some t → set_newer p v h = Ok (<[p := with_newer t v]> h).
Proof. intros Hp. unfold set_newer. by rewrite (load_Some _ _ _ Hp). Qed.

Lemma same_payload_refl (h : gmap positive GCTask) : same_payload h h.
Proof. by intros p. Qed.

Lemma same_payload_trans (h1 h2 h3 : gmap positive GCTask) :
  same_payload h1 h2 → same_payload h2 h3 → same_payload h1 h3.
Proof. intros H12 H23 p. by rewrite H23, H12. Qed.

Lemma same_payload_insert (h : gmap positive GCTask) p t t' :
  h !! p = Some t → payload t' = payload t →
  same_payload h (<[p := t']> h).
Proof.
  intros Hp Hpay q. destruct (decide (p = q)) as [<-|Hne].
  - by rewrite lookup_insert_eq, Hp; simpl; rewrite Hpay.
  - by rewrite lookup_insert_ne.
Qed.

Lemma frame_refl l (h : gmap positive GCTask) : frame l h h.
Proof. by intros p. Qed.

Lemma frame_trans l (h1 h2 h3 : gmap positive GCTask) :
  frame l h1 h2 → frame l h2 h3 → frame l h1 h3.
Proof. intros H12 H23 p Hp. by rewrite H23, H12. Qed.

Lemma frame_insert l (h : gmap positive GCTask) p t :
  p ∈ l → frame l h (<[p := t]> h).
Proof. intros Hp q Hq. apply lookup_insert_ne. by intros ->. Qed.

Lemma frame_mono l l' (h h' : gmap positive GCTask) :
  l ⊆ l' → frame l h h' → frame l' h h'.
Proof. intros Hsub Hf p Hp. apply Hf. by intros ?%Hsub. Qed.

Lemma remove_spec (h : gmap positive GCTask) q a l :
  queue_repr h q (a :: l) →
  ∃ h' q', GCTaskQueue.remove h q = Ok (h', q', Some a)
    ∧ queue_repr h' q' l
    ∧ frame (a :: l) h h'
    ∧ same_payload h h'
    ∧ ∃ t, h' !! a = Some t ∧ older t = None ∧ newer t = None.
Proof.
  intros [Hd Hnd Hre Hie Hlen Hb]. simpl in *.
  destruct Hd as [(ta & Hta & Hoa & Hna) Hd].
  apply NoDup_cons in Hnd as [Ha Hnd].
  assert (Hdecr : uint_decr (GCTaskQueue.length q) = Z.of_nat (List.length l)).
  { rewrite Hlen. unfold uint_decr. rewrite Z.mod_small; lia. }
  unfold GCTaskQueue.remove. rewrite Hre. simpl.
  rewrite (load_Some _ _ _ Hta), bind_Ok, Hoa, ptr_eqb_refl. simpl.
  destruct l as [|b l]; simpl in Hna; rewrite Hna.
  - rewrite Hie. simpl. rewrite ptr_eqb_refl. simpl.
    rewrite (set_newer_Some _ _ _ _ Hta), bind_Ok.
    unfold load. rewrite lookup_insert_eq. simpl.
    rewrite Hoa, !ptr_eqb_refl. simpl.
    unfold GCTaskQueue.verify_length. simpl. rewrite Hdecr. simpl.
    eexists _, _. split; [done|]. split; [|split; [|split]].
    + by split.
    + apply frame_insert. by left.
    + by eapply same_payload_insert.
    + eexists. rewrite lookup_insert_eq. done.
  - simpl in Hd. destruct Hd as [(tb & Htb & Hob & Hnb) Hd].
    assert (a ≠ b) as Hab by (intros ->; apply Ha; by left).
    rewrite (set_older_Some _ _ _ _ Htb), !bind_Ok.
    erewrite set_newer_Some by (by rewrite lookup_insert_ne).
    rewrite bind_Ok. unfold load. rewrite lookup_insert_eq. simpl.
    rewrite Hoa, !ptr_eqb_refl. simpl.
    set (h' := <[a := _]> (<[b := _]> h)).
    set (q' := GCTaskQueue.decrement_length _).
    assert (Hrepr : queue_repr h' q' (b :: l)).
    { split; [| done | done | | done | lia].
      - apply (dseg_insert_ne _ None (b :: l) None); [done|].
        apply (dseg_set_older_first h (Some a) b l None None tb);
          [|by apply NoDup_cons in Hnd as []|done].
        simpl. eauto.
      - rewrite last_cons_cons in Hie. done. }
    erewrite verify_length_ok; [| apply Hrepr ..]. rewrite bind_Ok.
    exists h', q'. split; [done|]. split; [done|]. split; [|split].
    + apply (frame_trans _ _ (<[b := with_older tb None]> h)).
      * apply frame_insert. set_solver.
      * apply frame_insert. set_solver.
    + apply (same_payload_trans _ (<[b := with_older tb None]> h)).
      * by eapply same_payload_insert.
      * by apply (same_payload_insert _ a ta); [rewrite lookup_insert_ne|].
    + eexists. unfold h'. rewrite lookup_insert_eq. done.
Qed.

Lemma dequeue_spec (h : gmap positive GCTask) q a l :
  queue_repr h q (a :: l) →
  ∃ h' q', GCTaskQueue.dequeue h q = Ok (h', q', Some a)
    ∧ GCTaskQueue.remove h q = Ok (h', q', Some a)
    ∧ queue_repr h' q' l
    ∧ frame (a :: l) h h'
    ∧ same_payload h h'
    ∧ ∃ t, h' !! a = Some t ∧ older t = None ∧ newer t = None.
Proof.
  intros Hrepr. pose proof (repr_remove_end _ _ _ Hrepr) as Hre.
  destruct (remove_spec h q a l Hrepr) as (h' & q' & Hrm & Hrest).
  exists h', q'. split; [|by split].
  unfold GCTaskQueue.dequeue, GCTaskQueue.is_empty.
  rewrite Hre. simpl. rewrite Hrm. done.
Qed.

Lemma enqueue_spec (h : gmap positive GCTask) q l p t :
  queue_repr h q l → h !! p = Some t → older t = None → newer t = None →
  p ∉ l → Z.of_nat (List.length l) + 1 < uint_modulus →
  ∃ h' q', GCTaskQueue.enqueue (Some p) h q = Ok (h', q')
    ∧ queue_repr h' q' (l ++ [p])
    ∧ frame (l ++ [p]) h h'
    ∧ same_payload h h'.
Proof.
  intros [Hd Hnd Hre Hie Hlen Hb] Hp Ho Hn Hnotin Hroom.
  assert (Hincr : uint_incr (GCTaskQueue.length q)
                  = Z.of_nat (List.length (l ++ [p]))).
  { rewrite Hlen, length_app. unfold uint_incr. simpl.
    rewrite Z.mod_small; lia. }
  assert (Hnd' : NoDup (l ++ [p])).
  { apply NoDup_app. split; [done|]. split; [|apply NoDup_singleton].
    intros x Hx ->%list_elem_of_singleton. done. }
  unfold GCTaskQueue.enqueue.
  rewrite (load_Some _ _ _ Hp), bind_Ok, Ho, Hn, ptr_eqb_refl. simpl.
  rewrite (set_newer_Some _ _ _ _ Hp), bind_Ok.
  erewrite set_older_Some by apply lookup_insert_eq.
  rewrite bind_Ok, insert_insert_eq.
  set (tp := with_older (with_newer t None) (GCTaskQueue.insert_end q)).
  unfold GCTaskQueue.is_empty. rewrite Hre.
  destruct l as [|ie l _] using rev_ind.
  - simpl. rewrite ?ptr_eqb_refl, ?bind_Ok.
    set (q' := GCTaskQueue.increment_length _).
    assert (Hrepr : queue_repr (<[p := tp]> h) q' [p]).
    { split; try done.
      simpl. split; [|done]. exists tp. rewrite lookup_insert_eq.
      unfold tp. rewrite Hie. simpl. done. }
    erewrite verify_length_ok; [| apply Hrepr ..]. rewrite bind_Ok.
    eexists _, _. split; [done|]. split; [done|]. split.
    + apply frame_insert. set_solver.
    + by eapply same_payload_insert.
  - rewrite last_snoc in Hie. rewrite Hie.
    assert (Hne : ie ≠ p) by (intros ->; apply Hnotin; set_solver).
    assert (∃ x, head (l ++ [ie]) = Some x) as [x Hx]
      by (destruct l; simpl; eauto).
    rewrite Hx. simpl.
    pose proof Hd as (tie & Htie & _)%dseg_lookup.
    erewrite set_newer_Some by (by rewrite lookup_insert_ne).
    rewrite !bind_Ok.
    set (h' := <[ie := _]> (<[p := tp]> h)).
    set (q' := GCTaskQueue.increment_length _).
    assert (Hrepr : queue_repr h' q' ((l ++ [ie]) ++ [p])).
    { split; [| done | | by rewrite last_snoc | done | rewrite length_app; simpl; lia ].
      - apply dseg_app; split.
        + simpl. apply dseg_set_newer_last with (next := None).
          * apply dseg_insert_ne; [set_solver | done].
          * apply NoDup_app in Hnd as (_ & Hx' & _). intros ?.
            eapply Hx'; [done | set_solver].
          * by rewrite lookup_insert_ne.
        + rewrite last_or_snoc. simpl. split; [|done]. exists tp.
          unfold h'. rewrite lookup_insert_ne, lookup_insert_eq by done.
          unfold tp. rewrite Hie. done.
      - simpl. rewrite Hre, Hx. destruct l; done. }
    erewrite verify_length_ok; [| apply Hrepr ..]. rewrite bind_Ok.
    exists h', q'. split; [done|]. split; [done|]. split.
    + apply (frame_trans _ _ (<[p := tp]> h)); apply frame_insert; set_solver.
    + apply (same_payload_trans _ (<[p := tp]> h)).
      * by eapply same_payload_insert.
      * by apply (same_payload_insert _ ie tie); [rewrite lookup_insert_ne|].
Qed.

Lemma remove_task_spec (h : gmap positive GCTask) q l1 a l2 :
  queue_repr h q (l1 ++ a :: l2) →
  ∃ h' q', GCTaskQueue.remove_task (Some a) h q = Ok (h', q', Some a)
    ∧ queue_repr h' q' (l1 ++ l2)
    ∧ frame (l1 ++ a :: l2) h h'
    ∧ same_payload h h'
    ∧ ∃ t, h' !! a = Some t ∧ older t = None ∧ newer t = None.
Proof.
  intros [Hd Hnd Hre Hie Hlen Hb].
  pose proof Hd as (ta & Hta & Hoa & Hna)%dseg_lookup.
  rewrite last_or_None in Hoa. rewrite first_or_None in Hna.
  assert (Hdecr : uint_decr (GCTaskQueue.length q)
                  = Z.of_nat (List.length (l1 ++ l2))).
  { rewrite Hlen, !length_app. unfold uint_decr. simpl.
    rewrite length_app in Hb. simpl in Hb. rewrite Z.mod_small; lia. }
  assert (Hb' : Z.of_nat (List.length (l1 ++ l2)) < uint_modulus).
  { rewrite length_app in *. simpl in *. lia. }
  pose proof Hnd as Hnd0.
  apply NoDup_app in Hnd as (Hnd1 & Hdisj & Hnd2).
  apply NoDup_cons in Hnd2 as [Ha2 Hnd2].
  assert (Ha1 : a ∉ l1) by (intros Hin; eapply Hdisj; [done | set_solver]).
  assert (Hnd' : NoDup (l1 ++ l2)).
  { apply NoDup_app. split; [done|]. split; [|done].
    intros x Hx1 Hx2. eapply Hdisj; [done | set_solver]. }
  apply dseg_app in Hd as [Hd1 Hd2]. simpl in Hd1, Hd2.
  destruct Hd2 as [_ Hd2].
  unfold GCTaskQueue.remove_task.
  rewrite (load_Some _ _ _ Hta), bind_Ok.
  (* first branch: the newer neighbour, or the insert end *)
  assert (∃ h1 q1,
    match newer ta with
    | Some n => set_older n (older ta) h ≫= λ h0, Ok (h0, q)
    | None =>
        assert (ptr_eqb (GCTaskQueue.insert_end q) (Some a)) "not youngest"
        ≫= λ _, Ok (h, GCTaskQueue.set_insert_end q (older ta))
    end = Ok (h1, q1)
    ∧ h1 !! a = Some ta
    ∧ dseg h1 None l1 (Some a)
    ∧ dseg h1 (last l1) l2 None
    ∧ frame (l1 ++ a :: l2) h h1 ∧ same_payload h h1
    ∧ GCTaskQueue.insert_end q1 = last (l1 ++ l2)
    ∧ GCTaskQueue.remove_end q1 = GCTaskQueue.remove_end q
    ∧ GCTaskQueue.length q1 = GCTaskQueue.length q)
    as (h1 & q1 & -> & Hta1 & Hd1' & Hd2' & Hfr1 & Hpay1 & Hie1 & Hre1 & Hlen1).
  { rewrite Hna, Hoa. destruct l2 as [|n l2]; simpl.
    - rewrite Hie, last_snoc, ptr_eqb_refl. simpl.
      eexists _, _. split; [done|]. rewrite app_nil_r.
      repeat split; try done.
    - destruct Hd2 as [(tn & Htn & Hon & Hnn) Hd2].
      apply NoDup_cons in Hnd2 as [Hn2 Hnd2].
      rewrite (set_older_Some _ _ _ _ Htn), bind_Ok.
      assert (a ≠ n) by set_solver.
      eexists _, _. split; [done|].
      split; [by rewrite lookup_insert_ne|].
      split; [apply dseg_insert_ne; [|done]; intros Hin; eapply Hdisj; [done|set_solver]|].
      split; [apply (dseg_set_older_first h (Some a) n l2 _ None tn); simpl; eauto|].
      split; [apply frame_insert; set_solver|].
      split; [by eapply same_payload_insert|].
      split; [|done]. by rewrite Hie, !last_app, last_cons_cons. }
  simpl. rewrite (load_Some _ _ _ Hta1), bind_Ok.
  (* second branch: the older neighbour, or the remove end *)
  assert (∃ h2 q2,
    match older ta with
    | Some o => set_newer o (newer ta) h1 ≫= λ h0, Ok (h0, q1)
    | None =>
        assert (ptr_eqb (GCTaskQueue.remove_end q1) (Some a)) "not oldest"
        ≫= λ _, Ok (h1, GCTaskQueue.set_remove_end q1 (newer ta))
    end = Ok (h2, q2)
    ∧ h2 !! a = Some ta
    ∧ dseg h2 None (l1 ++ l2) None
    ∧ frame (l1 ++ a :: l2) h1 h2 ∧ same_payload h1 h2
    ∧ GCTaskQueue.insert_end q2 = last (l1 ++ l2)
    ∧ GCTaskQueue.remove_end q2 = head (l1 ++ l2)
    ∧ GCTaskQueue.length q2 = GCTaskQueue.length q)
    as (h2 & q2 & -> & Hta2 & Hd' & Hfr2 & Hpay2 & Hie2 & Hre2 & Hlen2).
  { rewrite Hna, Hoa. destruct l1 as [|o l1 _] using rev_ind; simpl.
    - rewrite Hre1, Hre. simpl. rewrite ptr_eqb_refl. simpl.
      eexists _, _. split; [done|]. repeat split; done.
    - rewrite last_snoc in *.
      pose proof Hd1' as (to & Hto & _)%dseg_lookup.
      rewrite (set_newer_Some _ _ _ _ Hto), bind_Ok.
      assert (a ≠ o) by set_solver.
      assert (o ∉ l1) by (by apply NoDup_app in Hnd1 as (_ & Hx & _); intros ?; eapply Hx; [done | set_solver]).
      eexists _, _. split; [done|].
      split; [by rewrite lookup_insert_ne|].
      split.
      { apply dseg_app. rewrite last_or_snoc, first_or_None. split.
        - by apply (dseg_set_newer_last h1 None l1 o to (head l2) (Some a)).
        - apply dseg_insert_ne; [|done]. intros Hin. apply (Hdisj o); set_solver. }
      split; [apply frame_insert; set_solver|].
      split; [by eapply same_payload_insert|].
      split; [done|]. split; [|done].
      rewrite Hre1, Hre. rewrite <- !app_assoc. by destruct l1. }
  simpl. rewrite (set_newer_Some _ _ _ _ Hta2), bind_Ok.
  erewrite set_older_Some by apply lookup_insert_eq.
  rewrite bind_Ok, insert_insert_eq.
  set (ta' := with_older (with_newer ta None) None).
  set (q' := GCTaskQueue.decrement_length q2).
  assert (Ha' : a ∉ l1 ++ l2) by set_solver.
  assert (Hrepr : queue_repr (<[a := ta']> h2) q' (l1 ++ l2)).
  { split; try done.
    - by apply dseg_insert_ne.
    - simpl. by rewrite Hlen2. }
  erewrite verify_length_ok; [| apply Hrepr ..]. rewrite bind_Ok.
  eexists _, _. split; [done|]. split; [done|]. split; [|split].
  - apply (frame_trans _ _ h1); [done|].
    apply (frame_trans _ _ h2); [done|]. apply frame_insert. set_solver.
  - apply (same_payload_trans _ h1); [done|].
    apply (same_payload_trans _ h2); [done|]. by eapply same_payload_insert.
  - exists ta'. by rewrite lookup_insert_eq.
Qed.


(** ** The affinity walk *)

Lemma affinity_walk_pass (h : gmap positive GCTask) q aff prev l1 l2 fuel :
  dseg h prev (l1 ++ l2) None → Forall (passed_over h aff) l1 →
  GCTaskQueue.affinity_walk (List.length l1 + fuel) aff
    (first_or None (l1 ++ l2)) h q
  = GCTaskQueue.affinity_walk fuel aff (first_or None l2) h q.
Proof.
  revert prev. induction l1 as [|a l1 IH]; intros prev Hd Hpass; [done|].
  apply Forall_cons in Hpass as [(t & Ht & Hbar & Haff) Hpass].
  simpl in Hd. destruct Hd as [(t' & Ht' & _ & Hn) Hd].
  assert (t' = t) as -> by congruence.
  simpl. rewrite (load_Some _ _ _ Ht), bind_Ok, Hbar.
  apply Z.eqb_neq in Haff as ->. rewrite Hn. by eapply IH.
Qed.

Lemma affinity_walk_end (h : gmap positive GCTask) q aff l fuel :
  dseg h None l None → Forall (passed_over h aff) l →
  (List.length l ≤ fuel)%nat →
  GCTaskQueue.affinity_walk fuel aff (head l) h q = Ok (h, q, None).
Proof.
  intros Hd Hpass Hfuel.
  pose proof (affinity_walk_pass h q aff None l [] (fuel - List.length l)) as E.
  rewrite app_nil_r, first_or_None in E.
  replace (List.length l + (fuel - List.length l))%nat with fuel in E by lia.
  rewrite E by done. simpl. by destruct (fuel - List.length l)%nat.
Qed.

Lemma affinity_walk_barrier (h : gmap positive GCTask) q aff l1 b l2 fuel :
  dseg h None (l1 ++ b :: l2) None → Forall (passed_over h aff) l1 →
  barrier_at h b → (List.length l1 < fuel)%nat →
  GCTaskQueue.affinity_walk fuel aff (head (l1 ++ b :: l2)) h q
  = Ok (h, q, None).
Proof.
  intros Hd Hpass (t & Ht & Hbar) Hfuel.
  replace fuel with (List.length l1 + S (fuel - S (List.length l1)))%nat by lia.
  rewrite <- first_or_None. erewrite affinity_walk_pass; [|done..].
  simpl. by rewrite (load_Some _ _ _ Ht), bind_Ok, Hbar.
Qed.

Lemma affinity_walk_match (h : gmap positive GCTask) q aff l1 a l2 fuel :
  dseg h None (l1 ++ a :: l2) None → Forall (passed_over h aff) l1 →
  match_at h aff a → (List.length l1 < fuel)%nat →
  GCTaskQueue.affinity_walk fuel aff (head (l1 ++ a :: l2)) h q
  = GCTaskQueue.remove_task (Some a) h q.
Proof.
  intros Hd Hpass (t & Ht & Hbar & Haff) Hfuel.
  replace fuel with (List.length l1 + S (fuel - S (List.length l1)))%nat by lia.
  rewrite <- first_or_None. erewrite affinity_walk_pass; [|done..].
  simpl. rewrite (load_Some _ _ _ Ht), bind_Ok, Hbar.
  by apply Z.eqb_eq in Haff as ->.
Qed.

(** Every queue falls under one of the three cases of the walk. *)
Lemma affinity_walk_cases (h : gmap positive GCTask) aff prev l next :
  dseg h prev l next →
  Forall (passed_over h aff) l
  ∨ ∃ l1 a l2, l = l1 ++ a :: l2 ∧ Forall (passed_over h aff) l1
      ∧ (barrier_at h a ∨ match_at h aff a).
Proof.
  revert prev. induction l as [|a l IH]; intros prev Hd; [by left|].
  simpl in Hd. destruct Hd as [(t & Ht & _ & _) Hd].
  destruct (is_barrier_task t) eqn:Hbar.
  { right. exists [], a, l. split; [done|]. split; [done|]. left. by exists t. }
  destruct (decide (affinity t = aff)) as [Haff|Haff].
  { right. exists [], a, l. split; [done|]. split; [done|]. right. by exists t. }
  assert (passed_over h aff a) by (by exists t).
  destruct (IH _ Hd) as [Hall | (l1 & x & l2 & -> & Hpass & Hx)].
  - left. by constructor.
  - right. exists (a :: l1), x, l2. split; [done|]. split; [by constructor|done].
Qed.

(** ** dequeue(affinity) *)

Lemma dequeue_affinity_fallback (h : gmap positive GCTask) q aff l :
  queue_repr h q l → l ≠ [] →
  GCTaskQueue.affinity_walk (S (size h)) aff (head l) h q = Ok (h, q, None) →
  GCTaskQueue.dequeue_affinity aff h q = GCTaskQueue.dequeue h q.
Proof.
  intros Hrepr Hne Hwalk. destruct l as [|a l]; [done|].
  destruct (dequeue_spec h q a l Hrepr) as (h' & q' & -> & Hrm & _).
  unfold GCTaskQueue.dequeue_affinity, GCTaskQueue.is_empty.
  rewrite (repr_remove_end _ _ _ Hrepr), Hwalk. simpl. done.
Qed.

Lemma dequeue_affinity_all_passed (h : gmap positive GCTask) q aff l :
  queue_repr h q l → l ≠ [] → Forall (passed_over h aff) l →
  GCTaskQueue.dequeue_affinity aff h q = GCTaskQueue.dequeue h q.
Proof.
  intros Hrepr Hne Hpass. apply (dequeue_affinity_fallback h q aff l); [done..|].
  destruct Hrepr as [Hd Hnd _ _ _ _]. apply affinity_walk_end; [done..|].
  pose proof (dseg_length_le_size _ _ _ _ Hd Hnd). lia.
Qed.

Lemma dequeue_affinity_barrier (h : gmap positive GCTask) q aff l1 b l2 :
  queue_repr h q (l1 ++ b :: l2) → Forall (passed_over h aff) l1 →
  barrier_at h b →
  GCTaskQueue.dequeue_affinity aff h q = GCTaskQueue.dequeue h q.
Proof.
  intros Hrepr Hpass Hbar.
  apply (dequeue_affinity_fallback h q aff (l1 ++ b :: l2)); [done| by destruct l1 |].
  destruct Hrepr as [Hd Hnd _ _ _ _]. apply affinity_walk_barrier; [done..|].
  pose proof (dseg_length_le_size _ _ _ _ Hd Hnd) as Hle.
  rewrite length_app in Hle. simpl in Hle. lia.
Qed.

Lemma dequeue_affinity_match (h : gmap positive GCTask) q aff l1 a l2 :
  queue_repr h q (l1 ++ a :: l2) → Forall (passed_over h aff) l1 →
  match_at h aff a →
  ∃ h' q', GCTaskQueue.dequeue_affinity aff h q = Ok (h', q', Some a)
    ∧ queue_repr h' q' (l1 ++ l2)
    ∧ frame (l1 ++ a :: l2) h h'
    ∧ same_payload h h'
    ∧ ∃ t, h' !! a = Some t ∧ older t = None ∧ newer t = None.
Proof.
  intros Hrepr Hpass Hmatch.
  destruct (remove_task_spec h q l1 a l2 Hrepr) as (h' & q' & Hrm & Hrest).
  exists h', q'. split; [|done].
  unfold GCTaskQueue.dequeue_affinity, GCTaskQueue.is_empty.
  rewrite (repr_remove_end _ _ _ Hrepr).
  destruct Hrepr as [Hd Hnd _ _ _ _].
  rewrite affinity_walk_match, Hrm; [by destruct l1 | done..|].
  pose proof (dseg_length_le_size _ _ _ _ Hd Hnd) as Hle.
  rewrite length_app in Hle. simpl in Hle. lia.
Qed.

(** ** enqueue(list) *)

Lemma enqueue_list_spec (h : gmap positive GCTask) q lst l1 l2 :
  queue_repr h q l1 → queue_repr h lst l2 → NoDup (l1 ++ l2) →
  Z.of_nat (List.length l1 + List.length l2) < uint_modulus →
  ∃ h' q' lst', GCTaskQueue.enqueue_list h q lst = Ok (h', q', lst')
    ∧ queue_repr h' q' (l1 ++ l2)
    ∧ queue_repr h' lst' []
    ∧ lst' = (if decide (l2 = []) then lst else GCTaskQueue.initialize)
    ∧ (l2 = [] → h' = h ∧ q' = q)
    ∧ frame (l1 ++ l2) h h'
    ∧ same_payload h h'.
Proof.
  intros Hq Hl Hnd Hroom.
  pose proof Hq as [Hd1 Hnd1 Hre1 Hie1 Hlen1 Hb1].
  pose proof Hl as [Hd2 Hnd2 Hre2 Hie2 Hlen2 Hb2].
  unfold GCTaskQueue.enqueue_list, GCTaskQueue.is_empty.
  rewrite Hre2. destruct l2 as [|c l2].
  { simpl. exists h, q, lst. rewrite app_nil_r. repeat split; done. }
  simpl. rewrite Hre1.
  assert (Hinit : ∀ h', queue_repr h' GCTaskQueue.initialize []).
  { intros h'. split; try done. apply NoDup_nil_2. }
  destruct l1 as [|ie l1 _] using rev_ind.
  - simpl.
    set (q' := GCTaskQueue.set_length _ _).
    assert (Hrepr : queue_repr h q' (c :: l2)) by (by split).
    erewrite verify_length_ok; [| apply Hrepr ..]. rewrite bind_Ok.
    exists h, q', GCTaskQueue.initialize. repeat split; try done; apply Hrepr.
  - assert (∃ x, head (l1 ++ [ie]) = Some x) as [x ->]
      by (destruct l1; simpl; eauto).
    simpl. rewrite Hie1, last_snoc.
    simpl in Hd2. destruct Hd2 as [(tc & Htc & Hoc & Hnc) Hd2].
    pose proof Hd1 as (tie & Htie & _)%dseg_lookup.
    assert (Hne : c ≠ ie).
    { intros ->. apply NoDup_app in Hnd as (_ & Hx & _).
      apply (Hx ie); set_solver. }
    rewrite (set_older_Some _ _ _ _ Htc), bind_Ok.
    erewrite set_newer_Some by (by rewrite lookup_insert_ne).
    rewrite !bind_Ok.
    set (h' := <[ie := _]> (<[c := _]> h)).
    set (q' := GCTaskQueue.set_length _ _).
    assert (Hrepr : queue_repr h' q' ((l1 ++ [ie]) ++ c :: l2)).
    { split; [| done | | | | rewrite !length_app in *; simpl in *; lia ].
      - apply dseg_app. rewrite last_or_snoc. split.
        + simpl. apply dseg_set_newer_last with (next := None).
          * apply dseg_insert_ne; [|done].
            intros Hin. apply NoDup_app in Hnd as (_ & Hx & _).
            apply (Hx c); set_solver.
          * apply NoDup_app in Hnd1 as (_ & Hx & _). intros ?.
            apply (Hx ie); set_solver.
          * by rewrite lookup_insert_ne.
        + apply dseg_insert_ne.
          * intros Hin. apply NoDup_app in Hnd as (_ & Hx & _).
            apply (Hx ie); set_solver.
          * apply (dseg_set_older_first h None c l2 (Some ie) None tc);
              [simpl; eauto | by apply NoDup_cons in Hnd2 as [] | done].
      - simpl. rewrite Hre1. rewrite <- app_assoc. by destruct l1.
      - simpl. rewrite Hie2, last_app. simpl.
        by destruct (last (c :: l2)) eqn:E; [|apply last_None in E].
      - simpl. rewrite Hlen1, Hlen2. unfold uint_add.
        rewrite Z.mod_small; rewrite !length_app in *; simpl in *; lia. }
    erewrite verify_length_ok; [| apply Hrepr ..]. rewrite bind_Ok.
    exists h', q', GCTaskQueue.initialize.
    split; [done|]. split; [done|]. split; [done|]. split; [done|].
    split; [done|]. split.
    + apply (frame_trans _ _ (<[c := with_older tc (Some ie)]> h));
        apply frame_insert; set_solver.
    + apply (same_payload_trans _ (<[c := with_older tc (Some ie)]> h)).
      * by eapply same_payload_insert.
      * by apply (same_payload_insert _ ie tie); [rewrite lookup_insert_ne|].
Qed.

(** ** Systems of queues *)

Lemma queue_repr_frame (h h' : gmap positive GCTask) q l touched :
  queue_repr h q l → frame touched h h' → (∀ a, a ∈ l → a ∉ touched) →
  queue_repr h' q l.
Proof.
  intros [Hd Hnd Hre Hie Hlen Hb] Hfr Hdisj. split; try done.
  eapply dseg_frame; [|done]. intros a Ha. apply Hfr. by apply Hdisj.
Qed.

Lemma concat_snd_app (old others : list (GCTaskQueue.t * list positive)) :
  concat ((old ++ others).*2) = concat (old.*2) ++ concat (others.*2).
Proof. by rewrite fmap_app, concat_app. Qed.

Lemma elem_of_concat (ls : list (list positive)) a :
  a ∈ concat ls ↔ ∃ l, l ∈ ls ∧ a ∈ l.
Proof.
  induction ls as [|l ls IH]; simpl.
  - split; [by intros ?%elem_of_nil | by intros (? & ?%elem_of_nil & _)].
  - rewrite elem_of_app, IH. split.
    + intros [Ha | (l' & Hl' & Ha)]; [exists l | exists l']; split;
        (done || by constructor).
    + intros (l' & [->|Hl']%elem_of_cons & Ha); [by left | right; eauto].
Qed.

Lemma elem_of_concat_snd (qls : list (GCTaskQueue.t * list positive)) ql a :
  ql ∈ qls → a ∈ ql.2 → a ∈ concat (qls.*2).
Proof.
  intros Hql Ha. apply elem_of_concat. exists ql.2. split; [|done].
  apply list_elem_of_fmap. by exists ql.
Qed.

Lemma queues_inv_update (h h' : gmap positive GCTask)
    (old new others : list (GCTaskQueue.t * list positive)) :
  queues_inv h (old ++ others) →
  Forall (λ ql, queue_repr h' ql.1 ql.2) new →
  frame (concat (old.*2) ++ concat (new.*2)) h h' →
  NoDup (concat (new.*2) ++ concat (others.*2)) →
  (∀ p t, p ∈ concat (old.*2) → p ∉ concat (new.*2) → h' !! p = Some t →
     older t = None ∧ newer t = None) →
  queues_inv h' (new ++ others).
Proof.
  intros (Hall & Hnd & Hdorm) Hnew Hfr Hnd' Hgone.
  rewrite concat_snd_app in Hnd, Hdorm.
  apply Forall_app in Hall as [_ Hothers].
  split; [|split].
  - apply Forall_app. split; [done|].
    apply Forall_forall. intros ql Hql.
    eapply queue_repr_frame; [by eapply Forall_forall in Hothers | done |].
    intros a Ha [Hin|Hin]%elem_of_app.
    + apply NoDup_app in Hnd as (_ & Hx & _). apply (Hx a Hin).
      by eapply elem_of_concat_snd.
    + apply NoDup_app in Hnd' as (_ & Hx & _). apply (Hx a Hin).
      by eapply elem_of_concat_snd.
  - by rewrite concat_snd_app.
  - rewrite concat_snd_app. intros p t Hp Hnotin.
    apply not_elem_of_app in Hnotin as [Hn1 Hn2].
    destruct (decide (p ∈ concat (old.*2))) as [Hin|Hout].
    + by eapply Hgone.
    + rewrite Hfr in Hp by (by apply not_elem_of_app).
      eapply Hdorm; [done|]. by apply not_elem_of_app.
Qed.

Lemma queues_inv_on_queue (h : gmap positive GCTask) qls ql p :
  queues_inv h qls → ql ∈ qls → on_queue h ql.1 p ↔ p ∈ ql.2.
Proof.
  intros (Hall & _) Hql. eapply Forall_forall in Hall; [|done].
  destruct Hall as [Hd _ _ Hie _ _]. unfold on_queue. rewrite Hie.
  by apply reaches_older_dseg with (next := None).
Qed.

Lemma queues_inv_system (h : gmap positive GCTask) qls :
  queues_inv h qls → system_invariant h (qls.*1).
Proof.
  intros Hinv. pose proof Hinv as (Hall & Hnd & Hdorm). split.
  - apply Forall_fmap. eapply Forall_impl; [done|].
    intros [q l] Hrepr. by eapply queue_repr_structural.
  - intros p t Hp Hnone. eapply Hdorm; [done|].
    intros (l & Hl & Hin)%elem_of_concat.
    apply list_elem_of_fmap in Hl as ([q l'] & -> & Hql).
    apply (Hnone q).
    + apply list_elem_of_fmap. by exists (q, l').
    + by apply (queues_inv_on_queue h qls (q, l')).
Qed.

(** * The claims *)

(** ** C5: the queue operations preserve the structural invariant *)

Lemma queues_inv_head (h : gmap positive GCTask) q l others :
  queues_inv h ((q, l) :: others) → queue_repr h q l.
Proof. intros (Hall & _). by apply Forall_cons in Hall as [? _]. Qed.

Lemma enqueue_preserves (h : gmap positive GCTask) q l others p :
  queues_inv h ((q, l) :: others) → is_Some (h !! p) →
  p ∉ l ++ concat (others.*2) →
  Z.of_nat (List.length l) + 1 < uint_modulus →
  ∃ h' q', GCTaskQueue.enqueue (Some p) h q = Ok (h', q')
    ∧ queues_inv h' ((q', l ++ [p]) :: others).
Proof.
  intros Hinv [t Ht] Hfree Hroom.
  pose proof (queues_inv_head _ _ _ _ Hinv) as Hrepr.
  pose proof Hinv as (_ & Hnd & Hdorm). simpl in Hnd, Hdorm.
  destruct (Hdorm p t Ht Hfree) as [Ho Hn].
  destruct (enqueue_spec h q l p t Hrepr Ht Ho Hn) as (h' & q' & Heq & Hrepr' & Hfr & _);
    [set_solver | done |].
  exists h', q'. split; [done|].
  apply (queues_inv_update h h' [(q, l)] [(q', l ++ [p])] others); simpl.
  - done.
  - by constructor.
  - rewrite !app_nil_r. eapply frame_mono; [|done]. set_solver.
  - rewrite app_nil_r, <- app_assoc. simpl.
    apply NoDup_app in Hnd as (Hnd1 & Hdisj & Hnd2).
    apply NoDup_app. split; [done|]. split.
    + intros x Hx [->|Hx']%elem_of_cons; [set_solver|]. by apply (Hdisj x).
    + apply NoDup_cons. split; [set_solver|done].
  - rewrite !app_nil_r. set_solver.
Qed.

Lemma enqueue_list_preserves (h : gmap positive GCTask) q l1 lst l2 rest :
  queues_inv h ((q, l1) :: (lst, l2) :: rest) →
  Z.of_nat (List.length l1 + List.length l2) < uint_modulus →
  ∃ h' q' lst', GCTaskQueue.enqueue_list h q lst = Ok (h', q', lst')
    ∧ queues_inv h' ((q', l1 ++ l2) :: (lst', []) :: rest).
Proof.
  intros Hinv Hroom. pose proof Hinv as (Hall & Hnd & Hdorm).
  apply Forall_cons in Hall as [Hq Hall]. apply Forall_cons in Hall as [Hl _].
  simpl in *. rewrite app_assoc in Hnd.
  destruct (enqueue_list_spec h q lst l1 l2 Hq Hl) as
    (h' & q' & lst' & Heq & Hq' & Hl' & _ & _ & Hfr & _);
    [by apply NoDup_app in Hnd as [? _] | done |].
  exists h', q', lst'. split; [done|].
  apply (queues_inv_update h h' [(q, l1); (lst, l2)]
           [(q', l1 ++ l2); (lst', [])] rest); simpl.
  - done.
  - apply Forall_cons; split; [done|].
    apply Forall_cons; split; [done|]. apply Forall_nil_2.
  - rewrite !app_nil_r. eapply frame_mono; [|done]. set_solver.
  - by rewrite !app_nil_r.
  - rewrite !app_nil_r. set_solver.
Qed.

Lemma dequeue_preserves (h : gmap positive GCTask) q a l others :
  queues_inv h ((q, a :: l) :: others) →
  ∃ h' q', GCTaskQueue.dequeue h q = Ok (h', q', Some a)
    ∧ queues_inv h' ((q', l) :: others).
Proof.
  intros Hinv. pose proof (queues_inv_head _ _ _ _ Hinv) as Hrepr.
  pose proof Hinv as (_ & Hnd & _). simpl in Hnd.
  destruct (dequeue_spec h q a l Hrepr) as
    (h' & q' & Heq & _ & Hrepr' & Hfr & _ & t & Ht & Ho & Hn).
  exists h', q'. split; [done|].
  apply (queues_inv_update h h' [(q, a :: l)] [(q', l)] others); simpl.
  - done.
  - by constructor.
  - rewrite !app_nil_r. eapply frame_mono; [|done]. set_solver.
  - rewrite app_nil_r. by apply NoDup_cons in Hnd as [_ ?].
  - rewrite !app_nil_r. intros p t' [->|?]%elem_of_cons; [|done].
    intros _ ?. by simplify_eq.
Qed.

Lemma dequeue_affinity_preserves (h : gmap positive GCTask) q l others aff :
  queues_inv h ((q, l) :: others) → l ≠ [] →
  ∃ h' q' l1 a l2, l = l1 ++ a :: l2
    ∧ GCTaskQueue.dequeue_affinity aff h q = Ok (h', q', Some a)
    ∧ queues_inv h' ((q', l1 ++ l2) :: others).
Proof.
  intros Hinv Hne. pose proof (queues_inv_head _ _ _ _ Hinv) as Hrepr.
  pose proof Hinv as (_ & Hnd & _). simpl in Hnd.
  assert (Hplain : GCTaskQueue.dequeue_affinity aff h q = GCTaskQueue.dequeue h q →
    ∃ h' q' l1 a l2, l = l1 ++ a :: l2
      ∧ GCTaskQueue.dequeue_affinity aff h q = Ok (h', q', Some a)
      ∧ queues_inv h' ((q', l1 ++ l2) :: others)).
  { intros ->. destruct l as [|a l]; [done|].
    destruct (dequeue_preserves h q a l others Hinv) as (h' & q' & ? & ?).
    by exists h', q', [], a, l. }
  destruct (affinity_walk_cases h aff None l None (repr_chain _ _ _ Hrepr))
    as [Hall | (l1 & a & l2 & -> & Hpass & [Hbar | Hmatch])].
  - apply Hplain. by eapply dequeue_affinity_all_passed.
  - apply Hplain. by eapply dequeue_affinity_barrier.
  - destruct (dequeue_affinity_match h q aff l1 a l2 Hrepr Hpass Hmatch) as
      (h' & q' & Heq & Hrepr' & Hfr & _ & t & Ht & Ho & Hn).
    exists h', q', l1, a, l2. split; [done|]. split; [done|].
    apply (queues_inv_update h h' [(q, l1 ++ a :: l2)] [(q', l1 ++ l2)] others);
      simpl.
    + done.
    + by constructor.
    + rewrite !app_nil_r. eapply frame_mono; [|done]. set_solver.
    + rewrite app_nil_r. rewrite <- !app_assoc in *. simpl in Hnd.
      apply NoDup_app in Hnd as (Hnd1 & Hdisj & Hnd2).
      apply NoDup_cons in Hnd2 as [Ha Hnd2].
      apply NoDup_app. split; [done|]. split; [|done].
      intros x Hx Hx'. apply (Hdisj x Hx). by right.
    + rewrite !app_nil_r. intros p t' Hp Hp' Ht'.
      assert (p = a) as -> by set_solver. by simplify_eq.
Qed.

Lemma singleton_queue_repr (h : gmap positive GCTask) p t :
  h !! p = Some t → older t = None → newer t = None →
  queue_repr h (singleton_queue p) [p].
Proof.
  intros Hp Ho Hn. split; try done.
  - simpl. split; [by exists t|done].
  - apply NoDup_singleton.
Qed.

Lemma two_singletons_inv :
  queues_inv two_singletons
    [(singleton_queue 2, [2%positive]); (singleton_queue 1, [1%positive])].
Proof.
  split; [|split].
  - repeat apply Forall_cons_2; [..|apply Forall_nil_2];
      by eapply singleton_queue_repr.
  - simpl. repeat (apply NoDup_cons_2; [set_solver|]). apply NoDup_nil_2.
  - intros p t Hp Hnotin. unfold two_singletons in Hp.
    repeat (apply lookup_insert_Some in Hp as [[<- <-]|[_ Hp]]; [done|]).
    by rewrite lookup_empty in Hp.
Qed.

Lemma enqueue_only_task_of_other_queue (h : gmap positive GCTask) q l others
    qb p :
  queues_inv h ((q, l) :: others) → (qb, [p]) ∈ others → l ≠ [] →
  Z.of_nat (List.length l) + 1 < uint_modulus →
  ∃ h' q', GCTaskQueue.enqueue (Some p) h q = Ok (h', q')
    ∧ ¬ system_invariant h' (q' :: others.*1).
Proof.
  intros Hinv Hqb Hne Hroom.
  pose proof (queues_inv_head _ _ _ _ Hinv) as Hrepr.
  pose proof Hinv as (Hall & Hnd & _). simpl in Hnd.
  apply Forall_cons in Hall as [_ Hall].
  assert (Hb : queue_repr h qb [p])
    by exact (proj1 (Forall_forall _ _) Hall _ Hqb).
  pose proof Hb as [Hd _ Hre _ _ _]. simpl in Hd, Hre.
  destruct Hd as [(t & Hp & Ho & Hn) _]. simpl in Hn.
  assert (Hpl : p ∉ l).
  { apply NoDup_app in Hnd as (_ & Hx & _). intros Hin.
    apply (Hx p Hin). apply (elem_of_concat_snd others (qb, [p])); [done|].
    simpl. set_solver. }
  destruct (enqueue_spec h q l p t Hrepr Hp Ho Hn Hpl Hroom)
    as (h' & q' & Henq & Hrepr' & _).
  exists h', q'. split; [done|]. intros [Hsys _].
  apply Forall_cons in Hsys as [_ Hsys].
  assert (Hsb : structural_invariant h' qb).
  { apply (proj1 (Forall_forall _ _) Hsys).
    apply list_elem_of_fmap. by exists (qb, [p]). }
  destruct (inv_remove_end_older _ _ Hsb p Hre) as (t1 & Ht1 & Ho1).
  destruct (dseg_lookup h' None l p [] None) as (t2 & Ht2 & Ho2 & _);
    [apply Hrepr'|].
  assert (t2 = t1) as -> by congruence.
  rewrite Ho1 in Ho2. unfold last_or in Ho2.
  apply last_is_Some in Hne as [x Hx]. by rewrite Hx in Ho2.
Qed.

(** C5, as stated, fails: an [enqueue] that passes every assertion can
    break the invariant.  Tasks 1 and 2 are each the only task of a
    queue, so both have null link fields and the state satisfies the
    invariant (no task is on two queues, even).  The queue holding task 2
    enqueues task 1: the assertions of [enqueue] hold, the call returns,
    and afterwards the remove end of the other queue, task 1, has an
    older task. *)
Lemma enqueue_of_queued_task_breaks_invariant :
  queues_inv two_singletons
    [(singleton_queue 2, [2%positive]); (singleton_queue 1, [1%positive])]
  ∧ system_invariant two_singletons [singleton_queue 2; singleton_queue 1]
  ∧ ∃ h' q',
      GCTaskQueue.enqueue (Some 1%positive) two_singletons (singleton_queue 2)
      = Ok (h', q')
      ∧ ¬ system_invariant h' [q'; singleton_queue 1].
Proof.
  split; [apply two_singletons_inv|].
  split; [apply (queues_inv_system _ _ two_singletons_inv)|].
  do 2 eexists. split; [vm_compute; reflexivity|].
  intros [Hall _].
  apply Forall_cons in Hall as [_ Hall]. apply Forall_cons in Hall as [HB _].
  destruct (inv_remove_end_older _ _ HB 1%positive eq_refl) as (t & Ht & Ho).
  vm_compute in Ht. injection Ht as <-. discriminate.
Qed.

(** C5 (amended).  The invariant that the queue operations keep is that
    of a system of queues sharing the heap: the tasks of each queue form
    one chain from the remove end to the insert end, [length] long, no
    task is on two queues, and every task on no queue has both link
    fields null ([queues_inv], with the contents of each queue made
    explicit).  It yields the invariant in the specification's own
    words, [system_invariant]: for every queue, (length = 0) iff
    insert_end = null iff remove_end = null, remove_end.older = null,
    insert_end.newer = null, neighbouring nodes point at each other,
    length is the number of nodes reachable from insert_end along older;
    and every task on no queue has both link fields null.  From a state
    that satisfies it, enqueue of a task that is on no queue, enqueue of
    another queue of the system, dequeue and affinity dequeue from a
    non-empty queue all succeed and lead to a state that satisfies it
    again (the lengths staying in the range of uint).  The assertions of
    [enqueue] do not ask for as much: a task that is the only task of
    another queue has null link fields, its enqueue on a non-empty queue
    returns, and the invariant in the specification's words is
    broken. *)
Theorem queue_operations_preserve_invariant
    (h : gmap positive GCTask) (q : GCTaskQueue.t) (l : list positive)
    (others : list (GCTaskQueue.t * list positive)) :
  queues_inv h ((q, l) :: others) →
  system_invariant h (q :: others.*1)
  ∧ (∀ p, is_Some (h !! p) → p ∉ l ++ concat (others.*2) →
       Z.of_nat (List.length l) + 1 < uint_modulus →
       ∃ h' q', GCTaskQueue.enqueue (Some p) h q = Ok (h', q')
         ∧ queues_inv h' ((q', l ++ [p]) :: others)
         ∧ system_invariant h' (q' :: others.*1))
  ∧ (∀ lst l2 rest, others = (lst, l2) :: rest →
       Z.of_nat (List.length l + List.length l2) < uint_modulus →
       ∃ h' q' lst', GCTaskQueue.enqueue_list h q lst = Ok (h', q', lst')
         ∧ queues_inv h' ((q', l ++ l2) :: (lst', []) :: rest)
         ∧ system_invariant h' (q' :: lst' :: rest.*1))
  ∧ (l ≠ [] →
       ∃ h' q' a l', l = a :: l'
         ∧ GCTaskQueue.dequeue h q = Ok (h', q', Some a)
         ∧ queues_inv h' ((q', l') :: others)
         ∧ system_invariant h' (q' :: others.*1))
  ∧ (∀ aff, l ≠ [] →
       ∃ h' q' l1 a l2, l = l1 ++ a :: l2
         ∧ GCTaskQueue.dequeue_affinity aff h q = Ok (h', q', Some a)
         ∧ queues_inv h' ((q', l1 ++ l2) :: others)
         ∧ system_invariant h' (q' :: others.*1))
  ∧ (∀ qb p, (qb, [p]) ∈ others → l ≠ [] →
       Z.of_nat (List.length l) + 1 < uint_modulus →
       ∃ h' q', GCTaskQueue.enqueue (Some p) h q = Ok (h', q')
         ∧ ¬ system_invariant h' (q' :: others.*1)).
Proof.
  intros Hinv. split; [|split; [|split; [|split; [|split]]]];
    [..|intros qb p; by apply enqueue_only_task_of_other_queue].
  - by apply (queues_inv_system h ((q, l) :: others)).
  - intros p Hp Hfree Hroom.
    destruct (enqueue_preserves h q l others p) as (h' & q' & ? & Hinv');
      [done..|].
    exists h', q'. split; [done|]. split; [done|].
    by apply (queues_inv_system h' ((q', l ++ [p]) :: others)).
  - intros lst l2 rest -> Hroom.
    destruct (enqueue_list_preserves h q l lst l2 rest) as
      (h' & q' & lst' & ? & Hinv'); [done..|].
    exists h', q', lst'. split; [done|]. split; [done|].
    by apply (queues_inv_system h' ((q', l ++ l2) :: (lst', []) :: rest)).
  - intros Hne. destruct l as [|a l']; [done|].
    destruct (dequeue_preserves h q a l' others) as (h' & q' & ? & Hinv');
      [done|].
    exists h', q', a, l'. split; [done|]. split; [done|]. split; [done|].
    by apply (queues_inv_system h' ((q', l') :: others)).
  - intros aff Hne.
    destruct (dequeue_affinity_preserves h q l others aff) as
      (h' & q' & l1 & a & l2 & ? & ? & Hinv'); [done..|].
    exists h', q', l1, a, l2. split; [done|]. split; [done|]. split; [done|].
    by apply (queues_inv_system h' ((q', l1 ++ l2) :: others)).
Qed.

(** ** C3: the affinity walk of dequeue(affinity) *)

Lemma dequeue_oldest (h : gmap positive GCTask) q l :
  queue_repr h q l → l ≠ [] →
  ∃ h' q' a l', l = a :: l'
    ∧ GCTaskQueue.dequeue h q = Ok (h', q', Some a)
    ∧ queue_repr h' q' l'.
Proof.
  intros Hrepr Hne. destruct l as [|a l']; [done|].
  destruct (dequeue_spec h q a l' Hrepr) as (h' & q' & ? & _ & ? & _).
  by exists h', q', a, l'.
Qed.

(** C3.  On a non-empty queue holding [l] (oldest first),
    [dequeue(affinity)] walks from the remove end: the tasks it passes
    over are those that are neither barriers nor of the wanted affinity.
    (i) If the first task not passed over is a barrier, the search is
    given up and the call is a plain dequeue: it removes the oldest task.
    (ii) If it is a task of the wanted affinity, that task is unlinked and
    returned, the others keep their order.  (iii) If every task is passed
    over, the call is again a plain dequeue.  One of the three cases always
    applies. *)
Theorem dequeue_affinity_walk (h : gmap positive GCTask) (q : GCTaskQueue.t)
    (l : list positive) (aff : Z) :
  queue_repr h q l → l ≠ [] →
  (∀ l1 b l2, l = l1 ++ b :: l2 → Forall (passed_over h aff) l1 →
     barrier_at h b →
     GCTaskQueue.dequeue_affinity aff h q = GCTaskQueue.dequeue h q
     ∧ ∃ h' q' a l', l = a :: l'
         ∧ GCTaskQueue.dequeue_affinity aff h q = Ok (h', q', Some a)
         ∧ queue_repr h' q' l')
  ∧ (∀ l1 a l2, l = l1 ++ a :: l2 → Forall (passed_over h aff) l1 →
     match_at h aff a →
     ∃ h' q', GCTaskQueue.dequeue_affinity aff h q = Ok (h', q', Some a)
       ∧ queue_repr h' q' (l1 ++ l2)
       ∧ ∃ t, h' !! a = Some t ∧ older t = None ∧ newer t = None)
  ∧ (Forall (passed_over h aff) l →
     GCTaskQueue.dequeue_affinity aff h q = GCTaskQueue.dequeue h q
     ∧ ∃ h' q' a l', l = a :: l'
         ∧ GCTaskQueue.dequeue_affinity aff h q = Ok (h', q', Some a)
         ∧ queue_repr h' q' l')
  ∧ (Forall (passed_over h aff) l
     ∨ ∃ l1 a l2, l = l1 ++ a :: l2 ∧ Forall (passed_over h aff) l1
         ∧ (barrier_at h a ∨ match_at h aff a)).
Proof.
  intros Hrepr Hne. split; [|split; [|split]].
  - intros l1 b l2 -> Hpass Hbar.
    assert (Heq : GCTaskQueue.dequeue_affinity aff h q = GCTaskQueue.dequeue h q)
      by (by eapply dequeue_affinity_barrier).
    split; [done|]. rewrite Heq. by apply dequeue_oldest.
  - intros l1 a l2 -> Hpass Hmatch.
    destruct (dequeue_affinity_match h q aff l1 a l2 Hrepr Hpass Hmatch) as
      (h' & q' & ? & ? & _ & _ & ?).
    by exists h', q'.
  - intros Hpass.
    assert (Heq : GCTaskQueue.dequeue_affinity aff h q = GCTaskQueue.dequeue h q)
      by (by eapply dequeue_affinity_all_passed).
    split; [done|]. rewrite Heq. by apply dequeue_oldest.
  - apply (affinity_walk_cases h aff None l None). apply Hrepr.
Qed.

(** The scenario of the specification: from the queue [T_a=2, T_b=1,
    T_c=2] worker 2 gets [T_a], then [T_c]. *)
Example dequeue_affinity_scenario :
  ∃ h q h1 q1 h2 q2,
    enqueue_all [1; 2; 3]%positive scenario_tasks GCTaskQueue.initialize
      = Ok (h, q)
    ∧ GCTaskQueue.dequeue_affinity 2 h q = Ok (h1, q1, Some 1%positive)
    ∧ GCTaskQueue.dequeue_affinity 2 h1 q1 = Ok (h2, q2, Some 3%positive)
    ∧ returned (GCTaskQueue.dequeue_affinity 2 h2 q2) = Some 2%positive.
Proof.
  do 6 eexists.
  split; [vm_compute; reflexivity|].
  split; [vm_compute; reflexivity|].
  split; [vm_compute; reflexivity|].
  vm_compute; reflexivity.
Qed.

(** ** C4: a barrier at the remove end *)

(** C4, as stated, fails.  With [B] = 1 the barrier, [T_x] = 2 of affinity
    [x] = 5 and [T_y] = 3 of affinity [y] = 6: if [B, T_x, T_y] is read
    oldest first (as every other example of the specification is),
    [dequeue(x)] returns [B]; if it is read newest first (so that [T_y] is
    the oldest, as the claim says), the walk meets [T_x] before the barrier
    and returns [T_x].  Neither returns [T_y]. *)
Lemma barrier_first_returns_barrier_not_Ty :
  (∃ h q, enqueue_all [1; 2; 3]%positive (three_tasks 5 6)
            GCTaskQueue.initialize = Ok (h, q)
     ∧ returned (GCTaskQueue.dequeue_affinity 5 h q) = Some 1%positive
     ∧ returned (GCTaskQueue.dequeue_affinity 5 h q) ≠ Some 3%positive)
  ∧ (∃ h q, enqueue_all [3; 2; 1]%positive (three_tasks 5 6)
              GCTaskQueue.initialize = Ok (h, q)
       ∧ returned (GCTaskQueue.dequeue_affinity 5 h q) = Some 2%positive
       ∧ returned (GCTaskQueue.dequeue_affinity 5 h q) ≠ Some 3%positive).
Proof.
  split; do 2 eexists.
  - split; [vm_compute; reflexivity|].
    split; [vm_compute; reflexivity|]. vm_compute. discriminate.
  - split; [vm_compute; reflexivity|].
    split; [vm_compute; reflexivity|]. vm_compute. discriminate.
Qed.

(** C4, amended.  On the queue [B, T_x, T_y] (oldest first) with [B] a
    barrier task, [dequeue(x)] returns [B], the oldest task, whatever the
    affinities: the barrier stops the walk at once.  [T_y] is returned
    when it is the oldest and the barrier stands between it and [T_x]: on
    [T_y, B, T_x] with [T_y] no barrier and of affinity other than [x]. *)
Theorem barrier_stops_affinity_walk (h : gmap positive GCTask)
    (q : GCTaskQueue.t) (b tx ty : positive) (x : Z) :
  barrier_at h b →
  (queue_repr h q [b; tx; ty] →
     ∃ h' q', GCTaskQueue.dequeue_affinity x h q = Ok (h', q', Some b)
       ∧ queue_repr h' q' [tx; ty])
  ∧ (queue_repr h q [ty; b; tx] → passed_over h x ty →
     ∃ h' q', GCTaskQueue.dequeue_affinity x h q = Ok (h', q', Some ty)
       ∧ queue_repr h' q' [b; tx]).
Proof.
  intros Hbar. split.
  - intros Hrepr.
    rewrite (dequeue_affinity_barrier h q x [] b [tx; ty]) by done.
    destruct (dequeue_spec h q b [tx; ty] Hrepr) as (h' & q' & ? & _ & ? & _).
    by exists h', q'.
  - intros Hrepr Hpass.
    rewrite (dequeue_affinity_barrier h q x [ty] b [tx]);
      [|done|by constructor|done].
    destruct (dequeue_spec h q ty [b; tx] Hrepr) as (h' & q' & ? & _ & ? & _).
    by exists h', q'.
Qed.

(** ** C6: enqueue(list) concatenates in FIFO order *)

Lemma drain_spec (h : gmap positive GCTask) q l :
  queue_repr h q l →
  ∃ h' q', drain (List.length l) h q = Ok (h', q', Some <$> l)
    ∧ queue_repr h' q' [] ∧ same_payload h h'.
Proof.
  revert h q. induction l as [|a l IH]; intros h q Hrepr.
  - exists h, q. by split.
  - destruct (dequeue_spec h q a l Hrepr) as
      (h1 & q1 & Hdq & _ & Hrepr1 & _ & Hpay1 & _).
    destruct (IH h1 q1 Hrepr1) as (h' & q' & Hdr & Hrepr' & Hpay').
    exists h', q'. simpl. rewrite Hdq, bind_Ok. simpl. rewrite Hdr.
    split; [done|]. split; [done|]. by eapply same_payload_trans.
Qed.

Lemma queue_repr_nil_inv (h : gmap positive GCTask) q :
  queue_repr h q [] → q = GCTaskQueue.initialize.
Proof. intros [_ _ Hre Hie Hlen _]. destruct q. simpl in *. by subst. Qed.

(** C6.  Enqueueing a list of [k] tasks on a queue of [m] tasks (two
    different queues, [m + k] within the range of uint) gives a queue
    of [m + k] tasks and leaves the argument list empty; dequeueing
    [m + k] times then hands out the [m] tasks of the queue, oldest first,
    followed by the [k] tasks of the list, oldest first.  If the list is
    empty, the heap and both queues are unchanged. *)
Theorem enqueue_list_fifo (h : gmap positive GCTask)
    (q lst : GCTaskQueue.t) (l1 l2 : list positive) :
  queue_repr h q l1 → queue_repr h lst l2 → NoDup (l1 ++ l2) →
  Z.of_nat (List.length l1 + List.length l2) < uint_modulus →
  ∃ h' q' lst',
    GCTaskQueue.enqueue_list h q lst = Ok (h', q', lst')
    ∧ queue_repr h' q' (l1 ++ l2)
    ∧ GCTaskQueue.length q' = Z.of_nat (List.length l1 + List.length l2)
    ∧ queue_repr h' lst' []
    ∧ lst' = GCTaskQueue.initialize
    ∧ GCTaskQueue.is_empty lst' = true
    ∧ (∃ h'' q'',
         drain (List.length l1 + List.length l2) h' q'
           = Ok (h'', q'', Some <$> (l1 ++ l2))
         ∧ q'' = GCTaskQueue.initialize)
    ∧ (l2 = [] → h' = h ∧ q' = q ∧ lst' = lst).
Proof.
  intros Hq Hl Hnd Hroom.
  destruct (enqueue_list_spec h q lst l1 l2 Hq Hl Hnd Hroom) as
    (h' & q' & lst' & Heq & Hq' & Hl' & Hlst' & Hnil & _ & _).
  exists h', q', lst'. split; [done|]. split; [done|].
  split; [by rewrite (repr_length _ _ _ Hq'), length_app|].
  split; [done|]. split; [by eapply queue_repr_nil_inv|].
  split; [by rewrite (queue_repr_nil_inv _ _ Hl')|]. split.
  - destruct (drain_spec h' q' (l1 ++ l2) Hq') as (h'' & q'' & Hdr & Hq'' & _).
    rewrite length_app in Hdr. exists h'', q''. split; [done|].
    by eapply queue_repr_nil_inv.
  - intros ->. destruct (Hnil eq_refl) as [-> ->]. by rewrite Hlst'.
Qed.

(** ** C7: enqueue then dequeue on an empty queue *)

Lemma GCTask_links_eta (t : GCTask) :
  older t = None → newer t = None →
  with_newer (with_older (with_newer t None) None) None = t.
Proof. destruct t. simpl. by intros -> ->. Qed.

(** C7.  For a task [T] with null link fields, [enqueue(T)] followed by
    [dequeue()] on an empty queue returns [T]; the heap is as before, so
    [T] is unchanged with both link fields null, and the queue is empty
    again. *)
Theorem enqueue_dequeue_roundtrip (h : gmap positive GCTask)
    (q : GCTaskQueue.t) (p : positive) (t : GCTask) :
  queue_repr h q [] → h !! p = Some t → older t = None → newer t = None →
  ∃ h1 q1,
    GCTaskQueue.enqueue (Some p) h q = Ok (h1, q1)
    ∧ queue_repr h1 q1 [p]
    ∧ GCTaskQueue.dequeue h1 q1 = Ok (h, q, Some p)
    ∧ q = GCTaskQueue.initialize
    ∧ GCTaskQueue.is_empty q = true.
Proof.
  intros Hq Hp Ho Hn.
  pose proof (queue_repr_nil_inv _ _ Hq) as ->.
  unfold GCTaskQueue.enqueue.
  rewrite (load_Some _ _ _ Hp), bind_Ok, Ho, Hn. simpl.
  rewrite (set_newer_Some _ _ _ _ Hp), bind_Ok.
  erewrite set_older_Some by apply lookup_insert_eq.
  rewrite bind_Ok, insert_insert_eq. simpl.
  set (tp := with_older (with_newer t None) None).
  set (h1 := <[p := tp]> h).
  set (q1 := GCTaskQueue.increment_length _).
  assert (Hrepr : queue_repr h1 q1 [p]).
  { split; try done.
    - simpl. split; [|done]. exists tp. unfold h1. by rewrite lookup_insert_eq.
    - apply NoDup_singleton. }
  erewrite verify_length_ok; [| apply Hrepr ..]. rewrite bind_Ok.
  exists h1, q1. split; [done|]. split; [done|]. split; [|done].
  assert (Hp1 : h1 !! p = Some tp) by apply lookup_insert_eq.
  unfold GCTaskQueue.dequeue, GCTaskQueue.remove. simpl.
  assert (Hotp : older tp = None) by done.
  assert (Hntp : newer tp = None) by done.
  rewrite (load_Some _ _ _ Hp1), bind_Ok, Hotp, Hntp. simpl.
  rewrite ptr_eqb_refl. simpl.
  rewrite (set_newer_Some _ _ _ _ Hp1), bind_Ok.
  unfold h1, tp. rewrite insert_insert_eq.
  rewrite (GCTask_links_eta t Ho Hn), (insert_id h p t Hp).
  rewrite (load_Some _ _ _ Hp), bind_Ok, Ho, Hn. simpl.
  unfold GCTaskQueue.verify_length. simpl. done.
Qed.

(** ** C10: affinity dequeue without a matching task *)

Lemma same_payload_affinity (h h' : gmap positive GCTask) a t' :
  same_payload h h' → h' !! a = Some t' →
  ∃ t, h !! a = Some t ∧ affinity t = affinity t'.
Proof.
  intros Hpay Ht'. specialize (Hpay a). rewrite Ht' in Hpay.
  destruct (h !! a) as [t|]; [|done]. exists t. split; [done|].
  simpl in Hpay. unfold payload in Hpay. by simplify_eq.
Qed.

Lemma no_affinity_dequeue_eq (h : gmap positive GCTask) q l w :
  queue_repr h q l → l ≠ [] → no_affinity h l w →
  GCTaskQueue.dequeue_affinity w h q = GCTaskQueue.dequeue h q.
Proof.
  intros Hrepr Hne Hno.
  destruct (affinity_walk_cases h w None l None (repr_chain _ _ _ Hrepr))
    as [Hall | (l1 & a & l2 & -> & Hpass & [Hbar | (t & Ht & _ & Haff)])].
  - by eapply dequeue_affinity_all_passed.
  - by eapply dequeue_affinity_barrier.
  - exfalso. apply (Hno a t); [set_solver | done..].
Qed.

Lemma no_affinity_drain_eq (h : gmap positive GCTask) q l w :
  queue_repr h q l → no_affinity h l w →
  drain_affinity w (List.length l) h q = drain (List.length l) h q.
Proof.
  revert h q. induction l as [|a l IH]; intros h q Hrepr Hno; [done|].
  simpl. rewrite (no_affinity_dequeue_eq h q (a :: l) w) by done.
  destruct (dequeue_spec h q a l Hrepr) as
    (h1 & q1 & -> & _ & Hrepr1 & _ & Hpay & _).
  rewrite !bind_Ok. simpl. rewrite (IH h1 q1); [done..|].
  intros b t' Hb Ht'.
  destruct (same_payload_affinity h h1 b t' Hpay Ht') as (t & Ht & <-).
  apply (Hno b t); [by right | done].
Qed.

Lemma default_no_affinity (h : gmap positive GCTask) l w :
  default_affinity h l → w ≠ sentinel_worker → no_affinity h l w.
Proof.
  intros Hdef Hw a t Ha Ht. rewrite (Hdef a t Ha Ht). simpl. congruence.
Qed.

(** C10.  On a non-empty queue no task of which has affinity [w],
    [dequeue(w)] is [dequeue()]: the same task (the oldest) is returned
    and the same state is left; so draining the queue with [dequeue(w)]
    hands out the tasks in FIFO order.  This is the case of a queue of
    tasks that keep the affinity [GCTask::initialize] gave them, the
    sentinel worker, when [w] is another (a real) worker index. *)
Theorem dequeue_affinity_without_match (h : gmap positive GCTask)
    (q : GCTaskQueue.t) (l : list positive) (w : Z) :
  queue_repr h q l → l ≠ [] →
  (no_affinity h l w ∨ (default_affinity h l ∧ w ≠ sentinel_worker)) →
  GCTaskQueue.dequeue_affinity w h q = GCTaskQueue.dequeue h q
  ∧ (∃ h' q' a l', l = a :: l'
       ∧ GCTaskQueue.dequeue_affinity w h q = Ok (h', q', Some a)
       ∧ queue_repr h' q' l')
  ∧ drain_affinity w (List.length l) h q = drain (List.length l) h q
  ∧ ∃ h' q', drain_affinity w (List.length l) h q = Ok (h', q', Some <$> l)
       ∧ q' = GCTaskQueue.initialize.
Proof.
  intros Hrepr Hne Hcase.
  assert (Hno : no_affinity h l w).
  { destruct Hcase as [?|[? ?]]; [done|]. by apply default_no_affinity. }
  pose proof (no_affinity_dequeue_eq h q l w Hrepr Hne Hno) as Heq.
  pose proof (no_affinity_drain_eq h q l w Hrepr Hno) as Hdr.
  split; [done|]. split; [rewrite Heq; by apply dequeue_oldest|].
  split; [done|]. rewrite Hdr.
  destruct (drain_spec h q l Hrepr) as (h' & q' & ? & Hq' & _).
  exists h', q'. split; [done|]. by eapply queue_repr_nil_inv.
Qed.

(** ** C2: note_completion *)

Lemma worker_index_not_sentinel (workers which : Z) :
  is_uint workers → 0 <= which < workers → which ≠ sentinel_worker.
Proof. unfold is_uint, sentinel_worker. lia. Qed.

(** C2.  For a worker index [which] and a manager with a busy worker,
    [note_completion(which)] returns, and the manager it leaves differs
    from the one it found in this only: if [blocking_worker] was [which],
    [barriers] is incremented and [blocking_worker] is the sentinel;
    [completed_tasks] is incremented; [busy_workers] is decremented;
    [emptied_queue] is incremented exactly when the decremented
    [busy_workers] is 0 and the queue is empty.  (The counters are uint:
    an increment wraps at 2^32.) *)
Theorem note_completion_exact (which : Z) (m : GCTaskManager.t) :
  is_uint (GCTaskManager.workers m) →
  0 <= which < GCTaskManager.workers m →
  is_uint (GCTaskManager.busy_workers m) →
  0 < GCTaskManager.busy_workers m →
  GCTaskManager.note_completion which m =
  Ok (GCTaskManager.mk
        (GCTaskManager.workers m)
        (GCTaskManager.created_workers m)
        (GCTaskManager.active_workers m)
        (GCTaskManager.idle_workers m)
        (GCTaskManager.busy_workers m - 1)
        (if GCTaskManager.blocking_worker m =? which then sentinel_worker
         else GCTaskManager.blocking_worker m)
        (GCTaskManager.resource_flag m)
        (GCTaskManager.delivered_tasks m)
        (uint_incr (GCTaskManager.completed_tasks m))
        (if GCTaskManager.blocking_worker m =? which
         then uint_incr (GCTaskManager.barriers m)
         else GCTaskManager.barriers m)
        (if (GCTaskManager.busy_workers m - 1 =? 0)
            && GCTaskQueue.is_empty (GCTaskManager.queue m)
         then uint_incr (GCTaskManager.emptied_queue m)
         else GCTaskManager.emptied_queue m)
        (GCTaskManager.noop_task m)
        (GCTaskManager.queue m)
        false).
Proof.
  intros Hw Hwhich Hbusy Hpos.
  pose proof (worker_index_not_sentinel _ _ Hw Hwhich) as Hns.
  assert (Hdecr : uint_decr (GCTaskManager.busy_workers m)
                  = GCTaskManager.busy_workers m - 1).
  { unfold uint_decr. apply Z.mod_small. unfold is_uint in Hbusy. lia. }
  unfold GCTaskManager.note_completion,
    GCTaskManager.decrement_busy_workers. simpl.
  destruct (GCTaskManager.blocking_worker m =? which) eqn:Hbw; simpl.
  - apply Z.eqb_eq in Hbw. rewrite Hbw.
    apply Z.eqb_neq in Hns as ->. simpl.
    apply Z.ltb_lt in Hpos as ->. simpl. rewrite Hdecr.
    by destruct ((_ =? 0) && _).
  - apply Z.ltb_lt in Hpos as ->. simpl. rewrite Hdecr.
    by destruct ((_ =? 0) && _).
Qed.

(** ** C8: failures are assertions *)

Lemma bind_Ok_inv {A B} (m : outcome A) (f : A → outcome B) b :
  m ≫= f = Ok b → ∃ a, m = Ok a ∧ f a = Ok b.
Proof. destruct m; try done. intros ?. by eexists. Qed.

Ltac inv_bind H :=
  let a := fresh "a" in
  let E := fresh "E" in
  apply bind_Ok_inv in H as (a & E & H);
  repeat match goal with x : (_ * _)%type |- _ => destruct x end;
  simpl in H.


Lemma remove_task_returns_task (h : gmap positive GCTask) task q h' q' r :
  GCTaskQueue.remove_task task h q = Ok (h', q', r) → r ≠ None.
Proof.
  unfold GCTaskQueue.remove_task. destruct task; [|done].
  intros H. repeat inv_bind H. by simplify_eq.
Qed.








(** ** C9: the resource flags *)

Lemma set_resource_flags_twice m f1 f2 :
  GCTaskManager.set_resource_flags (GCTaskManager.set_resource_flags m f1) f2
  = GCTaskManager.set_resource_flags m f2.
Proof. done. Qed.

Lemma set_resource_flags_same m :
  GCTaskManager.set_resource_flags m (GCTaskManager.resource_flag m) = m.
Proof. by destruct m. Qed.

Lemma set_resource_flag_ok m which value :
  0 <= which < GCTaskManager.workers m →
  (Z.to_nat which < List.length (GCTaskManager.resource_flag m))%nat →
  GCTaskManager.set_resource_flag m which value
  = Ok (GCTaskManager.set_resource_flags m
          (<[Z.to_nat which := value]> (GCTaskManager.resource_flag m))).
Proof.
  intros Hw Hlen. unfold GCTaskManager.set_resource_flag.
  destruct (Z.ltb_spec which (GCTaskManager.workers m)); [|lia]. simpl.
  by rewrite decide_True.
Qed.

Lemma release_from_spec rounds k m :
  GCTaskManager.created_workers m = Z.of_nat (k + rounds) →
  GCTaskManager.created_workers m <= GCTaskManager.workers m →
  is_uint (GCTaskManager.workers m) →
  (k + rounds ≤ List.length (GCTaskManager.resource_flag m))%nat →
  ∃ flags,
    GCTaskManager.release_from rounds (Z.of_nat k) m
    = Ok (GCTaskManager.set_resource_flags m flags)
    ∧ List.length flags = List.length (GCTaskManager.resource_flag m)
    ∧ ∀ j, flags !! j =
        if decide (k ≤ j < k + rounds)%nat then Some true
        else GCTaskManager.resource_flag m !! j.
Proof.
  revert k m. induction rounds as [|rounds IH]; intros k m Hc Hcw Hw Hlen.
  - exists (GCTaskManager.resource_flag m). simpl.
    destruct (Z.ltb_spec (Z.of_nat k) (GCTaskManager.created_workers m)); [lia|].
    rewrite set_resource_flags_same. split; [done|]. split; [done|].
    intros j. rewrite decide_False; [done|lia].
  - simpl.
    destruct (Z.ltb_spec (Z.of_nat k) (GCTaskManager.created_workers m)); [|lia].
    rewrite set_resource_flag_ok; [| lia | rewrite Nat2Z.id; lia].
    rewrite bind_Ok, Nat2Z.id.
    assert (uint_incr (Z.of_nat k) = Z.of_nat (S k)) as ->.
    { unfold uint_incr. unfold is_uint in Hw. rewrite Z.mod_small; lia. }
    set (m1 := GCTaskManager.set_resource_flags m _).
    destruct (IH (S k) m1) as (flags & -> & Hlen' & Hflags).
    + simpl. lia.
    + done.
    + done.
    + simpl. rewrite length_insert. lia.
    + exists flags. unfold m1. rewrite set_resource_flags_twice.
      split; [done|]. split.
      * rewrite Hlen'. simpl. by rewrite length_insert.
      * intros j. rewrite Hflags. simpl.
        destruct (decide (j = k)) as [->|Hjk].
        -- rewrite decide_False by lia. rewrite decide_True by lia.
           apply list_lookup_insert_eq. lia.
        -- rewrite list_lookup_insert_ne by done.
           repeat case_decide; (done || lia).
Qed.

(** C9, as stated, fails: [release_all_resources()] stops at
    [created_workers()].  With two workers of which one is created, the
    flag of worker index 1 stays false. *)
Lemma release_all_resources_skips_uncreated :
  GCTaskManager.release_all_resources two_workers_one_created
  = Ok (GCTaskManager.set_resource_flags two_workers_one_created
          [true; false])
  ∧ ¬ (∀ i m', 0 <= i < GCTaskManager.workers two_workers_one_created →
         GCTaskManager.release_all_resources two_workers_one_created = Ok m' →
         GCTaskManager.resource_flag m' !! Z.to_nat i = Some true).
Proof.
  split; [reflexivity|]. intros Hall.
  specialize (Hall 1 _ ltac:(simpl; lia) eq_refl). discriminate.
Qed.

(** C9, amended.  [release_all_resources()] sets [resource_flag[i]] for
    every index [i] below [created_workers()], leaves the slots of the
    workers not yet created as they are, and changes nothing else; a
    second call changes nothing at all.  [note_release(which)] clears
    [resource_flag[which]] and leaves every other slot, and everything
    else, unchanged. *)
Theorem release_all_resources_created (m : GCTaskManager.t) :
  is_uint (GCTaskManager.workers m) →
  0 <= GCTaskManager.created_workers m <= GCTaskManager.workers m →
  List.length (GCTaskManager.resource_flag m)
    = Z.to_nat (GCTaskManager.workers m) →
  ∃ m',
    GCTaskManager.release_all_resources m = Ok m'
    ∧ m' = GCTaskManager.set_resource_flags m (GCTaskManager.resource_flag m')
    ∧ (∀ i, 0 <= i < GCTaskManager.created_workers m →
         GCTaskManager.resource_flag m' !! Z.to_nat i = Some true)
    ∧ (∀ i, GCTaskManager.created_workers m <= i →
         GCTaskManager.resource_flag m' !! Z.to_nat i
         = GCTaskManager.resource_flag m !! Z.to_nat i)
    ∧ GCTaskManager.release_all_resources m' = Ok m'
    ∧ ∀ which, 0 <= which < GCTaskManager.workers m →
        ∃ m'',
          GCTaskManager.note_release m which = Ok m''
          ∧ m'' = GCTaskManager.set_resource_flags m
                    (GCTaskManager.resource_flag m'')
          ∧ GCTaskManager.resource_flag m'' !! Z.to_nat which = Some false
          ∧ ∀ j, j ≠ Z.to_nat which →
              GCTaskManager.resource_flag m'' !! j
              = GCTaskManager.resource_flag m !! j.
Proof.
  intros Hw Hc Hlen.
  set (n := Z.to_nat (GCTaskManager.created_workers m)).
  destruct (release_from_spec n 0 m) as (flags & Hrel & Hlen' & Hflags);
    [unfold n; lia | lia | done | unfold n; lia |].
  set (m' := GCTaskManager.set_resource_flags m flags).
  exists m'. split; [done|]. split; [done|]. split; [|split; [|split]].
  - intros i Hi. simpl. rewrite Hflags. rewrite decide_True; [done|].
    unfold n. lia.
  - intros i Hi. simpl. rewrite Hflags. rewrite decide_False; [done|].
    unfold n. lia.
  - destruct (release_from_spec n 0 m') as (flags' & Hrel' & Hlen'' & Hflags');
      [unfold n; simpl; lia | simpl; lia | done | unfold n; simpl; lia |].
    unfold GCTaskManager.release_all_resources.
    change (GCTaskManager.created_workers m') with
      (GCTaskManager.created_workers m). fold n.
    change (0 : Z) with (Z.of_nat 0). rewrite Hrel'. f_equal.
    unfold m'. rewrite set_resource_flags_twice. f_equal.
    apply list_eq. intros j. rewrite Hflags'. simpl.
    case_decide; [|done]. rewrite Hflags. by rewrite decide_True.
  - intros which Hwhich. eexists. unfold GCTaskManager.note_release.
    rewrite set_resource_flag_ok by lia. split; [done|]. simpl.
    split; [done|]. split.
    + apply list_lookup_insert_eq. lia.
    + intros j Hj. by apply list_lookup_insert_ne.
Qed.

(** ** C1: get_task *)


Lemma must_wait_spec which m flag :
  0 <= which < GCTaskManager.workers m →
  GCTaskManager.resource_flag m !! Z.to_nat which = Some flag →
  GCTaskManager.must_wait which m
  = Ok (GCTaskManager.is_blocked m
        || (GCTaskQueue.is_empty (GCTaskManager.queue m) && negb flag)).
Proof.
  intros Hwhich Hflag. unfold GCTaskManager.must_wait.
  destruct (GCTaskManager.is_blocked m); [done|]. simpl.
  destruct (GCTaskQueue.is_empty _); [|done]. simpl.
  unfold GCTaskManager.should_release_resources, GCTaskManager.resource_flag_at.
  destruct (Z.ltb_spec which (GCTaskManager.workers m)); [|lia].
  simpl. by rewrite Hflag.
Qed.

Lemma queue_repr_is_empty (h : gmap positive GCTask) q l :
  queue_repr h q l → GCTaskQueue.is_empty q = bool_decide (l = []).
Proof.
  intros Hrepr. unfold GCTaskQueue.is_empty.
  rewrite (repr_remove_end _ _ _ Hrepr). by destruct l.
Qed.


(** * The theorems at a concrete state *)

Lemma chain_heap_lookup_inv p t :
  chain_heap !! p = Some t →
  p ∈ [1; 2; 3]%positive
  ∨ (p = 4%positive ∧ t = GCTask_initialize Kind.ordinary_task 0)
  ∨ (p = 5%positive ∧ t = GCTask_initialize Kind.noop_task 0).
Proof.
  unfold chain_heap. intros Hp.
  repeat (apply lookup_insert_Some in Hp as [[<- <-]|[_ Hp]];
          [set_solver|]).
  by rewrite lookup_empty in Hp.
Qed.

Lemma chain_queue_repr : queue_repr chain_heap chain_queue [1; 2; 3]%positive.
Proof.
  split.
  - simpl. repeat split; eexists; (split; [vm_compute; reflexivity|done]).
  - repeat (apply NoDup_cons_2; [set_solver|]). apply NoDup_nil_2.
  - done.
  - done.
  - done.
  - done.
Qed.

Lemma empty_queue_repr (h : gmap positive GCTask) :
  queue_repr h GCTaskQueue.initialize [].
Proof. split; try done. apply NoDup_nil_2. Qed.

Lemma chain_queues_inv :
  queues_inv chain_heap
    [(chain_queue, [1; 2; 3]%positive); (GCTaskQueue.initialize, [])].
Proof.
  split; [|split].
  - apply Forall_cons. split; [apply chain_queue_repr|].
    apply Forall_cons. split; [apply empty_queue_repr|]. apply Forall_nil_2.
  - simpl. apply chain_queue_repr.
  - simpl. intros p t Hp Hnotin.
    apply chain_heap_lookup_inv in Hp as [Hp|[[_ ->]|[_ ->]]]; done.
Qed.

Lemma is_uint_small (z : Z) : 0 <= z < 1000 → is_uint z.
Proof. unfold is_uint, uint_modulus. lia. Qed.

Lemma barrier_first_repr :
  queue_repr barrier_first_heap chain_queue [1; 2; 3]%positive.
Proof.
  split; try done.
  - simpl. repeat split; eexists; (split; [vm_compute; reflexivity|done]).
  - repeat (apply NoDup_cons_2; [set_solver|]). apply NoDup_nil_2.
Qed.

Lemma single_queue_repr : queue_repr chain_heap single_queue [4%positive].
Proof.
  split; try done.
  - simpl. repeat split; eexists; (split; [vm_compute; reflexivity|done]).
  - apply NoDup_singleton.
Qed.

Lemma chain_no_affinity_0 : no_affinity chain_heap [1; 2; 3]%positive 0.
Proof.
  intros a t Ha Ht. unfold chain_heap in Ht.
  repeat (apply lookup_insert_Some in Ht as [[<- <-]|[_ Ht]]; [done|]).
  by rewrite lookup_empty in Ht.
Qed.


(** C2 at the concrete state. *)
Lemma note_completion_exact_witness :
  is_uint (GCTaskManager.workers chain_manager)
  ∧ 0 <= 1 < GCTaskManager.workers chain_manager
  ∧ is_uint (GCTaskManager.busy_workers chain_manager)
  ∧ 0 < GCTaskManager.busy_workers chain_manager
  ∧ ∃ m', GCTaskManager.note_completion 1 chain_manager = Ok m'
      ∧ GCTaskManager.busy_workers m' = 0
      ∧ GCTaskManager.completed_tasks m' = 1
      ∧ GCTaskManager.emptied_queue m' = 0.
Proof.
  assert (H1 : is_uint (GCTaskManager.workers chain_manager))
    by (apply is_uint_small; simpl; lia).
  assert (H2 : 0 <= 1 < GCTaskManager.workers chain_manager)
    by (simpl; lia).
  assert (H3 : is_uint (GCTaskManager.busy_workers chain_manager))
    by (apply is_uint_small; simpl; lia).
  assert (H4 : 0 < GCTaskManager.busy_workers chain_manager)
    by (simpl; lia).
  repeat apply conj; try done.
  eexists. split; [apply (note_completion_exact 1 chain_manager H1 H2 H3 H4)|].
  done.
Defined.

(** C3 at the concrete state: the walk for affinity 1 passes over task 1
    and takes task 2. *)
Lemma dequeue_affinity_walk_witness :
  queue_repr chain_heap chain_queue [1; 2; 3]%positive
  ∧ [1; 2; 3]%positive ≠ []
  ∧ ∃ h' q', GCTaskQueue.dequeue_affinity 1 chain_heap chain_queue
             = Ok (h', q', Some 2%positive)
      ∧ queue_repr h' q' [1; 3]%positive.
Proof.
  split; [apply chain_queue_repr|]. split; [done|].
  destruct (dequeue_affinity_walk chain_heap chain_queue [1; 2; 3]%positive 1
              chain_queue_repr ltac:(done)) as (_ & Hmatch & _).
  destruct (Hmatch [1%positive] 2%positive [3%positive] eq_refl)
    as (h' & q' & ? & ? & _).
  - apply Forall_cons. split; [|apply Forall_nil_2].
    eexists. split; [vm_compute; reflexivity|done].
  - eexists. split; [vm_compute; reflexivity|done].
  - by exists h', q'.
Defined.

(** C4 (amended) at the concrete queue [B, T_x, T_y]. *)
Lemma barrier_stops_affinity_walk_witness :
  barrier_at barrier_first_heap 1%positive
  ∧ queue_repr barrier_first_heap chain_queue [1; 2; 3]%positive
  ∧ ∃ h' q', GCTaskQueue.dequeue_affinity 5 barrier_first_heap chain_queue
             = Ok (h', q', Some 1%positive)
      ∧ queue_repr h' q' [2; 3]%positive.
Proof.
  assert (Hbar : barrier_at barrier_first_heap 1%positive)
    by (eexists; split; [vm_compute; reflexivity|done]).
  split; [done|]. split; [apply barrier_first_repr|].
  destruct (barrier_stops_affinity_walk barrier_first_heap chain_queue
              1%positive 2%positive 3%positive 5 Hbar) as [Hfirst _].
  apply Hfirst, barrier_first_repr.
Defined.

(** C5 at the concrete state: task 4 is enqueued. *)
Lemma queue_operations_preserve_invariant_witness :
  queues_inv chain_heap
    [(chain_queue, [1; 2; 3]%positive); (GCTaskQueue.initialize, [])]
  ∧ ∃ h' q',
      GCTaskQueue.enqueue (Some 4%positive) chain_heap chain_queue
      = Ok (h', q')
      ∧ system_invariant h' [q'; GCTaskQueue.initialize].
Proof.
  split; [apply chain_queues_inv|].
  destruct (queue_operations_preserve_invariant chain_heap chain_queue
              [1; 2; 3]%positive [(GCTaskQueue.initialize, [])]
              chain_queues_inv) as (_ & Henq & _).
  destruct (Henq 4%positive) as (h' & q' & ? & _ & ?).
  - eexists. vm_compute. reflexivity.
  - simpl. set_solver.
  - simpl. unfold uint_modulus. lia.
  - by exists h', q'.
Defined.

(** C6 at the concrete state: the one-task queue is appended. *)
Lemma enqueue_list_fifo_witness :
  queue_repr chain_heap chain_queue [1; 2; 3]%positive
  ∧ queue_repr chain_heap single_queue [4%positive]
  ∧ NoDup ([1; 2; 3]%positive ++ [4%positive])
  ∧ Z.of_nat (List.length [1; 2; 3]%positive + List.length [4%positive])
    < uint_modulus
  ∧ ∃ h' q' lst' h'' q'',
      GCTaskQueue.enqueue_list chain_heap chain_queue single_queue
      = Ok (h', q', lst')
      ∧ drain 4 h' q'
        = Ok (h'', q'', [Some 1; Some 2; Some 3; Some 4]%positive).
Proof.
  assert (Hnd : NoDup ([1; 2; 3]%positive ++ [4%positive])).
  { simpl. repeat (apply NoDup_cons_2; [set_solver|]). apply NoDup_nil_2. }
  assert (Hroom : Z.of_nat (List.length [1; 2; 3]%positive
                            + List.length [4%positive]) < uint_modulus)
    by (simpl; unfold uint_modulus; lia).
  split; [apply chain_queue_repr|]. split; [apply single_queue_repr|].
  split; [done|]. split; [done|].
  destruct (enqueue_list_fifo chain_heap chain_queue single_queue
              [1; 2; 3]%positive [4%positive]
              chain_queue_repr single_queue_repr Hnd Hroom)
    as (h' & q' & lst' & ? & _ & _ & _ & _ & _ & (h'' & q'' & ? & _) & _).
  by exists h', q', lst', h'', q''.
Defined.

(** C7 at the concrete state, with task 4. *)
Lemma enqueue_dequeue_roundtrip_witness :
  queue_repr chain_heap GCTaskQueue.initialize []
  ∧ chain_heap !! 4%positive = Some (GCTask_initialize Kind.ordinary_task 0)
  ∧ older (GCTask_initialize Kind.ordinary_task 0) = None
  ∧ newer (GCTask_initialize Kind.ordinary_task 0) = None
  ∧ ∃ h1 q1,
      GCTaskQueue.enqueue (Some 4%positive) chain_heap GCTaskQueue.initialize
      = Ok (h1, q1)
      ∧ GCTaskQueue.dequeue h1 q1
        = Ok (chain_heap, GCTaskQueue.initialize, Some 4%positive).
Proof.
  split; [apply empty_queue_repr|]. repeat apply conj; try done.
  destruct (enqueue_dequeue_roundtrip chain_heap GCTaskQueue.initialize
              4%positive (GCTask_initialize Kind.ordinary_task 0)
              (empty_queue_repr _) eq_refl eq_refl eq_refl)
    as (h1 & q1 & ? & _ & ? & _).
  by exists h1, q1.
Defined.


(** C9 (amended) at the manager with one of two workers created. *)
Lemma release_all_resources_created_witness :
  is_uint (GCTaskManager.workers two_workers_one_created)
  ∧ 0 <= GCTaskManager.created_workers two_workers_one_created
      <= GCTaskManager.workers two_workers_one_created
  ∧ List.length (GCTaskManager.resource_flag two_workers_one_created)
    = Z.to_nat (GCTaskManager.workers two_workers_one_created)
  ∧ ∃ m',
      GCTaskManager.release_all_resources two_workers_one_created = Ok m'
      ∧ GCTaskManager.release_all_resources m' = Ok m'.
Proof.
  assert (H1 : is_uint (GCTaskManager.workers two_workers_one_created))
    by (apply is_uint_small; simpl; lia).
  assert (H2 : 0 <= GCTaskManager.created_workers two_workers_one_created
               <= GCTaskManager.workers two_workers_one_created)
    by (simpl; lia).
  repeat apply conj; try done.
  destruct (release_all_resources_created two_workers_one_created
              H1 H2 eq_refl) as (m' & ? & _ & _ & _ & ? & _).
  by exists m'.
Defined.

(** C10 at the concrete state: no task has affinity 0. *)
Lemma dequeue_affinity_without_match_witness :
  queue_repr chain_heap chain_queue [1; 2; 3]%positive
  ∧ [1; 2; 3]%positive ≠ []
  ∧ (no_affinity chain_heap [1; 2; 3]%positive 0
     ∨ (default_affinity chain_heap [1; 2; 3]%positive
        ∧ 0 ≠ sentinel_worker))
  ∧ GCTaskQueue.dequeue_affinity 0 chain_heap chain_queue
    = GCTaskQueue.dequeue chain_heap chain_queue.
Proof.
  split; [apply chain_queue_repr|]. split; [done|].
  split; [left; apply chain_no_affinity_0|].
  apply (dequeue_affinity_without_match chain_heap chain_queue
           [1; 2; 3]%positive 0 chain_queue_repr ltac:(done)
           (or_introl chain_no_affinity_0)).
Defined.

(** * Further properties of the queue *)

Lemma GCTask_eq (t t' : GCTask) :
  payload t' = payload t → older t' = older t → newer t' = newer t → t' = t.
Proof.
  destruct t, t'. unfold payload. simpl. intros [= -> -> ->] -> ->. done.
Qed.

(** A heap that differs from another one only in the link fields of the
    tasks of [l], which are the same again, is that heap. *)
Lemma heap_restored (h h' : gmap positive GCTask) l :
  same_payload h h' → frame l h h' →
  (∀ a t t', a ∈ l → h !! a = Some t → h' !! a = Some t' →
     older t' = older t ∧ newer t' = newer t) →
  h' = h.
Proof.
  intros Hpay Hfr Hlinks. apply map_eq. intros p.
  destruct (decide (p ∈ l)) as [Hin|Hout]; [|by apply Hfr].
  specialize (Hpay p).
  destruct (h !! p) as [t|] eqn:Ht, (h' !! p) as [t'|] eqn:Ht';
    simpl in Hpay; try done.
  destruct (Hlinks p t t' Hin Ht Ht') as [Ho Hn].
  f_equal. apply GCTask_eq; [congruence|done..].
Qed.

Lemma same_payload_lookup (h h' : gmap positive GCTask) a t :
  same_payload h h' → h !! a = Some t →
  ∃ t', h' !! a = Some t' ∧ payload t' = payload t.
Proof.
  intros Hpay Ht. specialize (Hpay a). rewrite Ht in Hpay.
  destruct (h' !! a) as [t'|]; [|done]. exists t'. split; [done|].
  simpl in Hpay. congruence.
Qed.

Lemma dequeue_either_full (h : gmap positive GCTask) q l
    (use_affinity : bool) w :
  queue_repr h q l → l ≠ [] →
  ∃ h' q' l1 a l2 t, l = l1 ++ a :: l2
    ∧ (if use_affinity then GCTaskQueue.dequeue_affinity w h q
       else GCTaskQueue.dequeue h q) = Ok (h', q', Some a)
    ∧ queue_repr h' q' (l1 ++ l2)
    ∧ h' !! a = Some t ∧ older t = None ∧ newer t = None
    ∧ frame l h h' ∧ same_payload h h'
    ∧ Forall (passed_over h w) l1
    ∧ (l1 ≠ [] → use_affinity = true ∧ match_at h w a).
Proof.
  intros Hrepr Hne.
  assert (Hplain : ∃ h' q' l1 a l2 t, l = l1 ++ a :: l2
    ∧ GCTaskQueue.dequeue h q = Ok (h', q', Some a)
    ∧ queue_repr h' q' (l1 ++ l2)
    ∧ h' !! a = Some t ∧ older t = None ∧ newer t = None
    ∧ frame l h h' ∧ same_payload h h'
    ∧ Forall (passed_over h w) l1
    ∧ (l1 ≠ [] → use_affinity = true ∧ match_at h w a)).
  { destruct l as [|a l]; [done|].
    destruct (dequeue_spec h q a l Hrepr) as
      (h' & q' & ? & _ & ? & ? & ? & t & ? & ? & ?).
    exists h', q', [], a, l, t.
    do 8 (split; [done|]). split; [apply Forall_nil_2|done]. }
  destruct use_affinity; [|done].
  destruct (affinity_walk_cases h w None l None (repr_chain _ _ _ Hrepr))
    as [Hall | (l1 & a & l2 & -> & Hpass & [Hbar | Hmatch])].
  - by rewrite (dequeue_affinity_all_passed h q w l).
  - by rewrite (dequeue_affinity_barrier h q w l1 a l2).
  - destruct (dequeue_affinity_match h q w l1 a l2 Hrepr Hpass Hmatch) as
      (h' & q' & ? & ? & ? & ? & t & ? & ? & ?).
    exists h', q', l1, a, l2, t. do 9 (split; [done|]). done.
Qed.

Lemma GCTask_destruct_null (h : gmap positive GCTask) a t :
  h !! a = Some t → older t = None → newer t = None →
  GCTask_destruct h a = Ok tt.
Proof.
  intros Ht Ho Hn. unfold GCTask_destruct.
  by rewrite (load_Some _ _ _ Ht), bind_Ok, Ho, Hn.
Qed.

(** X1.  The task that [dequeue()] or [dequeue(affinity)] hands out from
    a non-empty queue is off the queue for [GCTask::destruct()] as well:
    both its assertions hold in the heap the dequeue leaves. *)
Theorem dequeued_task_destructs (h : gmap positive GCTask)
    (q : GCTaskQueue.t) (l : list positive) (use_affinity : bool) (w : Z) :
  queue_repr h q l → l ≠ [] →
  ∃ h' q' a,
    (if use_affinity then GCTaskQueue.dequeue_affinity w h q
     else GCTaskQueue.dequeue h q) = Ok (h', q', Some a)
    ∧ a ∈ l
    ∧ GCTask_destruct h' a = Ok tt.
Proof.
  intros Hrepr Hne.
  destruct (dequeue_either_full h q l use_affinity w Hrepr Hne) as
    (h' & q' & l1 & a & l2 & t & -> & Hdq & _ & Ht & Ho & Hn & _).
  exists h', q', a. split; [done|]. split; [set_solver|].
  by eapply GCTask_destruct_null.
Qed.

(** X2.  [GCTask::destruct()] of a task that is on a queue passes its
    assertions exactly when the task is alone on the queue: with a
    neighbour, the older or the newer link is set and the assertion
    aborts; the only task of a queue has null links like a task on no
    queue, and the check cannot tell them apart. *)
Theorem destruct_on_queue (h : gmap positive GCTask)
    (q : GCTaskQueue.t) (l : list positive) (a : positive) :
  queue_repr h q l → a ∈ l →
  (GCTask_destruct h a = Ok tt ↔ l = [a])
  ∧ (l ≠ [a] →
     GCTask_destruct h a = AssertFail "shouldn't have an older task"
     ∨ GCTask_destruct h a = AssertFail "shouldn't have a newer task").
Proof.
  intros Hrepr Ha. apply list_elem_of_split in Ha as (l1 & l2 & ->).
  pose proof (repr_chain _ _ _ Hrepr) as (t & Ht & Ho & Hn)%dseg_lookup.
  rewrite last_or_None in Ho. rewrite first_or_None in Hn.
  unfold GCTask_destruct. rewrite (load_Some _ _ _ Ht), bind_Ok, Ho, Hn.
  destruct l1 as [|o l1 _] using rev_ind.
  - destruct l2 as [|n l2]; simpl.
    + split; [done|]. by intros [].
    + split; [split; [done|intros [=]]|]. intros _. by right.
  - rewrite last_snoc. simpl. split; [|intros _; by left].
    split; [done|]. intros Heq. apply (f_equal List.length) in Heq.
    rewrite !length_app in Heq. simpl in Heq. lia.
Qed.

Lemma enqueue_all_spec (h : gmap positive GCTask) q l ps :
  queue_repr h q l → NoDup (l ++ ps) →
  (∀ p, p ∈ ps → ∃ t, h !! p = Some t ∧ older t = None ∧ newer t = None) →
  Z.of_nat (List.length l + List.length ps) < uint_modulus →
  ∃ h' q', enqueue_all ps h q = Ok (h', q')
    ∧ queue_repr h' q' (l ++ ps)
    ∧ frame (l ++ ps) h h'
    ∧ same_payload h h'.
Proof.
  revert h q l. induction ps as [|p ps IH]; intros h q l Hrepr Hnd Hfree Hroom.
  - exists h, q. rewrite app_nil_r. split; [done|]. split; [done|].
    split; [apply frame_refl | apply same_payload_refl].
  - destruct (Hfree p) as (t & Ht & Ho & Hn); [set_solver|].
    destruct (enqueue_spec h q l p t Hrepr Ht Ho Hn) as
      (h1 & q1 & Heq & Hrepr1 & Hfr1 & Hpay1).
    { apply NoDup_app in Hnd as (_ & Hx & _). intros Hin.
      apply (Hx p Hin). set_solver. }
    { simpl in Hroom. lia. }
    destruct (IH h1 q1 (l ++ [p])) as (h' & q' & Heq' & Hrepr' & Hfr' & Hpay').
    + done.
    + by rewrite <- app_assoc.
    + intros p' Hp'. destruct (Hfree p') as (t' & Ht' & ? & ?); [set_solver|].
      exists t'. split; [|done]. rewrite Hfr1; [done|].
      apply NoDup_app in Hnd as (_ & Hx & Hnd2).
      apply NoDup_cons in Hnd2 as [Hp _].
      intros [Hin | ->%list_elem_of_singleton]%elem_of_app; [|done].
      apply (Hx p' Hin). set_solver.
    + rewrite length_app. simpl in *. lia.
    + exists h', q'. cbn [enqueue_all]. rewrite Heq, bind_Ok. simpl.
      rewrite <- app_assoc in Hrepr', Hfr'. simpl in *.
      split; [done|]. split; [done|]. split.
      * eapply frame_trans; [|done]. eapply frame_mono; [|done]. set_solver.
      * by eapply same_payload_trans.
Qed.

Lemma drain_full (h : gmap positive GCTask) q l :
  queue_repr h q l →
  ∃ h' q', drain (List.length l) h q = Ok (h', q', Some <$> l)
    ∧ q' = GCTaskQueue.initialize
    ∧ frame l h h' ∧ same_payload h h'
    ∧ ∀ a, a ∈ l → ∃ t, h' !! a = Some t ∧ older t = None ∧ newer t = None.
Proof.
  revert h q. induction l as [|a l IH]; intros h q Hrepr.
  - exists h, q. split; [done|]. split; [by eapply queue_repr_nil_inv|].
    split; [apply frame_refl|]. split; [apply same_payload_refl|].
    by intros a ?%elem_of_nil.
  - destruct (dequeue_spec h q a l Hrepr) as
      (h1 & q1 & Hdq & _ & Hrepr1 & Hfr1 & Hpay1 & t & Ht & Ho & Hn).
    destruct (IH h1 q1 Hrepr1) as (h' & q' & Hdr & Hq' & Hfr' & Hpay' & Hnull).
    exists h', q'. simpl. rewrite Hdq, bind_Ok. simpl. rewrite Hdr.
    split; [done|]. split; [done|]. split; [|split].
    + eapply frame_trans; [done|]. eapply frame_mono; [|done]. set_solver.
    + by eapply same_payload_trans.
    + intros b [->|Hb]%elem_of_cons; [|by apply Hnull].
      exists t. rewrite Hfr'; [done|].
      pose proof (repr_nodup _ _ _ Hrepr) as Hnd.
      by apply NoDup_cons in Hnd as [? _].
Qed.

(** X3.  The queue is first in, first out, and a round trip leaves no
    trace: tasks with null link fields enqueued one after the other on an
    empty queue come back from as many [dequeue()] calls in the order of
    their enqueueing, the queue is empty again, and the heap of tasks is
    exactly as before. *)
Theorem enqueue_dequeue_fifo (h : gmap positive GCTask) (q : GCTaskQueue.t)
    (ps : list positive) :
  queue_repr h q [] → NoDup ps →
  (∀ p, p ∈ ps → ∃ t, h !! p = Some t ∧ older t = None ∧ newer t = None) →
  Z.of_nat (List.length ps) < uint_modulus →
  ∃ h1 q1,
    enqueue_all ps h q = Ok (h1, q1)
    ∧ GCTaskQueue.length q1 = Z.of_nat (List.length ps)
    ∧ drain (List.length ps) h1 q1 = Ok (h, q, Some <$> ps).
Proof.
  intros Hrepr Hnd Hfree Hroom.
  destruct (enqueue_all_spec h q [] ps Hrepr Hnd Hfree Hroom) as
    (h1 & q1 & Heq & Hrepr1 & Hfr1 & Hpay1). simpl in *.
  destruct (drain_full h1 q1 ps Hrepr1) as
    (h2 & q2 & Hdr & -> & Hfr2 & Hpay2 & Hnull).
  exists h1, q1. split; [done|]. split; [apply Hrepr1|].
  rewrite Hdr. rewrite (queue_repr_nil_inv _ _ Hrepr). do 3 f_equal.
  apply (heap_restored h h2 ps).
  - by eapply same_payload_trans.
  - by eapply frame_trans.
  - intros a t t' Ha Ht Ht'.
    destruct (Hfree a Ha) as (t0 & Ht0 & Ho0 & Hn0).
    destruct (Hnull a Ha) as (t1 & Ht1 & Ho1 & Hn1). simplify_eq.
    by rewrite Ho0, Hn0, Ho1, Hn1.
Qed.

Lemma passed_over_not_barrier (h : gmap positive GCTask) w a :
  passed_over h w a → ¬ barrier_at h a.
Proof. intros (t & Ht & Hb & _) (t' & Ht' & Hb'). congruence. Qed.

(** X4.  [dequeue(affinity)] never reaches past a barrier task: on every
    non-empty queue it returns a task with no barrier task older than it,
    and it returns a task other than the oldest only when that task has
    the wanted affinity (and is no barrier); the tasks that stay keep
    their order. *)
Theorem dequeue_affinity_respects_barriers (h : gmap positive GCTask)
    (q : GCTaskQueue.t) (l : list positive) (w : Z) :
  queue_repr h q l → l ≠ [] →
  ∃ h' q' l1 a l2,
    l = l1 ++ a :: l2
    ∧ GCTaskQueue.dequeue_affinity w h q = Ok (h', q', Some a)
    ∧ queue_repr h' q' (l1 ++ l2)
    ∧ Forall (λ p, ¬ barrier_at h p) l1
    ∧ (l1 ≠ [] → match_at h w a).
Proof.
  intros Hrepr Hne.
  destruct (dequeue_either_full h q l true w Hrepr Hne) as
    (h' & q' & l1 & a & l2 & t & -> & Hdq & Hrepr' & _ & _ & _ & _ & _
     & Hpass & Hmatch).
  exists h', q', l1, a, l2. do 3 (split; [done|]). split.
  - eapply Forall_impl; [done|]. intros p. apply passed_over_not_barrier.
  - intros Hl1. by apply Hmatch.
Qed.

(** ** What the queue operations leave alone *)

Lemma load_inv (h : gmap positive GCTask) p t :
  load h p = Ok t → h !! p = Some t.
Proof. unfold load. destruct (h !! p); by intros [= ->]. Qed.

Lemma set_older_inv (h h' : gmap positive GCTask) p v :
  set_older p v h = Ok h' →
  ∃ t, h !! p = Some t ∧ h' = <[p := with_older t v]> h.
Proof.
  unfold set_older. intros H. inv_bind H. apply load_inv in E.
  exists a. split; [done|]. by simplify_eq.
Qed.

Lemma set_newer_inv (h h' : gmap positive GCTask) p v :
  set_newer p v h = Ok h' →
  ∃ t, h !! p = Some t ∧ h' = <[p := with_newer t v]> h.
Proof.
  unfold set_newer. intros H. inv_bind H. apply load_inv in E.
  exists a. split; [done|]. by simplify_eq.
Qed.

Lemma set_older_effect (h h' : gmap positive GCTask) p v :
  set_older p v h = Ok h' → frame [p] h h' ∧ same_payload h h'.
Proof.
  intros (t & Ht & ->)%set_older_inv. split.
  - apply frame_insert. set_solver.
  - by eapply same_payload_insert.
Qed.

Lemma set_newer_effect (h h' : gmap positive GCTask) p v :
  set_newer p v h = Ok h' → frame [p] h h' ∧ same_payload h h'.
Proof.
  intros (t & Ht & ->)%set_newer_inv. split.
  - apply frame_insert. set_solver.
  - by eapply same_payload_insert.
Qed.

Lemma assert_inv cond msg u : assert cond msg = Ok u → cond = true.
Proof. by destruct cond. Qed.

Ltac inv_binds :=
  repeat match goal with
         | H : mbind _ _ = Ok _ |- _ => inv_bind H
         end.

(** [enqueue(list)] on two different queue objects, whenever it
    returns. *)
Lemma enqueue_list_splice (h h' : gmap positive GCTask)
    (q lst q' lst' : GCTaskQueue.t) :
  GCTaskQueue.enqueue_list h q lst = Ok (h', q', lst') →
  (∀ p, Some p ≠ GCTaskQueue.insert_end q →
        Some p ≠ GCTaskQueue.remove_end lst → h' !! p = h !! p)
  ∧ same_payload h h'
  ∧ (GCTaskQueue.is_empty lst = true → h' = h ∧ q' = q ∧ lst' = lst)
  ∧ (GCTaskQueue.is_empty lst = false →
     lst' = GCTaskQueue.initialize
     ∧ GCTaskQueue.insert_end q' = GCTaskQueue.insert_end lst)
  ∧ (GCTaskQueue.is_empty lst = false → GCTaskQueue.is_empty q = true →
     h' = h
     ∧ GCTaskQueue.remove_end q' = GCTaskQueue.remove_end lst
     ∧ GCTaskQueue.length q' = GCTaskQueue.length lst).
Proof.
  unfold GCTaskQueue.enqueue_list.
  destruct (GCTaskQueue.is_empty lst) eqn:Hl.
  { intros [= <- <- <-]. split; [done|]. split; [done|]. by repeat split. }
  destruct (GCTaskQueue.is_empty q) eqn:Hq; simpl.
  { intros H. inv_binds. simplify_eq.
    split; [done|]. split; [done|]. by repeat split. }
  destruct (GCTaskQueue.remove_end lst) as [lre|] eqn:Hlre; [|done].
  destruct (GCTaskQueue.insert_end q) as [ie|] eqn:Hie; [|done].
  intros H. inv_binds. simplify_eq.
  match goal with
  | H1 : set_older _ _ h = Ok ?h1, H2 : set_newer _ _ ?h1 = Ok _ |- _ =>
      apply set_older_effect in H1 as [Hfr1 Hpay1];
      apply set_newer_effect in H2 as [Hfr2 Hpay2]
  end.
  split; [|split; [|by repeat split]].
  - intros p Hp1 Hp2. rewrite Hfr2, Hfr1; [done| |]; set_solver.
  - by eapply same_payload_trans.
Qed.

Lemma get_Some (qs : QueueObjects.store) p q :
  qs !! p = Some q → QueueObjects.get qs p = Ok q.
Proof. unfold QueueObjects.get. by intros ->. Qed.

Lemma get_inv (qs : QueueObjects.store) p q :
  QueueObjects.get qs p = Ok q → qs !! p = Some q.
Proof. unfold QueueObjects.get. destruct (qs !! p); by intros [= ->]. Qed.

Lemma update_Some (qs : QueueObjects.store) p q f :
  qs !! p = Some q → QueueObjects.update p f qs = Ok (<[p := f q]> qs).
Proof. intros Hp. unfold QueueObjects.update. by rewrite (get_Some _ _ _ Hp). Qed.

Ltac lookup_store :=
  first [ eassumption
        | apply lookup_insert_eq
        | rewrite lookup_insert_ne by done;
          first [eassumption | apply lookup_insert_eq] ].

Ltac store_steps :=
  repeat first
    [ rewrite bind_Ok
    | progress cbn beta iota
    | rewrite insert_insert_eq
    | erewrite get_Some by lookup_store
    | erewrite update_Some by lookup_store ].

(** On two different objects the call is [GCTaskQueue.enqueue_list] on
    their values, written back. *)
Lemma enqueue_list_objects_distinct (this list : positive)
    (h : gmap positive GCTask) (qs : QueueObjects.store) q lst :
  this ≠ list → qs !! this = Some q → qs !! list = Some lst →
  QueueObjects.enqueue_list this list h qs
  = '(h', q', lst') ← GCTaskQueue.enqueue_list h q lst;
    Ok (h', <[list := lst']> (<[this := q']> qs)).
Proof.
  intros Hne Hq Hl. assert (Hne' : list ≠ this) by done.
  unfold QueueObjects.enqueue_list, GCTaskQueue.enqueue_list.
  store_steps.
  destruct (GCTaskQueue.is_empty lst).
  { store_steps.
    by rewrite (insert_id qs this q Hq), (insert_id qs list lst Hl). }
  store_steps.
  destruct (GCTaskQueue.is_empty q).
  - store_steps. by destruct (GCTaskQueue.verify_length h _).
  - store_steps.
    destruct (GCTaskQueue.remove_end lst) as [lre|] eqn:Hlre; [|done].
    destruct (GCTaskQueue.insert_end q) as [ie|] eqn:Hie; [|done].
    destruct (set_older lre (Some ie) h) as [h1| | | |]; try done.
    store_steps.
    destruct (set_newer ie (Some lre) h1) as [h2| | | |]; try done.
    store_steps. by destruct (GCTaskQueue.verify_length h2 _).
Qed.

(** On one object the call links the two ends of the queue to each
    other and leaves the queue initialized. *)
Lemma enqueue_list_objects_self (this : positive)
    (h : gmap positive GCTask) (qs : QueueObjects.store) q :
  qs !! this = Some q → GCTaskQueue.is_empty q = false →
  QueueObjects.enqueue_list this this h qs
  = match GCTaskQueue.remove_end q, GCTaskQueue.insert_end q with
    | Some re, Some ie =>
        h ← set_older re (Some ie) h;
        h ← set_newer ie (Some re) h;
        Ok (h, <[this := GCTaskQueue.initialize]> qs)
    | _, _ => Fault
    end.
Proof.
  intros Hq Hne. unfold QueueObjects.enqueue_list.
  store_steps. rewrite Hne. store_steps.
  destruct (GCTaskQueue.remove_end q) as [re|] eqn:Hre; [|done].
  destruct (GCTaskQueue.insert_end q) as [ie|] eqn:Hie; [|done].
  destruct (set_older re (Some ie) h) as [h1| | | |]; try done.
  store_steps.
  destruct (set_newer ie (Some re) h1) as [h2| | | |]; try done.
  store_steps. done.
Qed.

(** X5.  [enqueue(list)] is a splice: whenever it returns, it has
    written to at most two tasks, the newest of the queue and the oldest
    of the list, it has changed no task's kind, affinity or gc id, and no
    queue object other than [this] and [list].  If the list is empty
    nothing changes at all; if it is not, the list comes back
    initialized.  For a list that is another object than the queue, the
    queue takes over the insert end of the list, and if the queue was
    empty no task is written to (the queue takes over both ends and the
    length of the list).  For [list == this] the call returns as well:
    the queue is left initialized, that is empty, while its tasks stay
    linked, in a ring (the oldest task has the newest as its older task
    and the newest has the oldest as its newer task). *)
Theorem enqueue_list_is_a_splice (this list : positive)
    (h h' : gmap positive GCTask) (qs qs' : QueueObjects.store)
    (q lst : GCTaskQueue.t) :
  qs !! this = Some q → qs !! list = Some lst →
  QueueObjects.enqueue_list this list h qs = Ok (h', qs') →
  (∀ p, Some p ≠ GCTaskQueue.insert_end q →
        Some p ≠ GCTaskQueue.remove_end lst → h' !! p = h !! p)
  ∧ same_payload h h'
  ∧ (∀ o, o ≠ this → o ≠ list → qs' !! o = qs !! o)
  ∧ (GCTaskQueue.is_empty lst = true → h' = h ∧ qs' = qs)
  ∧ (GCTaskQueue.is_empty lst = false →
     qs' !! list = Some GCTaskQueue.initialize)
  ∧ (GCTaskQueue.is_empty lst = false → this ≠ list →
     ∃ q', qs' !! this = Some q'
       ∧ GCTaskQueue.insert_end q' = GCTaskQueue.insert_end lst
       ∧ (GCTaskQueue.is_empty q = true →
          h' = h
          ∧ GCTaskQueue.remove_end q' = GCTaskQueue.remove_end lst
          ∧ GCTaskQueue.length q' = GCTaskQueue.length lst))
  ∧ (GCTaskQueue.is_empty lst = false → this = list →
     ∃ re ie tre tie,
       GCTaskQueue.remove_end q = Some re
       ∧ GCTaskQueue.insert_end q = Some ie
       ∧ h' !! re = Some tre ∧ older tre = Some ie
       ∧ h' !! ie = Some tie ∧ newer tie = Some re).
Proof.
  intros Hq Hl Hrun.
  destruct (decide (this = list)) as [<-|Hne].
  - assert (lst = q) as -> by congruence.
    destruct (GCTaskQueue.is_empty q) eqn:Hempty.
    { unfold QueueObjects.enqueue_list in Hrun.
      rewrite (get_Some _ _ _ Hq), bind_Ok, Hempty in Hrun.
      simplify_eq. split; [done|]. split; [done|]. by repeat split. }
    rewrite (enqueue_list_objects_self this h qs q Hq Hempty) in Hrun.
    destruct (GCTaskQueue.remove_end q) as [re|] eqn:Hre; [|done].
    destruct (GCTaskQueue.insert_end q) as [ie|] eqn:Hie; [|done].
    apply bind_Ok_inv in Hrun as (h1 & H1 & Hrun).
    apply bind_Ok_inv in Hrun as (h2 & H2 & Hrun).
    simplify_eq.
    pose proof H1 as (t1 & Ht1 & ->)%set_older_inv.
    pose proof H2 as (t2 & Ht2 & ->)%set_newer_inv.
    apply set_older_effect in H1 as [Hfr1 Hpay1].
    apply set_newer_effect in H2 as [Hfr2 Hpay2].
    split; [|split; [|split; [|split; [|split; [|split]]]]].
    + intros p Hp1 Hp2. rewrite Hfr2, Hfr1; [done| |]; set_solver.
    + by eapply same_payload_trans.
    + intros o Ho _. by rewrite lookup_insert_ne.
    + done.
    + intros _. apply lookup_insert_eq.
    + done.
    + intros _ _. destruct (decide (re = ie)) as [->|Hneq].
      * rewrite lookup_insert_eq in Ht2. simplify_eq.
        eexists ie, ie, _, _. rewrite lookup_insert_eq. by repeat split.
      * eexists re, ie, _, _. rewrite lookup_insert_eq.
        rewrite lookup_insert_ne by done. rewrite lookup_insert_eq.
        by repeat split.
  - rewrite (enqueue_list_objects_distinct this list h qs q lst Hne Hq Hl)
      in Hrun.
    apply bind_Ok_inv in Hrun as ([[h1 q1] lst1] & Henq & Hrun).
    cbn beta iota in Hrun. simplify_eq.
    destruct (enqueue_list_splice h h' q lst q1 lst1 Henq)
      as (Hfr & Hpay & Hempty & Hfull & Hfresh).
    split; [done|]. split; [done|].
    split; [|split; [|split; [|split; [|done]]]].
    + intros o Ho1 Ho2. by rewrite !lookup_insert_ne.
    + intros He. destruct (Hempty He) as (-> & -> & ->).
      split; [done|].
      by rewrite (insert_id qs this q Hq), (insert_id qs list lst Hl).
    + intros He. destruct (Hfull He) as [-> _]. apply lookup_insert_eq.
    + intros He _. destruct (Hfull He) as [_ Hie]. exists q1.
      rewrite lookup_insert_ne by done. rewrite lookup_insert_eq.
      split; [done|]. split; [done|]. intros Hqe. by apply Hfresh.
Qed.

Lemma frame_cons_ne (h h' : gmap positive GCTask) a l p :
  frame (a :: l) h h' → p ≠ a → p ∉ l → h' !! p = h !! p.
Proof. intros Hfr ? ?. apply Hfr. set_solver. Qed.

Lemma remove_effect (h h' : gmap positive GCTask) q q' res :
  GCTaskQueue.remove h q = Ok (h', q', res) →
  ∃ r t t', res = Some r ∧ h !! r = Some t ∧ older t = None
    ∧ (∀ p, p ≠ r → newer t ≠ Some p → h' !! p = h !! p)
    ∧ same_payload h h'
    ∧ h' !! r = Some t' ∧ older t' = None ∧ newer t' = None
    ∧ GCTaskQueue.length q' = uint_decr (GCTaskQueue.length q).
Proof.
  unfold GCTaskQueue.remove.
  destruct (GCTaskQueue.remove_end q) as [r|] eqn:Hre; [|done].
  intros H. inv_bind H. apply load_inv in E. rename a into t.
  inv_bind H. apply assert_inv in E0.
  apply bool_decide_eq_true in E0.
  inv_bind H.
  assert (∃ hm, frame (match newer t with Some n => [n] | None => [] end) h hm
                ∧ same_payload h hm
                ∧ g = hm
                ∧ GCTaskQueue.length t0 = GCTaskQueue.length q)
    as (hm & Hfr1 & Hpay1 & -> & Hlen).
  { destruct (newer t) as [n|]; inv_binds; simplify_eq.
    - match goal with
      | H1 : set_older _ _ _ = Ok _ |- _ =>
          apply set_older_effect in H1 as [? ?]
      end. by eexists.
    - eexists. split; [apply frame_refl|]. by split. }
  inv_binds. simplify_eq.
  match goal with
  | H1 : set_newer r None hm = Ok _ |- _ =>
      pose proof H1 as (tm & Htm & ->)%set_newer_inv;
      apply set_newer_effect in H1 as [Hfr2 Hpay2]
  end.
  match goal with
  | H1 : load _ r = Ok ?t' |- _ => apply load_inv in H1; rename t' into tr
  end.
  repeat match goal with
  | H1 : assert _ _ = Ok _ |- _ =>
      apply assert_inv, bool_decide_eq_true in H1
  end.
  exists r, t, tr. do 3 (split; [done|]). split; [|split].
  - intros p Hp Hn. rewrite Hfr2 by set_solver. apply Hfr1.
    destruct (newer t); set_solver.
  - by eapply same_payload_trans.
  - do 3 (split; [done|]). simpl. by rewrite Hlen.
Qed.

Lemma relink_step_effect (h hm : gmap positive GCTask) r t
    (neighbour other : option positive) (older_side : bool)
    (q q1 qalt : GCTaskQueue.t) (cond : bool) msg :
  h !! r = Some t →
  match neighbour with
  | Some n =>
      (if older_side then set_newer n other h else set_older n other h)
      ≫= λ h0, Ok (h0, q)
  | None => assert cond msg ≫= λ _, Ok (h, qalt)
  end = Ok (hm, q1) →
  frame (opt_list neighbour) h hm ∧ same_payload h hm
  ∧ GCTaskQueue.length q1
    = GCTaskQueue.length (match neighbour with Some _ => q | None => qalt end)
  ∧ ∃ t2, hm !! r = Some t2
      ∧ (t2 = t
         ∨ t2 = if older_side then with_newer t other else with_older t other).
Proof.
  intros Ht H. destruct neighbour as [n|]; inv_binds; simplify_eq.
  - assert (∃ tn, h !! n = Some tn
              ∧ hm = <[n := if older_side then with_newer tn other
                            else with_older tn other]> h)
      as (tn & Htn & ->).
    { destruct older_side;
        [ match goal with H1 : set_newer _ _ _ = Ok _ |- _ =>
            apply set_newer_inv in H1 as (tn & ? & ?) end
        | match goal with H1 : set_older _ _ _ = Ok _ |- _ =>
            apply set_older_inv in H1 as (tn & ? & ?) end ];
        by exists tn. }
    split; [apply frame_insert; set_solver|].
    split; [eapply same_payload_insert; [done|by destruct older_side]|].
    split; [done|].
    destruct (decide (n = r)) as [->|Hne].
    + simplify_eq. eexists. rewrite lookup_insert_eq. split; [done|].
      by right.
    + exists t. rewrite lookup_insert_ne by done. split; [done|]. by left.
  - split; [apply frame_refl|]. split; [apply same_payload_refl|].
    split; [done|]. exists t. split; [done|]. by left.
Qed.

Lemma remove_task_effect (h h' : gmap positive GCTask) q q' r res :
  GCTaskQueue.remove_task (Some r) h q = Ok (h', q', res) →
  ∃ t t', res = Some r ∧ h !! r = Some t
    ∧ (∀ p, p ≠ r → older t ≠ Some p → newer t ≠ Some p →
         h' !! p = h !! p)
    ∧ same_payload h h'
    ∧ h' !! r = Some t' ∧ older t' = None ∧ newer t' = None
    ∧ GCTaskQueue.length q' = uint_decr (GCTaskQueue.length q).
Proof.
  unfold GCTaskQueue.remove_task. intros H.
  inv_bind H. apply load_inv in E. rename a into t.
  inv_bind H.
  match goal with
  | H1 : match newer t with _ => _ end = Ok (?hm, ?qm) |- _ =>
      apply (relink_step_effect h hm r t (newer t) (older t) false) in H1
        as (Hfr1 & Hpay1 & Hlen1 & t2 & Ht2 & Hcase2); [|done]
  end.
  inv_bind H.
  match goal with
  | H1 : load _ r = Ok ?x |- _ =>
      apply load_inv in H1; assert (x = t2) as -> by congruence
  end.
  assert (Ho2 : older t2 = older t) by (by destruct Hcase2 as [->| ->]).
  inv_bind H.
  match goal with
  | H1 : match older t2 with _ => _ end = Ok (?hm, ?qm) |- _ =>
      apply (relink_step_effect _ hm r t2 (older t2) (newer t2) true) in H1
        as (Hfr2 & Hpay2 & Hlen2 & t3 & Ht3 & _); [|done]
  end.
  inv_binds. simplify_eq.
  match goal with
  | H1 : set_newer r None _ = Ok ?h3, H2 : set_older r None ?h3 = Ok _ |- _ =>
      pose proof H1 as (t4 & Ht4 & ->)%set_newer_inv;
      apply set_newer_effect in H1 as [Hfr3 Hpay3];
      pose proof H2 as (t5 & Ht5 & ->)%set_older_inv;
      apply set_older_effect in H2 as [Hfr4 Hpay4]
  end.
  rewrite lookup_insert_eq in Ht5. simplify_eq.
  eexists t, _. split; [done|]. split; [done|]. split; [|split; [|split]].
  - intros p Hp Hpo Hpn. rewrite Hfr4, Hfr3 by set_solver.
    rewrite Hfr2, Hfr1; [done| |].
    + destruct (newer t); set_solver.
    + rewrite Ho2. destruct (older t); set_solver.
  - eapply same_payload_trans; [|done].
    eapply same_payload_trans; [|done].
    by eapply same_payload_trans.
  - apply lookup_insert_eq.
  - split; [done|]. split; [done|]. simpl. rewrite Hlen2.
    destruct (older t2); simpl; rewrite Hlen1; by destruct (newer t).
Qed.

Lemma affinity_walk_inv (h h' : gmap positive GCTask) fuel aff e q q' res :
  GCTaskQueue.affinity_walk fuel aff e h q = Ok (h', q', res) →
  (res = None ∧ h' = h ∧ q' = q)
  ∨ ∃ r, res = Some r ∧ match_at h aff r
      ∧ GCTaskQueue.remove_task (Some r) h q = Ok (h', q', res).
Proof.
  revert e. induction fuel as [|fuel IH]; intros [e|];
    cbn [GCTaskQueue.affinity_walk]; try done.
  - intros ?. simplify_eq. left. by repeat split.
  - intros H. inv_bind H. apply load_inv in E. rename a into t.
    destruct (is_barrier_task t) eqn:Hbar.
    { simplify_eq. left. by repeat split. }
    destruct (affinity t =? aff) eqn:Haff; [|by eapply IH].
    apply Z.eqb_eq in Haff. right.
    pose proof H as (t1 & t2 & -> & _)%remove_task_effect.
    exists e. split; [done|]. split; [by exists t|done].
  - intros ?. simplify_eq. left. by repeat split.
Qed.

(** X6.  Whatever the state of the queue, a [dequeue()] or
    [dequeue(affinity)] that returns hands out a live task with both link
    fields null, has decremented the length, has changed no task's kind,
    affinity or gc id, and has written to no task other than the one it
    returns and the two that were its neighbours.  A task that
    [dequeue(affinity)] takes from inside the queue has the wanted
    affinity and is no barrier. *)
Theorem dequeue_relinks_neighbours (use_affinity : bool) (w : Z)
    (h h' : gmap positive GCTask) (q q' : GCTaskQueue.t)
    (res : option positive) :
  (if use_affinity then GCTaskQueue.dequeue_affinity w h q
   else GCTaskQueue.dequeue h q) = Ok (h', q', res) →
  ∃ r t t',
    res = Some r ∧ h !! r = Some t
    ∧ (∀ p, p ≠ r → older t ≠ Some p → newer t ≠ Some p →
         h' !! p = h !! p)
    ∧ same_payload h h'
    ∧ h' !! r = Some t' ∧ older t' = None ∧ newer t' = None
    ∧ GCTaskQueue.length q' = uint_decr (GCTaskQueue.length q)
    ∧ (Some r ≠ GCTaskQueue.remove_end q →
       use_affinity = true ∧ match_at h w r).
Proof.
  assert (Hrm : ∀ rh rq rr,
    GCTaskQueue.remove h q = Ok (rh, rq, rr) →
    h' = rh → q' = rq → res = rr →
    ∃ r t t',
      res = Some r ∧ h !! r = Some t
      ∧ (∀ p, p ≠ r → older t ≠ Some p → newer t ≠ Some p →
           h' !! p = h !! p)
      ∧ same_payload h h'
      ∧ h' !! r = Some t' ∧ older t' = None ∧ newer t' = None
      ∧ GCTaskQueue.length q' = uint_decr (GCTaskQueue.length q)
      ∧ (Some r ≠ GCTaskQueue.remove_end q →
         use_affinity = true ∧ match_at h w r)).
  { intros rh rq rr Hr -> -> ->. pose proof Hr as Hr'.
    apply remove_effect in Hr as
      (r & t & t' & -> & Ht & Ho & Hfr & Hpay & Ht' & Ho' & Hn' & Hlen).
    exists r, t, t'. do 2 (split; [done|]). split.
    { intros p Hp _ Hpn. by apply Hfr. }
    do 5 (split; [done|]). intros Hne. exfalso. apply Hne.
    unfold GCTaskQueue.remove in Hr'.
    destruct (GCTaskQueue.remove_end q); [|done].
    inv_binds. by simplify_eq. }
  destruct use_affinity.
  - unfold GCTaskQueue.dequeue_affinity. generalize (S (size h)).
    intros fuel H. inv_bind H. inv_bind H.
    match goal with
    | H1 : GCTaskQueue.affinity_walk _ _ _ _ _ = Ok _ |- _ =>
        apply affinity_walk_inv in H1
          as [(-> & -> & ->) | (r & -> & Hmatch & Hrt)]
    end.
    + by eapply Hrm.
    + simplify_eq.
      apply remove_task_effect in Hrt as
        (t & t' & _ & Ht & Hfr & Hpay & Ht' & Ho' & Hn' & Hlen).
      exists r, t, t'. by do 8 (split; [done|]).
  - unfold GCTaskQueue.dequeue. intros H. inv_binds. simplify_eq.
    by eapply Hrm.
Qed.

(** * Further properties of the manager *)

Lemma get_task_when_blocked (U : bool) which (h : gmap positive GCTask) m :
  GCTaskManager.blocking_worker m ≠ sentinel_worker →
  GCTaskManager.get_task U which h m [] = Waiting
  ∧ ∀ h' m' ws,
      GCTaskManager.get_task U which h m ((h', m') :: ws)
      = GCTaskManager.get_task U which h' m' ws.
Proof.
  intros Hb.
  assert (Hw : GCTaskManager.must_wait which (GCTaskManager.lock m) = Ok true).
  { unfold GCTaskManager.must_wait, GCTaskManager.is_blocked. simpl.
    by apply Z.eqb_neq in Hb as ->. }
  unfold GCTaskManager.get_task. split.
  - simpl. by rewrite Hw.
  - intros h' m' ws. simpl. by rewrite Hw.
Qed.

Lemma get_task_delivers (U : bool) which (h : gmap positive GCTask) m l ws :
  queue_repr h (GCTaskManager.queue m) l → l ≠ [] →
  GCTaskManager.blocking_worker m = sentinel_worker →
  which ≠ sentinel_worker →
  ∃ h' q' l1 r l2 tr, l = l1 ++ r :: l2
    ∧ (if U then GCTaskQueue.dequeue_affinity which h (GCTaskManager.queue m)
       else GCTaskQueue.dequeue h (GCTaskManager.queue m))
      = Ok (h', q', Some r)
    ∧ queue_repr h' q' (l1 ++ l2)
    ∧ h' !! r = Some tr ∧ older tr = None ∧ newer tr = None
    ∧ frame l h h' ∧ same_payload h h'
    ∧ Forall (passed_over h which) l1
    ∧ (l1 ≠ [] → U = true ∧ match_at h which r)
    ∧ GCTaskManager.get_task U which h m ws
      = Ok (h',
            delivery m tr
              (if is_barrier_task tr then which
               else GCTaskManager.blocking_worker m) q',
            Some r).
Proof.
  intros Hrepr Hne Hb Hns.
  destruct (dequeue_either_full h _ l U which Hrepr Hne) as
    (h' & q' & l1 & r & l2 & tr & -> & Hdq & Hrepr' & Htr & Ho & Hn
     & Hfr & Hpay & Hpass & Hmatch).
  exists h', q', l1, r, l2, tr. do 10 (split; [done|]).
  pose proof (queue_repr_is_empty _ _ _ Hrepr) as Hempty.
  rewrite bool_decide_eq_false_2 in Hempty by done.
  assert (Hw0 : GCTaskManager.must_wait which (GCTaskManager.lock m) = Ok false).
  { unfold GCTaskManager.must_wait, GCTaskManager.is_blocked. simpl.
    apply Z.eqb_eq in Hb as ->. simpl. by rewrite Hempty. }
  assert (Hwfw : GCTaskManager.wait_for_work which h (GCTaskManager.lock m) ws
                 = Ok (h, GCTaskManager.lock m)).
  { destruct ws; simpl; by rewrite Hw0. }
  unfold GCTaskManager.get_task. rewrite Hwfw, bind_Ok. simpl.
  rewrite Hempty. simpl. rewrite Hdq, bind_Ok. simpl.
  rewrite (load_Some _ _ _ Htr), bind_Ok.
  apply Z.eqb_neq in Hns. rewrite Hns. simpl.
  destruct (is_barrier_task tr); simpl;
    rewrite (load_Some _ _ _ Htr), bind_Ok.
  all: unfold delivery; destruct (is_idle_task tr); reflexivity.
Qed.

Lemma wait_for_work_inv which (h h1 : gmap positive GCTask) m m1 ws :
  GCTaskManager.wait_for_work which h m ws = Ok (h1, m1) →
  (h1 = h ∧ m1 = m)
  ∨ ∃ h0 m0, (h0, m0) ∈ ws ∧ h1 = h0 ∧ m1 = GCTaskManager.lock m0.
Proof.
  revert h m. induction ws as [|[h0 m0] ws IH]; intros h m H; simpl in H.
  - inv_bind H. destruct a; [done|]. simplify_eq. by left.
  - inv_bind H. destruct a.
    + apply IH in H as [[-> ->] | (h2 & m2 & Hin & -> & ->)]; right.
      * exists h0, m0. split; [by left|done].
      * exists h2, m2. split; [by right|done].
    + simplify_eq. by left.
Qed.

(** What [get_task] does to the counters of the manager it acts on (the
    one it was called with, or one it woke up to). *)
Lemma get_task_counters (U : bool) which (h h' : gmap positive GCTask)
    m m' ws res :
  GCTaskManager.get_task U which h m ws = Ok (h', m', res) →
  ∃ m1, (m1 = m ∨ ∃ h0, (h0, m1) ∈ ws)
    ∧ GCTaskManager.completed_tasks m' = GCTaskManager.completed_tasks m1
    ∧ ((GCTaskManager.busy_workers m' = GCTaskManager.busy_workers m1
        ∧ GCTaskManager.delivered_tasks m'
          = GCTaskManager.delivered_tasks m1)
       ∨ (GCTaskManager.busy_workers m'
          = uint_incr (GCTaskManager.busy_workers m1)
          ∧ GCTaskManager.delivered_tasks m'
            = uint_incr (GCTaskManager.delivered_tasks m1))).
Proof.
  unfold GCTaskManager.get_task. intros H. inv_bind H.
  apply wait_for_work_inv in E as Hwoken.
  assert (∃ m1, (m1 = m ∨ ∃ h0, (h0, m1) ∈ ws)
            ∧ GCTaskManager.completed_tasks t = GCTaskManager.completed_tasks m1
            ∧ GCTaskManager.busy_workers t = GCTaskManager.busy_workers m1
            ∧ GCTaskManager.delivered_tasks t
              = GCTaskManager.delivered_tasks m1)
    as (m1 & Hm1 & Hc1 & Hb1 & Hd1).
  { destruct Hwoken as [[_ ->] | (h0 & m0 & Hin & _ & ->)].
    - exists m. split; [by left|done].
    - exists m0. split; [right; by exists h0|done]. }
  exists m1. split; [done|]. clear Hwoken E Hm1.
  inv_bind H.
  assert (GCTaskManager.completed_tasks t0 = GCTaskManager.completed_tasks t
          ∧ GCTaskManager.busy_workers t0 = GCTaskManager.busy_workers t
          ∧ GCTaskManager.delivered_tasks t0 = GCTaskManager.delivered_tasks t)
    as (Hc2 & Hb2 & Hd2).
  { destruct (negb _); [|by simplify_eq].
    inv_binds. destruct o0; [|done]. inv_bind E.
    destruct (is_barrier_task a); inv_binds; by simplify_eq. }
  destruct o as [r|]; [|done]. inv_bind H. inv_bind H.
  destruct (negb (is_idle_task a)).
  - unfold GCTaskManager.increment_busy_workers in E1. inv_binds.
    simplify_eq. simpl. split; [congruence|]. right. split; congruence.
  - simplify_eq. simpl. split; [congruence|]. left. split; congruence.
Qed.

Lemma uint_incr_balance d c :
  ((uint_incr d) - c) mod uint_modulus
  = uint_incr ((d - c) mod uint_modulus).
Proof.
  unfold uint_incr. rewrite Zminus_mod_idemp_l, Zplus_mod_idemp_l.
  f_equal. lia.
Qed.

Lemma uint_decr_balance d c :
  (d - uint_incr c) mod uint_modulus
  = uint_decr ((d - c) mod uint_modulus).
Proof.
  unfold uint_incr, uint_decr. rewrite Zminus_mod_idemp_r, Zminus_mod_idemp_l.
  f_equal. lia.
Qed.

(** X7.  The bookkeeping stays balanced: if [busy_workers] is
    [delivered_tasks - completed_tasks] (in uint arithmetic) in the
    manager a worker calls with and in every state it may wake up to,
    then it is so in the manager that [get_task] leaves whenever it
    returns, and in the one that [note_completion] leaves whenever it
    returns. *)
Theorem counters_stay_balanced (U : bool) (which : Z)
    (h : gmap positive GCTask) (m : GCTaskManager.t)
    (wakeups : list (gmap positive GCTask * GCTaskManager.t)) :
  counters_inv m → Forall (λ s, counters_inv s.2) wakeups →
  (∀ h' m' res,
     GCTaskManager.get_task U which h m wakeups = Ok (h', m', res) →
     counters_inv m')
  ∧ (∀ m', GCTaskManager.note_completion which m = Ok m' → counters_inv m').
Proof.
  intros Hinv Hws. split.
  - intros h' m' res Hget.
    apply get_task_counters in Hget as (m1 & Hm1 & Hc & Hbd).
    assert (Hinv1 : counters_inv m1).
    { destruct Hm1 as [->|[h0 Hin]]; [done|].
      eapply Forall_forall in Hws; [|done]. done. }
    unfold counters_inv in *. rewrite Hc.
    destruct Hbd as [[-> ->] | [-> ->]]; [done|].
    by rewrite uint_incr_balance, Hinv1.
  - intros m' H. unfold GCTaskManager.note_completion in H. inv_bind H.
    assert (GCTaskManager.busy_workers a
              = GCTaskManager.busy_workers m
            ∧ GCTaskManager.delivered_tasks a
              = GCTaskManager.delivered_tasks m
            ∧ GCTaskManager.completed_tasks a
              = GCTaskManager.completed_tasks m) as (Hb & Hd & Hc).
    { destruct (_ =? which); inv_binds; by simplify_eq. }
    unfold GCTaskManager.decrement_busy_workers in H. inv_binds.
    simplify_eq. unfold counters_inv in *.
    destruct (_ && _); simpl; rewrite Hb, Hd, Hc, uint_decr_balance;
      by rewrite Hinv.
Qed.

Lemma is_barrier_not_idle t : is_barrier_task t = true → is_idle_task t = false.
Proof. unfold is_barrier_task, is_idle_task. by destruct (kind t). Qed.

Lemma payload_is_barrier t t' :
  payload t' = payload t → is_barrier_task t' = is_barrier_task t.
Proof. unfold payload, is_barrier_task. by intros [= -> _ _]. Qed.

Lemma payload_is_idle t t' :
  payload t' = payload t → is_idle_task t' = is_idle_task t.
Proof. unfold payload, is_idle_task. by intros [= -> _ _]. Qed.

(** A barrier task at the remove end is what either dequeue returns. *)
Lemma get_task_delivers_barrier (U : bool) which
    (h : gmap positive GCTask) m b l :
  queue_repr h (GCTaskManager.queue m) (b :: l) → barrier_at h b →
  GCTaskManager.blocking_worker m = sentinel_worker →
  which ≠ sentinel_worker →
  ∃ h' q' tr,
    queue_repr h' q' l
    ∧ h' !! b = Some tr ∧ is_barrier_task tr = true
    ∧ ∀ ws, GCTaskManager.get_task U which h m ws
            = Ok (h', delivery m tr which q', Some b).
Proof.
  intros Hrepr (tb & Htb & Hbar) Hb Hns.
  destruct (get_task_delivers U which h m (b :: l) [] Hrepr) as
    (h' & q' & l1 & r & l2 & tr & Hl & Hdq & Hrepr' & Htr & _ & _ & _
     & Hpay & Hpass & _ & _); [done..|].
  destruct l1 as [|x l1]; simpl in Hl; simplify_eq.
  - destruct (same_payload_lookup h h' r tb Hpay Htb) as (t' & Ht' & Hp).
    assert (t' = tr) as -> by congruence.
    assert (Hbar' : is_barrier_task tr = true)
      by (by rewrite (payload_is_barrier _ _ Hp)).
    exists h', q', tr. do 3 (split; [done|]). intros ws.
    destruct (get_task_delivers U which h m (r :: l2) ws Hrepr) as
      (h2 & q2 & l1' & r' & l2' & tr' & Hl' & Hdq' & _ & Htr' & _ & _ & _
       & _ & _ & _ & Hget); [done..|].
    rewrite Hdq in Hdq'. simplify_eq. by rewrite Hget, Hbar'.
  - apply Forall_cons in Hpass as [Hp _].
    exfalso. eapply passed_over_not_barrier; [done|]. by exists tb.
Qed.

(** X8.  A barrier task at the remove end of the queue stops the
    dispatch.  The worker [which] that calls [get_task] on an unblocked
    manager gets the barrier task, whether affinity is used or not, and
    from then on: [blocking_worker] is [which]; every [get_task], of
    any worker, waits, although tasks may be queued; a
    [note_completion] of another worker leaves the manager blocked and
    [barriers] as it is; the [note_completion] of [which] unblocks the
    manager and increments [barriers]. *)
Theorem barrier_blocks_dispatch (U : bool) (which : Z)
    (h : gmap positive GCTask) (m : GCTaskManager.t)
    (b : positive) (l : list positive) :
  queue_repr h (GCTaskManager.queue m) (b :: l) → barrier_at h b →
  GCTaskManager.blocking_worker m = sentinel_worker →
  which ≠ sentinel_worker →
  0 <= GCTaskManager.busy_workers m < uint_modulus - 1 →
  ∃ h' m',
    (∀ ws, GCTaskManager.get_task U which h m ws = Ok (h', m', Some b))
    ∧ GCTaskManager.blocking_worker m' = which
    ∧ queue_repr h' (GCTaskManager.queue m') l
    ∧ (∀ U2 which2, GCTaskManager.get_task U2 which2 h' m' [] = Waiting)
    ∧ (∀ which2 m2, which2 ≠ which →
         GCTaskManager.note_completion which2 m' = Ok m2 →
         GCTaskManager.blocking_worker m2 = which
         ∧ GCTaskManager.barriers m2 = GCTaskManager.barriers m')
    ∧ ∃ m2, GCTaskManager.note_completion which m' = Ok m2
        ∧ GCTaskManager.blocking_worker m2 = sentinel_worker
        ∧ GCTaskManager.barriers m2 = uint_incr (GCTaskManager.barriers m)
        ∧ GCTaskManager.busy_workers m2 = GCTaskManager.busy_workers m
        ∧ GCTaskManager.queue m2 = GCTaskManager.queue m'.
Proof.
  intros Hrepr Hbar Hb Hns Hbusy.
  destruct (get_task_delivers_barrier U which h m b l Hrepr Hbar Hb Hns) as
    (h' & q' & tr & Hrepr' & Htr & Hbar' & Hget).
  pose proof (is_barrier_not_idle _ Hbar') as Hidle.
  exists h', (delivery m tr which q'). split; [done|]. split; [done|].
  split; [done|]. split; [|split].
  - intros U2 which2. by apply get_task_when_blocked.
  - intros which2 m2 Hne H. unfold GCTaskManager.note_completion in H.
    simpl in H. apply not_eq_sym, Z.eqb_neq in Hne. rewrite Hne in H.
    simpl in H. unfold GCTaskManager.decrement_busy_workers in H.
    inv_binds. simplify_eq. by destruct (_ && _).
  - unfold GCTaskManager.note_completion,
      GCTaskManager.decrement_busy_workers. simpl.
    rewrite Z.eqb_refl. apply Z.eqb_neq in Hns. rewrite Hns. simpl.
    rewrite Hidle.
    assert (Hincr : uint_incr (GCTaskManager.busy_workers m)
                    = GCTaskManager.busy_workers m + 1).
    { unfold uint_incr. apply Z.mod_small. lia. }
    rewrite Hincr.
    destruct (Z.ltb_spec 0 (GCTaskManager.busy_workers m + 1)); [|lia].
    simpl. eexists. split; [done|].
    assert (Hdecr : uint_decr (GCTaskManager.busy_workers m + 1)
                    = GCTaskManager.busy_workers m).
    { unfold uint_decr. rewrite Z.mod_small; lia. }
    destruct (_ && _); simpl; by rewrite Hdecr.
Qed.

Lemma get_task_nothing_queued (U : bool) which (h : gmap positive GCTask)
    m flag np tnp :
  queue_repr h (GCTaskManager.queue m) [] →
  GCTaskManager.blocking_worker m = sentinel_worker →
  0 <= which < GCTaskManager.workers m →
  GCTaskManager.resource_flag m !! Z.to_nat which = Some flag →
  GCTaskManager.noop_task m = Some np → h !! np = Some tnp →
  (flag = false → GCTaskManager.get_task U which h m [] = Waiting)
  ∧ (flag = true → ∀ ws,
       GCTaskManager.get_task U which h m ws
       = Ok (h, delivery m tnp sentinel_worker (GCTaskManager.queue m),
             Some np)).
Proof.
  intros Hrepr Hb Hwhich Hflag Hnoop Htnp.
  pose proof (must_wait_spec which (GCTaskManager.lock m) flag Hwhich Hflag)
    as Hwait.
  pose proof (queue_repr_is_empty _ _ _ Hrepr) as Hempty.
  unfold GCTaskManager.is_blocked in Hwait. simpl in Hwait.
  rewrite Hempty, Hb, Z.eqb_refl in Hwait. simpl in Hwait.
  unfold GCTaskManager.get_task. split.
  - intros ->. simpl. by rewrite Hwait.
  - intros -> ws.
    assert (Hwfw : GCTaskManager.wait_for_work which h (GCTaskManager.lock m) ws
                   = Ok (h, GCTaskManager.lock m)).
    { destruct ws; simpl; by rewrite Hwait. }
    rewrite Hwfw, bind_Ok. simpl. rewrite Hempty. simpl.
    rewrite Hnoop, (load_Some _ _ _ Htnp), bind_Ok.
    unfold delivery. destruct (is_idle_task tnp); simpl;
      unfold GCTaskManager.increment_delivered_tasks,
        GCTaskManager.set_delivered_tasks, GCTaskManager.unlock,
        GCTaskManager.set_monitor_owned; simpl; by rewrite Hb.
Qed.

(** X9.  The resource request reaches the workers that exist.  On an
    unblocked manager with an empty queue a worker whose flag is clear
    waits in [get_task].  After [release_all_resources()] the [get_task]
    of a created worker returns the shared noop task at once, without
    touching the heap or the queue; once the worker has called
    [note_release], its [get_task] waits again.  A worker index at or
    above [created_workers()] is not asked: its [get_task] still
    waits. *)
Theorem resource_release_protocol (U : bool) (which : Z)
    (h : gmap positive GCTask) (m : GCTaskManager.t)
    (np : positive) (tnp : GCTask) :
  queue_repr h (GCTaskManager.queue m) [] →
  GCTaskManager.blocking_worker m = sentinel_worker →
  GCTaskManager.noop_task m = Some np → h !! np = Some tnp →
  is_uint (GCTaskManager.workers m) →
  0 <= GCTaskManager.created_workers m <= GCTaskManager.workers m →
  List.length (GCTaskManager.resource_flag m)
    = Z.to_nat (GCTaskManager.workers m) →
  0 <= which < GCTaskManager.created_workers m →
  GCTaskManager.resource_flag m !! Z.to_nat which = Some false →
  GCTaskManager.get_task U which h m [] = Waiting
  ∧ ∃ m1 m2 m3,
      GCTaskManager.release_all_resources m = Ok m1
      ∧ (∀ ws, GCTaskManager.get_task U which h m1 ws = Ok (h, m2, Some np))
      ∧ GCTaskManager.queue m2 = GCTaskManager.queue m
      ∧ GCTaskManager.note_release m2 which = Ok m3
      ∧ GCTaskManager.get_task U which h m3 [] = Waiting
      ∧ ∀ other,
          GCTaskManager.created_workers m <= other
            < GCTaskManager.workers m →
          GCTaskManager.resource_flag m !! Z.to_nat other = Some false →
          GCTaskManager.get_task U other h m1 [] = Waiting.
Proof.
  intros Hrepr Hb Hnoop Htnp Hw Hc Hlen Hwhich Hflag.
  split.
  { destruct (get_task_nothing_queued U which h m false np tnp) as [Hwt _];
      [done | done | lia | done | done | done |]. by apply Hwt. }
  set (n := Z.to_nat (GCTaskManager.created_workers m)).
  destruct (release_from_spec n 0 m) as (flags & Hrel & Hlen' & Hflags);
    [unfold n; lia | lia | done | unfold n; lia |].
  set (m1 := GCTaskManager.set_resource_flags m flags).
  set (m2 := delivery m1 tnp sentinel_worker (GCTaskManager.queue m)).
  assert (Hflag1 : GCTaskManager.resource_flag m1 !! Z.to_nat which = Some true).
  { simpl. rewrite Hflags, decide_True; [done|]. unfold n. lia. }
  assert (Hin : (Z.to_nat which < List.length flags)%nat) by lia.
  exists m1, m2.
  eexists. split; [done|]. split; [|split; [done|split; [|split]]].
  - intros ws.
    destruct (get_task_nothing_queued U which h m1 true np tnp) as [_ Hrun];
      [done | done | simpl; lia | done | done | done |]. by apply Hrun.
  - unfold GCTaskManager.note_release. rewrite set_resource_flag_ok; [done| |].
    + simpl. lia.
    + done.
  - match goal with
    | |- GCTaskManager.get_task U which h ?m3 [] = Waiting =>
        destruct (get_task_nothing_queued U which h m3 false np tnp)
          as [Hwt _]; [done | done | simpl; lia | | done | done |]
    end.
    + simpl. by apply list_lookup_insert_eq.
    + by apply Hwt.
  - intros other Hother Hoflag.
    destruct (get_task_nothing_queued U other h m1 false np tnp) as [Hwt _];
      [done | done | simpl; lia | | done | done |].
    + simpl. rewrite Hflags, decide_False; [done|]. unfold n. lia.
    + by apply Hwt.
Qed.

(** X10.  A task goes through the manager unchanged: on an unblocked
    manager with an empty queue, [add_task(T)] for a task with null
    links followed by [get_task(which)] returns [T] at once, with or
    without affinity dispatch; the heap is as before, the queue is empty
    again, the busy and delivered counters have moved unless [T] is an
    idle task, and the manager is blocked by [which] exactly if [T] is a
    barrier task.  In between, [T] is the only task on the queue and the
    monitor is free. *)
Theorem add_task_then_get_task (U : bool) (which : Z)
    (h : gmap positive GCTask) (m : GCTaskManager.t)
    (p : positive) (t : GCTask) :
  queue_repr h (GCTaskManager.queue m) [] →
  GCTaskManager.blocking_worker m = sentinel_worker →
  which ≠ sentinel_worker →
  h !! p = Some t → older t = None → newer t = None →
  ∃ h1 m1,
    GCTaskManager.add_task (Some p) h m = Ok (h1, m1)
    ∧ queue_repr h1 (GCTaskManager.queue m1) [p]
    ∧ GCTaskManager.monitor_owned m1 = false
    ∧ ∀ ws,
        GCTaskManager.get_task U which h1 m1 ws
        = Ok (h,
              delivery m t
                (if is_barrier_task t then which else sentinel_worker)
                (GCTaskManager.queue m),
              Some p).
Proof.
  intros Hrepr Hb Hns Hp Ho Hn.
  destruct (enqueue_spec h _ [] p t Hrepr Hp Ho Hn) as
    (h1 & q1 & Henq & Hrepr1 & Hfr1 & Hpay1);
    [set_solver | simpl; unfold uint_modulus; lia |].
  simpl in Hrepr1, Hfr1.
  set (m1 := GCTaskManager.unlock
               (GCTaskManager.set_queue (GCTaskManager.lock m) q1)).
  exists h1, m1. split.
  { unfold GCTaskManager.add_task.
    change (GCTaskManager.queue (GCTaskManager.lock m))
      with (GCTaskManager.queue m).
    by rewrite Henq. }
  split; [done|]. split; [done|]. intros ws.
  destruct (get_task_delivers U which h1 m1 [p] ws) as
    (h' & q' & l1 & r & l2 & tr & Hl & _ & Hrepr' & Htr & Ho' & Hn' & Hfr'
     & Hpay' & _ & _ & Hget); [done..|].
  assert (l1 = [] ∧ r = p ∧ l2 = []) as (-> & -> & ->).
  { destruct l1 as [|x [|y l1]]; simpl in Hl; by simplify_eq. }
  simpl in Hrepr'.
  assert (h' = h) as ->.
  { apply (heap_restored h h' [p]).
    - by eapply same_payload_trans.
    - by eapply frame_trans.
    - intros a t0 t' ->%list_elem_of_singleton Ht0 Ht'. simplify_eq.
      by rewrite Ho, Hn, Ho', Hn'. }
  assert (tr = t) as -> by congruence.
  rewrite Hget. do 2 f_equal.
  rewrite (queue_repr_nil_inv _ _ Hrepr'), (queue_repr_nil_inv _ _ Hrepr).
  unfold delivery. simpl. by rewrite Hb.
Qed.

(** * The monitor supply and the wait helper *)

Lemma last_removelast_snoc (fl : list positive) i :
  last (fl ++ [i]) = Some i ∧ removelast (fl ++ [i]) = fl.
Proof. split; [apply last_snoc | apply removelast_last]. Qed.

Lemma last_Some_removelast (fl : list positive) top :
  last fl = Some top → removelast fl ++ [top] = fl.
Proof.
  intros [l' ->]%last_Some. by rewrite removelast_last.
Qed.

(** X11.  Monitors are reused, last released first.  On a supply that
    has been used before, [release(i)] of an unlocked monitor followed by
    [reserve()] returns [i] and leaves the supply as it was, without
    allocating; and [reserve()] followed by [release] of the monitor it
    returned leaves the supply as it was if a monitor was free, and
    otherwise holding exactly the newly allocated one. *)
Theorem monitor_supply_reuse (is_locked : positive → bool)
    (s : MonitorSupply.t) (fl : list positive) (i new_monitor : positive) :
  MonitorSupply.lock_created s = true →
  MonitorSupply.freelist s = Some fl →
  is_locked i = false →
  (∃ s1, MonitorSupply.release is_locked (Some i) s = Ok s1
     ∧ MonitorSupply.freelist s1 = Some (fl ++ [i])
     ∧ MonitorSupply.reserve new_monitor is_locked s1 = Ok (s, Some i))
  ∧ (∀ top, last fl = Some top → is_locked top = false →
     ∃ s1, MonitorSupply.reserve new_monitor is_locked s = Ok (s1, Some top)
       ∧ MonitorSupply.freelist s1 = Some (removelast fl)
       ∧ MonitorSupply.release is_locked (Some top) s1 = Ok s)
  ∧ (fl = [] → is_locked new_monitor = false →
     MonitorSupply.reserve new_monitor is_locked s = Ok (s, Some new_monitor)
     ∧ ∃ s2, MonitorSupply.release is_locked (Some new_monitor) s = Ok s2
         ∧ MonitorSupply.freelist s2 = Some [new_monitor]).
Proof.
  intros Hlock Hfl Hi. destruct s as [lk f]. simpl in *. subst.
  split; [|split].
  - exists {| MonitorSupply.lock_created := true;
              MonitorSupply.freelist := Some (fl ++ [i]) |}.
    unfold MonitorSupply.release, MonitorSupply.reserve. simpl.
    destruct (last_removelast_snoc fl i) as [-> ->]. by rewrite Hi.
  - intros top Htop Hlk.
    exists {| MonitorSupply.lock_created := true;
              MonitorSupply.freelist := Some (removelast fl) |}.
    unfold MonitorSupply.reserve, MonitorSupply.release. simpl.
    rewrite Htop. simpl. rewrite Hlk. simpl.
    by rewrite (last_Some_removelast _ _ Htop).
  - intros -> Hlk. unfold MonitorSupply.reserve, MonitorSupply.release.
    simpl. rewrite Hlk. simpl. split; [done|]. by eexists.
Qed.

Lemma reserve_inv (is_locked : positive → bool)
    (s s' : MonitorSupply.t) (new_monitor : positive)
    (result : option positive) :
  MonitorSupply.reserve new_monitor is_locked s = Ok (s', result) →
  ∃ r, result = Some r ∧ is_locked r = false
    ∧ MonitorSupply.lock_created s' = true
    ∧ ∃ fl', MonitorSupply.freelist s' = Some fl'
        ∧ ((MonitorSupply.freelist s = Some (fl' ++ [r]))
           ∨ (r = new_monitor ∧ fl' = []
              ∧ (MonitorSupply.freelist s = None
                 ∨ MonitorSupply.freelist s = Some []))).
Proof.
  intros H.
  destruct s as [lk [fl|]]; unfold MonitorSupply.reserve in H;
    destruct lk; simpl in H.
  1,2: destruct (last fl) as [top|] eqn:Htop; simpl in H;
    [ destruct (is_locked top) eqn:Hlk; simpl in H; [done|];
      simplify_eq; exists top; simpl;
      split; [done|]; split; [done|]; split; [done|];
      exists (removelast fl); split; [done|]; left;
      by rewrite (last_Some_removelast _ _ Htop)
    | apply last_None in Htop as ->;
      destruct (is_locked new_monitor) eqn:Hlk; simpl in H; [done|];
      simplify_eq; exists new_monitor; simpl;
      split; [done|]; split; [done|]; split; [done|];
      exists []; split; [done|]; right;
      split; [done|]; split; [done|]; by right ].
  all: destruct (is_locked new_monitor) eqn:Hlk; simpl in H; [done|];
    simplify_eq; exists new_monitor; simpl;
    split; [done|]; split; [done|]; split; [done|];
    exists []; split; [done|]; right;
    split; [done|]; split; [done|]; by left.
Qed.

(** X12.  Whatever the state of the supply, a [reserve()] that returns
    hands out a monitor that is not NULL and not locked, and leaves the
    supply initialized (mutex created, free list present); the monitor
    is the one released last among those free, or the new one if none
    was free.  A supply that has never been used is initialized by its
    first [reserve()], which allocates. *)
Theorem monitor_supply_reserve (is_locked : positive → bool)
    (s s' : MonitorSupply.t) (new_monitor : positive)
    (result : option positive) :
  MonitorSupply.reserve new_monitor is_locked s = Ok (s', result) →
  (∃ r, result = Some r ∧ is_locked r = false
     ∧ MonitorSupply.lock_created s' = true
     ∧ ∃ fl', MonitorSupply.freelist s' = Some fl'
         ∧ ((MonitorSupply.freelist s = Some (fl' ++ [r]))
            ∨ (r = new_monitor ∧ fl' = []
               ∧ (MonitorSupply.freelist s = None
                  ∨ MonitorSupply.freelist s = Some []))))
  ∧ (is_locked new_monitor = false →
     MonitorSupply.reserve new_monitor is_locked MonitorSupply.uninitialized
     = Ok ({| MonitorSupply.lock_created := true;
              MonitorSupply.freelist := Some [] |}, Some new_monitor)).
Proof.
  intros H. split; [by eapply reserve_inv|].
  intros Hlk. unfold MonitorSupply.reserve. simpl. by rewrite Hlk.
Qed.

Lemma wait_loop_spurious (wh : WaitHelper.t) spurious rest :
  WaitHelper.should_wait wh = true → is_Some (WaitHelper.monitor wh) →
  Forall (λ w, WaitHelper.should_wait w = true
               ∧ is_Some (WaitHelper.monitor w)) spurious →
  WaitHelper.wait_loop wh (spurious ++ rest)
  = match rest with
    | [] => Waiting
    | w :: rest' => WaitHelper.wait_loop w rest'
    end.
Proof.
  revert wh. induction spurious as [|w spurious IH]; intros wh Hw [mon Hm] Hsp.
  - destruct rest; simpl; by rewrite Hw, Hm.
  - apply Forall_cons in Hsp as [[Hw' Hm'] Hsp].
    simpl. rewrite Hw, Hm. by apply IH.
Qed.

(** X13.  The wait helper does not lose a notification and tolerates
    spurious wake-ups.  For a helper that holds a monitor: a
    [wait_for] that comes after the [notify] returns without waiting;
    a [wait_for] on a helper that is not notified waits, through any
    number of wake-ups that find the flag still set, and returns at the
    first wake-up that finds it cleared; with [reset] the flag is set
    again on return, so that the next [wait_for] waits for a new
    [notify]; without [reset] it stays cleared. *)
Theorem wait_helper_handshake (wh : WaitHelper.t) (mon : positive) :
  WaitHelper.monitor wh = Some mon →
  (∃ wh1, WaitHelper.notify wh = Ok wh1
     ∧ WaitHelper.should_wait wh1 = false
     ∧ WaitHelper.monitor wh1 = Some mon
     ∧ ∀ reset ws,
         WaitHelper.wait_for reset wh1 ws
         = Ok (WaitHelper.set_should_wait wh1 reset))
  ∧ (WaitHelper.should_wait wh = true →
     ∀ reset spurious,
       Forall (λ w, WaitHelper.should_wait w = true
                    ∧ is_Some (WaitHelper.monitor w)) spurious →
       WaitHelper.wait_for reset wh spurious = Waiting
       ∧ ∀ notified rest,
           WaitHelper.should_wait notified = false →
           WaitHelper.wait_for reset wh (spurious ++ notified :: rest)
           = Ok (WaitHelper.set_should_wait notified reset)
           ∧ (is_Some (WaitHelper.monitor notified) →
              WaitHelper.wait_for reset
                (WaitHelper.set_should_wait notified reset) []
              = if reset then Waiting else Ok notified)).
Proof.
  intros Hmon. split.
  - exists (WaitHelper.set_should_wait wh false).
    unfold WaitHelper.notify. simpl. rewrite Hmon.
    split; [done|]. split; [done|]. split; [done|].
    intros reset ws. unfold WaitHelper.wait_for.
    destruct ws; simpl; by destruct reset.
  - intros Hw reset spurious Hsp. split.
    + unfold WaitHelper.wait_for.
      pose proof (wait_loop_spurious wh spurious [] Hw) as E.
      rewrite app_nil_r in E. by rewrite E.
    + intros notified rest Hn. unfold WaitHelper.wait_for.
      rewrite (wait_loop_spurious wh spurious (notified :: rest)) by done.
      assert (Hret : WaitHelper.wait_loop notified rest = Ok notified)
        by (destruct rest; simpl; by rewrite Hn).
      rewrite Hret. simpl. split.
      * destruct reset; [done|]. destruct notified. simpl in *. by subst.
      * intros [mon' Hm']. destruct notified as [nm nw]. simpl in *. subst.
        by destruct reset.
Qed.

(** X14.  A wait helper gives its monitor back once.
    [release_monitor()] of a helper made by the constructor returns the
    monitor to the supply and clears the helper's pointer; a second
    [release_monitor()] (the destructor after an explicit release) fails
    the assertion; and the next helper constructed gets the very monitor
    that was given back, leaving the supply as the first constructor
    left it. *)
Theorem wait_helper_release_once (is_locked : positive → bool)
    (new_monitor new_monitor' : positive)
    (s s1 : MonitorSupply.t) (wh : WaitHelper.t) :
  WaitHelper.create new_monitor is_locked s = Ok (s1, wh) →
  WaitHelper.should_wait wh = true
  ∧ ∃ mon s2 wh',
      WaitHelper.monitor wh = Some mon
      ∧ WaitHelper.release_monitor is_locked wh s1 = Ok (s2, wh')
      ∧ WaitHelper.monitor wh' = None
      ∧ WaitHelper.release_monitor is_locked wh' s2 = AssertFail EmptyString
      ∧ WaitHelper.create new_monitor' is_locked s2 = Ok (s1, wh).
Proof.
  unfold WaitHelper.create. intros H.
  destruct (MonitorSupply.reserve new_monitor is_locked s)
    as [[s0 res]| | | |] eqn:Hres; simpl in H; try done.
  simplify_eq. split; [done|].
  apply reserve_inv in Hres as (r & -> & Hlk & Hcreated & fl' & Hfl' & _).
  destruct s1 as [lk f]. simpl in *. subst.
  exists r. eexists _, _. split; [done|].
  unfold WaitHelper.release_monitor, MonitorSupply.release. simpl.
  rewrite Hlk. simpl. split; [done|]. split; [done|]. split; [done|].
  unfold MonitorSupply.reserve. simpl.
  destruct (last_removelast_snoc fl' r) as [-> ->]. simpl. rewrite Hlk.
  done.
Qed.

(** * Idle workers *)

Lemma set_idle_workers_same (m : GCTaskManager.t) :
  GCTaskManagerIdle.set_idle_workers m (GCTaskManager.idle_workers m) = m.
Proof. by destruct m. Qed.

Lemma set_idle_workers_twice (m : GCTaskManager.t) x y :
  GCTaskManagerIdle.set_idle_workers
    (GCTaskManagerIdle.set_idle_workers m x) y
  = GCTaskManagerIdle.set_idle_workers m y.
Proof. done. Qed.

Lemma idle_loop_step rounds i bound dyn gc
    (new_task : gmap positive GCTask → positive) h m q :
  (i <? bound) = true →
  GCTaskManagerIdle.idle_loop (S rounds) i bound dyn gc new_task h m q
  = '(h, task) ← IdleGCTask.create_on_c_heap dyn gc new_task h;
    '(h, q) ← GCTaskQueue.enqueue (Some task) h q;
    GCTaskManagerIdle.idle_loop rounds (uint_incr i) bound dyn gc new_task h
      (GCTaskManagerIdle.increment_idle_workers m) q.
Proof. intros Hgo. simpl. by rewrite Hgo. Qed.

Lemma create_on_c_heap_fresh gc
    (new_task : gmap positive GCTask → positive) (h : gmap positive GCTask) :
  h !! new_task h = None →
  IdleGCTask.create_on_c_heap true gc new_task h
  = Ok (<[new_task h := GCTask_initialize Kind.idle_task gc]> h, new_task h).
Proof.
  intros Hf. unfold IdleGCTask.create_on_c_heap, new_GCTask.
  by rewrite Hf.
Qed.

Lemma idle_loop_spec (n : nat) :
  ∀ rounds i bound gc (new_task : gmap positive GCTask → positive) h m q lq,
  (∀ h', h' !! new_task h' = None) →
  (n ≤ rounds)%nat → 0 ≤ i → bound = i + Z.of_nat n → bound < uint_modulus →
  0 ≤ GCTaskManager.idle_workers m →
  GCTaskManager.idle_workers m + Z.of_nat n < uint_modulus →
  queue_repr h q lq →
  Z.of_nat (List.length lq + n) < uint_modulus →
  ∃ h' q' ps,
    GCTaskManagerIdle.idle_loop rounds i bound true gc new_task h m q
    = Ok (h', GCTaskManagerIdle.set_idle_workers m
                (GCTaskManager.idle_workers m + Z.of_nat n), q')
    ∧ queue_repr h' q' (lq ++ ps)
    ∧ List.length ps = n
    ∧ (∀ p, p ∉ lq → is_Some (h !! p) → h' !! p = h !! p)
    ∧ (∀ p t, h !! p = Some t →
         ∃ t', h' !! p = Some t' ∧ payload t' = payload t)
    ∧ (∀ p, p ∈ ps →
         h !! p = None
         ∧ ∃ t, h' !! p = Some t
             ∧ payload t = (Kind.idle_task, sentinel_worker, gc)).
Proof.
  induction n as [|n IH];
    intros rounds i bound gc new_task h m q lq Hfresh Hr Hi Hb Hbm Hidle
      Hidle' Hrepr Hroom.
  - exists h, q, []. rewrite app_nil_r, Z.add_0_r, set_idle_workers_same.
    assert (Hdone : (i <? bound) = false) by (apply Z.ltb_ge; lia).
    split; [destruct rounds; simpl; by rewrite Hdone|].
    split; [done|]. split; [done|]. split; [done|].
    split; [intros p t Hp; by exists t|]. intros p Hp. set_solver.
  - destruct rounds as [|rounds]; [lia|].
    assert (Hgo : (i <? bound) = true) by (apply Z.ltb_lt; lia).
    set (p := new_task h).
    set (t0 := GCTask_initialize Kind.idle_task gc).
    set (h1 := <[p := t0]> h).
    assert (Hp1 : h1 !! p = Some t0) by apply lookup_insert_eq.
    assert (Hpl : p ∉ lq).
    { intros Hin. destruct Hrepr as [Hd _ _ _ _ _].
      destruct (dseg_is_Some h _ _ _ _ Hd Hin) as [x Hx].
      unfold p in Hx. by rewrite Hfresh in Hx. }
    assert (Hrepr1 : queue_repr h1 q lq).
    { apply (queue_repr_frame h h1 q lq [p]); [done| |set_solver].
      apply frame_insert. set_solver. }
    destruct (enqueue_spec h1 q lq p t0 Hrepr1 Hp1) as
      (h2 & q2 & Henq & Hrepr2 & Hfr2 & Hpay2); [done|done|done|lia|].
    destruct (IH rounds (uint_incr i) bound gc new_task h2
                (GCTaskManagerIdle.increment_idle_workers m) q2 (lq ++ [p]))
      as (h' & q' & ps & Hloop & Hrepr' & Hlen & Hkeep & Hext & Hnew).
    + done.
    + lia.
    + unfold uint_incr. apply Z.mod_pos. unfold uint_modulus. lia.
    + unfold uint_incr. rewrite Z.mod_small; lia.
    + done.
    + simpl. unfold uint_incr. apply Z.mod_pos. unfold uint_modulus. lia.
    + simpl. unfold uint_incr. rewrite Z.mod_small; lia.
    + done.
    + rewrite length_app. simpl. lia.
    + exists h', q', (p :: ps).
      split.
      { rewrite (idle_loop_step _ _ _ _ _ _ _ _ _ Hgo).
        rewrite (create_on_c_heap_fresh _ _ _ (Hfresh h)), bind_Ok.
        cbn beta iota. fold p t0 h1. rewrite Henq, bind_Ok.
        cbn beta iota. rewrite Hloop.
        simpl. unfold uint_incr. rewrite Z.mod_small by lia.
        unfold GCTaskManagerIdle.increment_idle_workers.
        rewrite set_idle_workers_twice.
        replace (GCTaskManager.idle_workers m + 1 + Z.of_nat n)
          with (GCTaskManager.idle_workers m + Z.of_nat (S n)) by lia.
        done. }
      split; [by rewrite <- app_assoc in Hrepr'|].
      split; [simpl; lia|].
      assert (Hne : ∀ a, is_Some (h !! a) → a ≠ p).
      { intros a [x Hx] ->. unfold p in Hx. by rewrite Hfresh in Hx. }
      assert (H12 : ∀ a, a ∉ lq → is_Some (h !! a) → h2 !! a = h !! a).
      { intros a Ha Hs. rewrite Hfr2 by (pose proof (Hne a Hs); set_solver).
        apply lookup_insert_ne. intros ->. by apply (Hne a). }
      split.
      { intros a Ha Hs. rewrite <- (H12 a Ha Hs). apply Hkeep.
        - pose proof (Hne a Hs). set_solver.
        - by rewrite (H12 a Ha Hs). }
      assert (Hext1 : ∀ a t, h1 !! a = Some t →
                ∃ t', h' !! a = Some t' ∧ payload t' = payload t).
      { intros a t Ha.
        destruct (same_payload_lookup h1 h2 a t Hpay2 Ha) as (t2 & Ht2 & E2).
        destruct (Hext a t2 Ht2) as (t' & Ht' & E'). exists t'.
        split; [done|]. congruence. }
      split.
      { intros a t Ha. apply Hext1. unfold h1.
        rewrite lookup_insert_ne; [done|].
        intros ->. by apply (Hne a). }
      intros a [->|Ha]%elem_of_cons.
      * split; [apply Hfresh|]. apply (Hext1 p t0 Hp1).
      * destruct (Hnew a Ha) as (Hnone & t & Ht & Et).
        split; [|by exists t].
        destruct (h !! a) as [x|] eqn:Hx; [|done].
        assert (Hap : p ≠ a) by (apply not_eq_sym, Hne; by eexists).
        assert (Hs2 : is_Some (h2 !! a)).
        { specialize (Hpay2 a). unfold h1 in Hpay2.
          rewrite lookup_insert_ne in Hpay2 by done.
          rewrite Hx in Hpay2. destruct (h2 !! a); [done|done]. }
        rewrite Hnone in Hs2. by destruct Hs2.
Qed.

Lemma more_inactive_value c a i :
  0 ≤ a → 0 ≤ i → c < uint_modulus → a + i ≤ c → c - a - i < 2 ^ 31 →
  to_int (uint_sub (uint_sub c a) i) = c - a - i
  ∧ to_uint (c - a - i) = c - a - i.
Proof.
  intros Ha Hi Hc Hle Hk. unfold to_int, to_uint, uint_sub, uint_modulus in *.
  rewrite (Z.mod_small (c - a)) by lia.
  rewrite !(Z.mod_small (c - a - i)) by lia.
  split; [|done]. destruct (Z.ltb_spec (c - a - i) (2 ^ 31)); [done|lia].
Qed.

(** X15.  When the workers created are at least the workers requested
    plus the workers already idle, [task_idle_workers()] creates one idle
    task for each worker in excess, on fresh addresses, and appends them
    to the manager's queue behind the tasks already queued; it counts
    them as idle, so that afterwards created = active + idle and the
    assertion passes; it sets the wait helper's flag, leaves the tasks
    that existed where they were with their kind, affinity and gc id,
    and does not call [update_active_workers]. *)
Theorem task_idle_workers_parks_inactive (gc : Z)
    (new_task : gmap positive GCTask → positive)
    (update_active_workers : Z → GCTaskManager.t → outcome GCTaskManager.t)
    (h : gmap positive GCTask) (m : GCTaskManager.t) (wh : WaitHelper.t)
    (l : list positive) :
  let created := GCTaskManager.created_workers m in
  let active := GCTaskManager.active_workers m in
  let idle := GCTaskManager.idle_workers m in
  (∀ h', h' !! new_task h' = None) →
  queue_repr h (GCTaskManager.queue m) l →
  0 ≤ active → 0 ≤ idle → created < uint_modulus →
  active + idle ≤ created → created - active - idle < 2 ^ 31 →
  Z.of_nat (List.length l) + (created - active - idle) < uint_modulus →
  ∃ h' q' ps,
    GCTaskManagerIdle.task_idle_workers true gc new_task
      update_active_workers h m wh
    = Ok (h',
          GCTaskManager.unlock
            (GCTaskManager.set_queue
               (GCTaskManagerIdle.set_idle_workers m (created - active)) q'),
          WaitHelper.set_should_wait wh true)
    ∧ Z.of_nat (List.length ps) = created - active - idle
    ∧ queue_repr h' q' (l ++ ps)
    ∧ (∀ p, p ∈ ps →
         h !! p = None
         ∧ ∃ t, h' !! p = Some t
             ∧ payload t = (Kind.idle_task, sentinel_worker, gc))
    ∧ (∀ p t, h !! p = Some t →
         ∃ t', h' !! p = Some t' ∧ payload t' = payload t).
Proof.
  intros created active idle Hfresh Hrepr Ha Hi Hc Hle Hk Hroom.
  destruct (more_inactive_value created active idle) as [Hint Huint];
    [done..|].
  set (k := created - active - idle) in *.
  set (m0 := GCTaskManager.unlock (GCTaskManager.lock m)).
  destruct (idle_loop_spec (Z.to_nat k) (Z.to_nat k) 0 k gc new_task h m0
              GCTaskQueue.initialize [])
    as (h1 & q1 & ps & Hloop & Hrepr1 & Hlen & Hkeep & Hext & Hnew);
    [done|lia|lia|lia|lia|done|simpl; fold idle; lia|apply empty_queue_repr
    |simpl; lia|].
  simpl in Hrepr1.
  assert (Hrepr' : queue_repr h1 (GCTaskManager.queue m) l).
  { destruct Hrepr as [Hd Hnd Hre Hie Hlen' Hb]. split; try done.
    eapply dseg_frame; [|done]. intros a Hin.
    apply Hkeep; [set_solver|]. by eapply dseg_is_Some. }
  assert (Hnd : NoDup (l ++ ps)).
  { apply NoDup_app. split; [apply Hrepr|]. split; [|apply Hrepr1].
    intros a Hin Hps. destruct (Hnew a Hps) as [Hnone _].
    destruct Hrepr as [Hd _ _ _ _ _].
    destruct (dseg_is_Some h _ _ _ _ Hd Hin) as [x Hx]. congruence. }
  destruct (enqueue_list_spec h1 (GCTaskManager.queue m) q1 l ps Hrepr' Hrepr1
              Hnd) as (h' & q' & lst' & Henq & Hq' & _ & _ & _ & _ & Hpay);
    [lia|].
  exists h', q', ps.
  split.
  { unfold GCTaskManagerIdle.task_idle_workers.
    cbv zeta. fold created active idle.
    change (GCTaskManager.created_workers (GCTaskManager.lock m))
      with created.
    change (GCTaskManager.active_workers (GCTaskManager.lock m))
      with active.
    change (GCTaskManager.idle_workers (GCTaskManager.lock m))
      with idle.
    rewrite Hint. fold k.
    destruct (Z.ltb_spec k 0) as [|_]; [lia|].
    rewrite bind_Ok. cbn beta iota. rewrite Huint. fold m0.
    rewrite Hloop, bind_Ok. cbn beta iota.
    assert (Hsum : (GCTaskManager.created_workers
                     (GCTaskManagerIdle.set_idle_workers m0
                        (GCTaskManager.idle_workers m0 + Z.of_nat (Z.to_nat k)))
                   =? uint_add
                        (GCTaskManager.active_workers
                           (GCTaskManagerIdle.set_idle_workers m0
                              (GCTaskManager.idle_workers m0
                               + Z.of_nat (Z.to_nat k))))
                        (GCTaskManager.idle_workers
                           (GCTaskManagerIdle.set_idle_workers m0
                              (GCTaskManager.idle_workers m0
                               + Z.of_nat (Z.to_nat k))))) = true).
    { simpl. fold created active idle. apply Z.eqb_eq.
      unfold uint_add. rewrite Z.mod_small; lia. }
    rewrite Hsum. simpl assert. rewrite bind_Ok.
    unfold GCTaskManager.add_list. cbv zeta.
    change (GCTaskManager.queue
              (GCTaskManager.lock
                 (GCTaskManagerIdle.set_idle_workers m0
                    (GCTaskManager.idle_workers m0 + Z.of_nat (Z.to_nat k)))))
      with (GCTaskManager.queue m).
    rewrite Henq, !bind_Ok. cbn beta iota.
    simpl. fold idle.
    replace (idle + Z.of_nat (Z.to_nat k)) with (created - active) by lia.
    done. }
  split; [lia|]. split; [done|]. split.
  - intros p Hp. destruct (Hnew p Hp) as (Hnone & t & Ht & Et).
    split; [done|].
    destruct (same_payload_lookup h1 h' p t Hpay Ht) as (t' & Ht' & Et').
    exists t'. split; [done|]. congruence.
  - intros p t Hp. destruct (Hext p t Hp) as (t1 & Ht1 & Et1).
    destruct (same_payload_lookup h1 h' p t1 Hpay Ht1) as (t' & Ht' & Et').
    exists t'. split; [done|]. congruence.
Qed.

Lemma to_uint_to_int z : to_uint (to_int z) = z mod uint_modulus.
Proof.
  unfold to_uint, to_int.
  destruct (z mod uint_modulus <? 2 ^ 31).
  - apply Z.mod_mod. unfold uint_modulus. lia.
  - rewrite <- (Z.mod_add _ 1), Z.mul_1_l, Z.sub_add
      by (unfold uint_modulus; lia).
    apply Z.mod_mod. unfold uint_modulus. lia.
Qed.

Lemma reduced_active_value c a i :
  0 ≤ a < uint_modulus → 0 ≤ i ≤ c → c < uint_modulus →
  c < a + i → a + i - c ≤ 2 ^ 31 →
  to_int (uint_sub (uint_sub c a) i) = c - a - i
  ∧ to_uint (to_int (uint_add a (to_uint (c - a - i)))) = c - i.
Proof.
  intros Ha Hi Hc Hlt Hk. split.
  - unfold to_int, uint_sub. rewrite Zminus_mod_idemp_l.
    replace ((c - a - i) mod uint_modulus) with (c - a - i + uint_modulus).
    + unfold uint_modulus in *.
      rewrite (Z.mod_small (c - a - i + 2 ^ 32)) by lia.
      destruct (Z.ltb_spec (c - a - i + 2 ^ 32) (2 ^ 31)); lia.
    + rewrite <- (Z.mod_add _ 1), Z.mul_1_l by (unfold uint_modulus; lia).
      symmetry. apply Z.mod_small. unfold uint_modulus in *. lia.
  - rewrite to_uint_to_int. unfold uint_add, to_uint.
    rewrite Z.mod_mod by (unfold uint_modulus; lia).
    rewrite Zplus_mod_idemp_r.
    replace (a + (c - a - i)) with (c - i) by lia.
    apply Z.mod_small. lia.
Qed.

(** X16.  When more workers are idle than the request for active workers
    leaves room for, [task_idle_workers()] asks
    [update_active_workers] for created - idle active workers and
    creates no idle task: it returns exactly when that call returns a
    manager in which created = active + idle, and then the heap is as it
    was, the manager is the one the call returned (monitor given back),
    and the wait helper's flag is set. *)
Theorem task_idle_workers_reduces_active (gc : Z)
    (new_task : gmap positive GCTask → positive)
    (update_active_workers : Z → GCTaskManager.t → outcome GCTaskManager.t)
    (h h' : gmap positive GCTask) (m m' : GCTaskManager.t)
    (wh wh' : WaitHelper.t) :
  let created := GCTaskManager.created_workers m in
  let active := GCTaskManager.active_workers m in
  let idle := GCTaskManager.idle_workers m in
  0 ≤ active < uint_modulus → 0 ≤ idle ≤ created → created < uint_modulus →
  created < active + idle → active + idle - created ≤ 2 ^ 31 →
  GCTaskManagerIdle.task_idle_workers true gc new_task
    update_active_workers h m wh = Ok (h', m', wh')
  ↔ ∃ m1,
      update_active_workers (created - idle) (GCTaskManager.lock m) = Ok m1
      ∧ GCTaskManager.created_workers m1
        = uint_add (GCTaskManager.active_workers m1)
                   (GCTaskManager.idle_workers m1)
      ∧ h' = h ∧ m' = GCTaskManager.unlock m1
      ∧ wh' = WaitHelper.set_should_wait wh true.
Proof.
  intros created active idle Ha Hi Hc Hlt Hk.
  destruct (reduced_active_value created active idle) as [Hint Hred];
    [done..|].
  unfold GCTaskManagerIdle.task_idle_workers. cbv zeta.
  change (GCTaskManager.created_workers (GCTaskManager.lock m)) with created.
  change (GCTaskManager.active_workers (GCTaskManager.lock m)) with active.
  change (GCTaskManager.idle_workers (GCTaskManager.lock m)) with idle.
  rewrite Hint. destruct (Z.ltb_spec (created - active - idle) 0); [|lia].
  rewrite Hred.
  destruct (update_active_workers (created - idle) (GCTaskManager.lock m))
    as [m1| | | |] eqn:Hupd; simpl;
    try (split; [done | by intros (? & ? & _)]).
  destruct (Z.eqb_spec (GCTaskManager.created_workers m1)
              (uint_add (GCTaskManager.active_workers m1)
                        (GCTaskManager.idle_workers m1))) as [Hsum|Hsum];
    simpl.
  - split.
    + intros ?. simplify_eq. exists m1. by destruct m1.
    + intros (m2 & ? & _ & -> & -> & ->). simplify_eq. by destruct m2.
  - split; [done|]. intros (m2 & ? & ? & _). by simplify_eq.
Qed.

(** ** The idle task *)

Lemma idle_wait_spurious (m : GCTaskManager.t) (wh : WaitHelper.t)
    spurious rest :
  WaitHelper.should_wait wh = true →
  Forall (λ w : GCTaskManager.t * WaitHelper.t,
            WaitHelper.should_wait w.2 = true) spurious →
  GCTaskManagerIdle.idle_wait m wh (spurious ++ rest)
  = match rest with
    | [] => Waiting
    | (m', wh') :: rest' =>
        GCTaskManagerIdle.idle_wait (GCTaskManager.lock m') wh' rest'
    end.
Proof.
  revert m wh. induction spurious as [|[m1 w1] spurious IH];
    intros m wh Hw Hsp.
  - destruct rest as [|[m' wh'] rest]; simpl; by rewrite Hw.
  - apply Forall_cons in Hsp as [Hw1 Hsp]. simpl. rewrite Hw.
    by apply IH.
Qed.

Lemma idle_wait_returns (m m' : GCTaskManager.t) (wh wh' : WaitHelper.t) ws :
  GCTaskManagerIdle.idle_wait m wh ws = Ok (m', wh') →
  WaitHelper.should_wait wh' = false
  ∧ ((m', wh') = (m, wh)
     ∨ ∃ m1, (m1, wh') ∈ ws ∧ m' = GCTaskManager.lock m1).
Proof.
  revert m wh. induction ws as [|[m1 w1] ws IH]; intros m wh H; simpl in H.
  - destruct (WaitHelper.should_wait wh) eqn:Hw; [done|].
    simplify_eq. split; [done|]. by left.
  - destruct (WaitHelper.should_wait wh) eqn:Hw.
    + destruct (IH _ _ H) as [Hf [E|(m2 & Hin & ->)]].
      * simplify_eq. split; [done|]. right. exists m1.
        split; [set_solver|done].
      * split; [done|]. right. exists m2. split; [set_solver|done].
    + simplify_eq. split; [done|]. by left.
Qed.

(** X17.  An idle task holds its worker until the idle workers are
    released.  While the flag of the manager's wait helper is set,
    [IdleGCTask::do_it] waits, through any number of wake-ups that find
    it set; at the first wake-up after a [release_idle_workers()] it
    returns, having decremented [idle_workers] by one and changed
    nothing else of the manager; and it never returns with the flag
    set. *)
Theorem idle_task_parks_until_release (which : Z) (m : GCTaskManager.t)
    (wh : WaitHelper.t)
    (spurious : list (GCTaskManager.t * WaitHelper.t)) :
  WaitHelper.should_wait wh = true →
  Forall (λ w : GCTaskManager.t * WaitHelper.t,
            WaitHelper.should_wait w.2 = true) spurious →
  GCTaskManagerIdle.IdleGCTask_do_it which m wh spurious = Waiting
  ∧ (∀ m1 wh1 rest,
       GCTaskManagerIdle.IdleGCTask_do_it which m wh
         (spurious ++ GCTaskManagerIdle.release_idle_workers m1 wh1 :: rest)
       = Ok (GCTaskManagerIdle.set_idle_workers (GCTaskManager.unlock m1)
               (uint_decr (GCTaskManager.idle_workers m1)),
             WaitHelper.set_should_wait wh1 false))
  ∧ (∀ ws m' wh',
       GCTaskManagerIdle.IdleGCTask_do_it which m wh ws = Ok (m', wh') →
       WaitHelper.should_wait wh' = false
       ∧ ∃ m1, (m1, wh') ∈ ws
           ∧ m' = GCTaskManagerIdle.set_idle_workers (GCTaskManager.unlock m1)
                    (uint_decr (GCTaskManager.idle_workers m1))).
Proof.
  intros Hw Hsp. split; [|split].
  - unfold GCTaskManagerIdle.IdleGCTask_do_it. cbv zeta.
    pose proof (idle_wait_spurious (GCTaskManager.lock m) wh spurious []
                  Hw Hsp) as E.
    rewrite app_nil_r in E. by rewrite E.
  - intros m1 wh1 rest. unfold GCTaskManagerIdle.IdleGCTask_do_it. cbv zeta.
    rewrite (idle_wait_spurious _ _ _ _ Hw Hsp).
    unfold GCTaskManagerIdle.release_idle_workers. cbv zeta.
    by destruct rest.
  - intros ws m' wh' H. unfold GCTaskManagerIdle.IdleGCTask_do_it in H.
    cbv zeta in H.
    destruct (GCTaskManagerIdle.idle_wait (GCTaskManager.lock m) wh ws)
      as [[m2 wh2]| | | |] eqn:Hwait; simpl in H; try done.
    simplify_eq.
    destruct (idle_wait_returns _ _ _ _ _ Hwait) as [Hf [E|(m1 & Hin & ->)]].
    + simplify_eq. congruence.
    + split; [done|]. by exists m1.
Qed.

(** * The barrier task *)

Lemma drain_wait_spurious (m : GCTaskManager.t) spurious rest :
  1 < GCTaskManager.busy_workers m →
  Forall (λ w, 1 < GCTaskManager.busy_workers w) spurious →
  WaitForBarrierGCTask.drain_wait m (spurious ++ rest)
  = match rest with
    | [] => Waiting
    | m' :: rest' =>
        WaitForBarrierGCTask.drain_wait (GCTaskManager.lock m') rest'
    end.
Proof.
  revert m. induction spurious as [|m1 spurious IH]; intros m Hb Hsp.
  - apply Z.ltb_lt in Hb. destruct rest; simpl; by rewrite Hb.
  - apply Forall_cons in Hsp as [Hb1 Hsp]. simpl.
    apply Z.ltb_lt in Hb. rewrite Hb. by apply IH.
Qed.

Lemma drain_wait_returns (m m' : GCTaskManager.t) ws :
  WaitForBarrierGCTask.drain_wait m ws = Ok m' →
  GCTaskManager.busy_workers m' ≤ 1
  ∧ (m' = m ∨ ∃ m1, m1 ∈ ws ∧ m' = GCTaskManager.lock m1).
Proof.
  revert m. induction ws as [|m1 ws IH]; intros m H; simpl in H.
  - destruct (Z.ltb_spec 1 (GCTaskManager.busy_workers m)); [done|].
    simplify_eq. split; [done|]. by left.
  - destruct (Z.ltb_spec 1 (GCTaskManager.busy_workers m)).
    + destruct (IH _ H) as [Hf [->|(m2 & Hin & ->)]].
      * split; [done|]. right. exists m1. split; [set_solver|done].
      * split; [done|]. right. exists m2. split; [set_solver|done].
    + simplify_eq. split; [done|]. by left.
Qed.

(** X18.  A barrier task waits until its worker is the only busy one,
    and only then notifies.  [WaitForBarrierGCTask::do_it] fails the
    assertion if the manager is not blocked.  On a blocked manager it
    waits while more than one worker is busy, through any number of
    wake-ups that find it so, and returns at the first wake-up that
    finds at most one busy worker; whenever it returns, at most one
    worker is busy in the manager it leaves, the monitor is given back,
    and the flag of the task's wait helper is cleared, so that a
    [wait_for] on it returns without waiting. *)
Theorem barrier_task_waits_for_others (which : Z) (m : GCTaskManager.t)
    (wh : WaitHelper.t) (mon : positive) :
  WaitHelper.monitor wh = Some mon →
  (GCTaskManager.is_blocked m = false →
   ∀ ws, WaitForBarrierGCTask.do_it which m wh ws
         = AssertFail "manager isn't blocked")
  ∧ (GCTaskManager.is_blocked m = true →
     (GCTaskManager.busy_workers m ≤ 1 →
      ∀ ws, WaitForBarrierGCTask.do_it which m wh ws
            = Ok (GCTaskManager.unlock m, WaitHelper.set_should_wait wh false))
     ∧ (1 < GCTaskManager.busy_workers m →
        ∀ spurious,
          Forall (λ w, 1 < GCTaskManager.busy_workers w) spurious →
          WaitForBarrierGCTask.do_it which m wh spurious = Waiting
          ∧ ∀ quiet rest,
              GCTaskManager.busy_workers quiet ≤ 1 →
              WaitForBarrierGCTask.do_it which m wh (spurious ++ quiet :: rest)
              = Ok (GCTaskManager.unlock quiet,
                    WaitHelper.set_should_wait wh false))
     ∧ (∀ ws m' wh',
          WaitForBarrierGCTask.do_it which m wh ws = Ok (m', wh') →
          GCTaskManager.busy_workers m' ≤ 1
          ∧ GCTaskManager.monitor_owned m' = false
          ∧ wh' = WaitHelper.set_should_wait wh false
          ∧ ∀ reset ws',
              WaitHelper.wait_for reset wh' ws'
              = Ok (WaitHelper.set_should_wait wh' reset))).
Proof.
  intros Hmon. unfold WaitForBarrierGCTask.do_it,
    WaitForBarrierGCTask.do_it_internal, WaitHelper.notify. cbv zeta.
  change (GCTaskManager.is_blocked (GCTaskManager.lock m))
    with (GCTaskManager.is_blocked m).
  change (GCTaskManager.monitor_owned (GCTaskManager.lock m)) with true.
  change (WaitHelper.monitor (WaitHelper.set_should_wait wh false))
    with (WaitHelper.monitor wh).
  rewrite Hmon. split.
  - intros Hb ws. by rewrite Hb.
  - intros Hb. rewrite Hb. simpl assert. rewrite ?bind_Ok.
    split; [|split].
    + intros Hq ws. apply Z.ltb_ge in Hq.
      destruct ws; simpl; rewrite Hq; simpl; done.
    + intros Hbusy spurious Hsp. split.
      * pose proof (drain_wait_spurious (GCTaskManager.lock m) spurious []
                      Hbusy Hsp) as E.
        rewrite app_nil_r in E. by rewrite E.
      * intros quiet rest Hq.
        rewrite (drain_wait_spurious (GCTaskManager.lock m) spurious
                   (quiet :: rest) Hbusy Hsp).
        apply Z.ltb_ge in Hq. destruct rest; simpl; rewrite Hq; simpl; done.
    + intros ws m' wh' H.
      destruct (WaitForBarrierGCTask.drain_wait (GCTaskManager.lock m) ws)
        as [m2| | | |] eqn:Hwait; simpl in H; try done.
      simplify_eq.
      destruct (drain_wait_returns _ _ _ Hwait) as [Hle _].
      split; [exact Hle|]. split; [done|]. split; [done|].
      intros reset ws'. unfold WaitHelper.wait_for.
      by destruct ws', reset.
Qed.

(** X19.  A barrier cycle on a manager with no busy worker.  The worker
    [which] that calls [get_task] gets the barrier task at the remove end
    of the queue; its [do_it] passes the assertion (the manager is
    blocked) and returns without waiting, the caller being the only busy
    worker; it clears the flag of the wait helper, so that the submitter's
    [wait_for] returns; and the worker's [note_completion] leaves the
    manager unblocked with no busy worker, one more barrier, the rest of
    the queue in place, and [emptied_queue] incremented exactly when
    nothing is queued behind the barrier. *)
Theorem barrier_cycle (U : bool) (which : Z)
    (h : gmap positive GCTask) (m : GCTaskManager.t)
    (b : positive) (l : list positive) (wh : WaitHelper.t) (mon : positive) :
  queue_repr h (GCTaskManager.queue m) (b :: l) → barrier_at h b →
  GCTaskManager.blocking_worker m = sentinel_worker →
  which ≠ sentinel_worker →
  GCTaskManager.busy_workers m = 0 →
  WaitHelper.monitor wh = Some mon →
  ∃ h' m1 m2 m3 wh',
    (∀ ws, GCTaskManager.get_task U which h m ws = Ok (h', m1, Some b))
    ∧ (∀ ws, WaitForBarrierGCTask.do_it which m1 wh ws = Ok (m2, wh'))
    ∧ (∀ reset ws, WaitHelper.wait_for reset wh' ws
                   = Ok (WaitHelper.set_should_wait wh' reset))
    ∧ GCTaskManager.note_completion which m2 = Ok m3
    ∧ GCTaskManager.blocking_worker m3 = sentinel_worker
    ∧ GCTaskManager.busy_workers m3 = 0
    ∧ GCTaskManager.barriers m3 = uint_incr (GCTaskManager.barriers m)
    ∧ queue_repr h' (GCTaskManager.queue m3) l
    ∧ GCTaskManager.emptied_queue m3
      = (if bool_decide (l = [])
         then uint_incr (GCTaskManager.emptied_queue m)
         else GCTaskManager.emptied_queue m).
Proof.
  intros Hrepr Hbar Hb Hns Hbusy Hmon.
  destruct (get_task_delivers_barrier U which h m b l Hrepr Hbar Hb Hns) as
    (h' & q' & tr & Hrepr' & Htr & Hbar' & Hget).
  pose proof (is_barrier_not_idle _ Hbar') as Hidle.
  pose proof (queue_repr_is_empty _ _ _ Hrepr') as Hempty.
  apply Z.eqb_neq in Hns.
  unfold delivery in Hget. rewrite Hidle, Hbusy in Hget.
  eexists h', _, _, _, (WaitHelper.set_should_wait wh false).
  split; [exact Hget|]. split.
  { intros ws. unfold WaitForBarrierGCTask.do_it,
      WaitForBarrierGCTask.do_it_internal, WaitHelper.notify,
      GCTaskManager.is_blocked. simpl.
    rewrite Hns, Hmon. by destruct ws. }
  split; [intros reset ws; by destruct ws, reset|].
  split.
  { unfold GCTaskManager.note_completion,
      GCTaskManager.decrement_busy_workers. simpl.
    rewrite Z.eqb_refl, Hns. simpl. reflexivity. }
  rewrite Hempty.
  destruct (bool_decide (l = [])); simpl; repeat apply conj;
    first [exact Hrepr' | reflexivity].
Qed.

(** * execute_and_wait *)

Lemma create_barrier_fresh gc (new_task : gmap positive GCTask → positive)
    new_monitor is_locked (h : gmap positive GCTask) s s1 wh :
  h !! new_task h = None →
  WaitHelper.create new_monitor is_locked s = Ok (s1, wh) →
  WaitForBarrierGCTask.create gc new_task new_monitor is_locked h s
  = Ok (<[new_task h := GCTask_initialize Kind.wait_for_barrier_task gc]> h,
        s1, new_task h, wh).
Proof.
  intros Hf Hc. unfold WaitForBarrierGCTask.create, new_GCTask.
  rewrite Hf, bind_Ok. cbn beta iota. by rewrite Hc.
Qed.

Lemma create_helper_inv new_monitor is_locked s s1 wh :
  WaitHelper.create new_monitor is_locked s = Ok (s1, wh) →
  WaitHelper.should_wait wh = true ∧ is_Some (WaitHelper.monitor wh).
Proof.
  unfold WaitHelper.create. intros H.
  destruct (MonitorSupply.reserve new_monitor is_locked s)
    as [[s0 res]| | | |] eqn:Hres; simpl in H; try done.
  simplify_eq. split; [done|].
  apply reserve_inv in Hres as (r & -> & _). by eexists.
Qed.

Lemma submit_spec gc (new_task : gmap positive GCTask → positive)
    new_monitor is_locked (h : gmap positive GCTask) m s s1 wh lst l l2 :
  h !! new_task h = None →
  WaitHelper.create new_monitor is_locked s = Ok (s1, wh) →
  queue_repr h (GCTaskManager.queue m) l → queue_repr h lst l2 →
  NoDup (l ++ l2) →
  Z.of_nat (List.length l + List.length l2) + 1 < uint_modulus →
  ∃ h1 q1,
    GCTaskManagerExecute.submit gc new_task new_monitor is_locked h m s lst
    = Ok (h1, GCTaskManager.unlock (GCTaskManager.set_queue m q1), s1, wh,
          GCTaskQueue.initialize, new_task h)
    ∧ queue_repr h1 q1 (l ++ l2 ++ [new_task h])
    ∧ (∃ t, h1 !! new_task h = Some t
         ∧ payload t = (Kind.wait_for_barrier_task, sentinel_worker, gc))
    ∧ (∀ p t, h !! p = Some t →
         ∃ t', h1 !! p = Some t' ∧ payload t' = payload t).
Proof.
  intros Hfresh Hcreate Hrepr Hlst Hnd Hroom.
  set (fin := new_task h).
  set (t0 := GCTask_initialize Kind.wait_for_barrier_task gc).
  set (h0 := <[fin := t0]> h).
  assert (Hfin0 : h0 !! fin = Some t0) by apply lookup_insert_eq.
  assert (Hne : ∀ a, is_Some (h !! a) → a ≠ fin).
  { intros a [x Hx] E. rewrite E in Hx. unfold fin in Hx. congruence. }
  assert (Hfl : fin ∉ l).
  { intros Hin. destruct Hrepr as [Hd _ _ _ _ _].
    by apply (Hne fin (dseg_is_Some h _ _ _ _ Hd Hin)). }
  assert (Hfl2 : fin ∉ l2).
  { intros Hin. destruct Hlst as [Hd _ _ _ _ _].
    by apply (Hne fin (dseg_is_Some h _ _ _ _ Hd Hin)). }
  assert (Hlst0 : queue_repr h0 lst l2).
  { apply (queue_repr_frame h h0 lst l2 [fin]); [done| |set_solver].
    apply frame_insert. set_solver. }
  destruct (enqueue_spec h0 lst l2 fin t0 Hlst0 Hfin0) as
    (h1 & q1 & Henq & Hrepr1 & Hfr1 & Hpay1); [done|done|done|lia|].
  assert (Hdisj : ∀ a, a ∈ l → a ∉ l2 ++ [fin]).
  { apply NoDup_app in Hnd as (_ & Hx & _). intros a Ha Hin.
    apply elem_of_app in Hin as [Hin|Hin]; [by apply (Hx a)|].
    apply list_elem_of_singleton in Hin as ->. done. }
  assert (Hq1 : queue_repr h1 (GCTaskManager.queue m) l).
  { apply (queue_repr_frame h0 h1 _ l (l2 ++ [fin])); [|done|done].
    apply (queue_repr_frame h h0 _ l [fin]); [done| |set_solver].
    apply frame_insert. set_solver. }
  assert (Hnd' : NoDup (l ++ l2 ++ [fin])).
  { rewrite app_assoc. apply NoDup_app. split; [done|].
    split; [|apply NoDup_singleton].
    intros a Ha ->%list_elem_of_singleton. set_solver. }
  destruct (enqueue_list_spec h1 (GCTaskManager.queue m) q1 l (l2 ++ [fin])
              Hq1 Hrepr1 Hnd') as
    (h2 & q2 & lst' & Hadd & Hrepr2 & _ & Hlst' & _ & _ & Hpay2).
  { rewrite length_app. simpl. lia. }
  rewrite decide_False in Hlst' by (by destruct l2).
  subst lst'.
  exists h2, q2. split.
  { unfold GCTaskManagerExecute.submit.
    rewrite (create_barrier_fresh gc new_task _ _ h s s1 wh Hfresh Hcreate).
    rewrite bind_Ok. cbn beta iota. fold fin t0 h0.
    rewrite Henq, bind_Ok. cbn beta iota.
    unfold GCTaskManager.add_list. cbv zeta.
    change (GCTaskManager.queue (GCTaskManager.lock m))
      with (GCTaskManager.queue m).
    rewrite Hadd, !bind_Ok. cbn beta iota. done. }
  split; [done|].
  assert (Hext : ∀ p t, h0 !! p = Some t →
            ∃ t', h2 !! p = Some t' ∧ payload t' = payload t).
  { intros p t Hp.
    destruct (same_payload_lookup h0 h1 p t Hpay1 Hp) as (t1 & Ht1 & E1).
    destruct (same_payload_lookup h1 h2 p t1 Hpay2 Ht1) as (t2 & Ht2 & E2).
    exists t2. split; [done|]. congruence. }
  split; [apply (Hext fin t0 Hfin0)|].
  intros p t Hp. apply Hext. unfold h0.
  rewrite lookup_insert_ne; [done|].
  apply not_eq_sym, Hne. by eexists.
Qed.

Lemma shared_wait_spurious (st : GCTaskManagerExecute.shared) spurious rest :
  WaitHelper.should_wait st.2 = true → is_Some (WaitHelper.monitor st.2) →
  Forall (λ w : GCTaskManagerExecute.shared,
            WaitHelper.should_wait w.2 = true
            ∧ is_Some (WaitHelper.monitor w.2)) spurious →
  GCTaskManagerExecute.wait_loop st (spurious ++ rest)
  = match rest with
    | [] => Waiting
    | w :: rest' => GCTaskManagerExecute.wait_loop w rest'
    end.
Proof.
  revert st. induction spurious as [|w spurious IH]; intros st Hw [mon Hm] Hsp.
  - destruct rest; simpl; by rewrite Hw, Hm.
  - apply Forall_cons in Hsp as [[Hw' Hm'] Hsp].
    simpl. rewrite Hw, Hm. by apply IH.
Qed.

(** X20.  [execute_and_wait(list)] puts a new barrier task behind the
    tasks of the list, and the list behind the tasks the manager has
    queued: when the list has been added, the manager's queue holds the
    tasks that were queued, then the tasks of the list, then the barrier
    task, which is a new task of kind wait_for_barrier_task with the
    current gc id and no affinity; the list is left empty and the tasks
    that existed keep their kind, affinity and gc id.  The thread then
    waits: it does not return before it is woken. *)
Theorem execute_and_wait_queues_barrier_last (gc : Z)
    (new_task : gmap positive GCTask → positive) (new_monitor : positive)
    (is_locked is_locked' : positive → bool)
    (h : gmap positive GCTask) (m : GCTaskManager.t)
    (s s1 : MonitorSupply.t) (wh : WaitHelper.t)
    (lst : GCTaskQueue.t) (l l2 : list positive) :
  h !! new_task h = None →
  WaitHelper.create new_monitor is_locked s = Ok (s1, wh) →
  queue_repr h (GCTaskManager.queue m) l → queue_repr h lst l2 →
  NoDup (l ++ l2) →
  Z.of_nat (List.length l + List.length l2) + 1 < uint_modulus →
  ∃ h1 q1,
    GCTaskManagerExecute.submit gc new_task new_monitor is_locked h m s lst
    = Ok (h1, GCTaskManager.unlock (GCTaskManager.set_queue m q1), s1, wh,
          GCTaskQueue.initialize, new_task h)
    ∧ queue_repr h1 q1 (l ++ l2 ++ [new_task h])
    ∧ (∃ t, h1 !! new_task h = Some t
         ∧ payload t = (Kind.wait_for_barrier_task, sentinel_worker, gc))
    ∧ (∀ p t, h !! p = Some t →
         ∃ t', h1 !! p = Some t' ∧ payload t' = payload t)
    ∧ GCTaskManagerExecute.execute_and_wait gc new_task new_monitor
        is_locked is_locked' h m s lst [] = Waiting.
Proof.
  intros Hfresh Hcreate Hrepr Hlst Hnd Hroom.
  destruct (submit_spec gc new_task new_monitor is_locked h m s s1 wh lst
              l l2 Hfresh Hcreate Hrepr Hlst Hnd Hroom)
    as (h1 & q1 & Hsub & Hq1 & Hfin & Hext).
  destruct (create_helper_inv _ _ _ _ _ Hcreate) as [Hw [mon Hmon]].
  exists h1, q1. do 4 (split; [done|]).
  unfold GCTaskManagerExecute.execute_and_wait.
  rewrite Hsub, bind_Ok. cbn beta iota.
  unfold GCTaskManagerExecute.wait_for. simpl. by rewrite Hw, Hmon.
Qed.

(** X21.  [execute_and_wait(list)] returns only after the barrier task
    has notified, and then gives the task's monitor back.  Once the list
    is added, the thread waits through every wake-up that finds the flag
    of the barrier task's wait helper set.  At the first wake-up that
    finds it cleared, the barrier task is destroyed: if the task is
    still linked into a queue the assertion of [GCTask::destruct] fails;
    otherwise the call returns the heap and the manager as found, with
    the monitor pushed on the free list of the supply. *)
Theorem execute_and_wait_returns_after_notify (gc : Z)
    (new_task : gmap positive GCTask → positive) (new_monitor : positive)
    (is_locked is_locked' : positive → bool)
    (h h1 : gmap positive GCTask) (m m1 : GCTaskManager.t)
    (s s1 : MonitorSupply.t) (wh : WaitHelper.t)
    (lst lst1 : GCTaskQueue.t) (fin : positive) :
  GCTaskManagerExecute.submit gc new_task new_monitor is_locked h m s lst
  = Ok (h1, m1, s1, wh, lst1, fin) →
  ∀ spurious,
    Forall (λ w : GCTaskManagerExecute.shared,
              WaitHelper.should_wait w.2 = true
              ∧ is_Some (WaitHelper.monitor w.2)) spurious →
    GCTaskManagerExecute.execute_and_wait gc new_task new_monitor
      is_locked is_locked' h m s lst spurious = Waiting
    ∧ ∀ h2 m2 s2 wh2 rest t2 mon fl2,
        WaitHelper.should_wait wh2 = false →
        WaitHelper.monitor wh2 = Some mon → is_locked' mon = false →
        MonitorSupply.freelist s2 = Some fl2 →
        h2 !! fin = Some t2 →
        GCTaskManagerExecute.execute_and_wait gc new_task new_monitor
          is_locked is_locked' h m s lst
          (spurious ++ (h2, m2, s2, wh2) :: rest)
        = match older t2, newer t2 with
          | None, None =>
              Ok (h2, m2,
                  {| MonitorSupply.lock_created := MonitorSupply.lock_created s2;
                     MonitorSupply.freelist := Some (fl2 ++ [mon]) |},
                  lst1)
          | Some _, _ => AssertFail "shouldn't have an older task"
          | None, Some _ => AssertFail "shouldn't have a newer task"
          end.
Proof.
  intros Hsub spurious Hsp.
  assert (Hwh : WaitHelper.should_wait wh = true
                ∧ is_Some (WaitHelper.monitor wh)).
  { unfold GCTaskManagerExecute.submit in Hsub.
    apply bind_Ok_inv in Hsub as ([[[h0 s0] fin0] wh0] & Hcr & Hsub).
    cbn beta iota in Hsub.
    apply bind_Ok_inv in Hsub as ([h3 lst3] & _ & Hsub).
    cbn beta iota in Hsub.
    apply bind_Ok_inv in Hsub as ([[h4 m4] lst4] & _ & Hsub).
    cbn beta iota in Hsub. simplify_eq.
    unfold WaitForBarrierGCTask.create in Hcr.
    apply bind_Ok_inv in Hcr as ([h5 r5] & _ & Hcr).
    cbn beta iota in Hcr.
    apply bind_Ok_inv in Hcr as ([s6 wh6] & Hc & Hcr).
    cbn beta iota in Hcr. simplify_eq.
    exact (create_helper_inv _ _ _ _ _ Hc). }
  destruct Hwh as [Hw Hmon].
  unfold GCTaskManagerExecute.execute_and_wait,
    GCTaskManagerExecute.wait_for.
  rewrite Hsub. split.
  - rewrite bind_Ok. cbn beta iota.
    pose proof (shared_wait_spurious (h1, m1, s1, wh) spurious [] Hw Hmon Hsp)
      as E.
    rewrite app_nil_r in E. by rewrite E.
  - intros h2 m2 s2 wh2 rest t2 mon fl2 Hw2 Hmon2 Hlk Hfl Hfin.
    rewrite bind_Ok. cbn beta iota.
    rewrite (shared_wait_spurious (h1, m1, s1, wh) spurious
               ((h2, m2, s2, wh2) :: rest) Hw Hmon Hsp).
    assert (Hret : GCTaskManagerExecute.wait_loop (h2, m2, s2, wh2) rest
                   = Ok (h2, m2, s2, wh2))
      by (destruct rest; simpl; by rewrite Hw2).
    rewrite Hret, bind_Ok. cbn beta iota. simpl fst. simpl snd.
    rewrite bind_Ok. cbn beta iota.
    unfold WaitForBarrierGCTask.destroy, WaitForBarrierGCTask.destruct,
      GCTask_destruct, WaitHelper.release_monitor, MonitorSupply.release.
    rewrite (load_Some _ _ _ Hfin), bind_Ok.
    destruct (older t2), (newer t2); simpl; try done.
    rewrite Hmon2. simpl. rewrite Hlk. simpl. by rewrite Hfl.
Qed.

(** * The further properties at a concrete state *)

Lemma next_free_fresh (h : gmap positive GCTask) : h !! next_free h = None.
Proof.
  unfold next_free. apply (not_elem_of_dom (D := gset positive)).
  apply is_fresh.
Qed.

Lemma barrier_first_barrier_at : barrier_at barrier_first_heap 1%positive.
Proof. eexists. split; [vm_compute; reflexivity|done]. Qed.

Lemma chain_single_NoDup : NoDup ([1; 2; 3]%positive ++ [4%positive]).
Proof. repeat (apply NoDup_cons_2; [set_solver|]). apply NoDup_nil_2. Qed.

(** X1 at the concrete state: the walk for affinity 1 hands out a task
    that destructs. *)
Lemma dequeued_task_destructs_witness :
  queue_repr chain_heap chain_queue [1; 2; 3]%positive
  ∧ [1; 2; 3]%positive ≠ []
  ∧ ∃ h' q' a,
      GCTaskQueue.dequeue_affinity 1 chain_heap chain_queue
      = Ok (h', q', Some a)
      ∧ GCTask_destruct h' a = Ok tt.
Proof.
  split; [apply chain_queue_repr|]. split; [done|].
  destruct (dequeued_task_destructs chain_heap chain_queue [1; 2; 3]%positive
              true 1 chain_queue_repr ltac:(done))
    as (h' & q' & a & Hdq & _ & Hd).
  by exists h', q', a.
Defined.

(** X2 at the concrete state: task 2 is in the middle of the queue. *)
Lemma destruct_on_queue_witness :
  queue_repr chain_heap chain_queue [1; 2; 3]%positive
  ∧ 2%positive ∈ [1; 2; 3]%positive
  ∧ (GCTask_destruct chain_heap 2%positive = Ok tt
     ↔ [1; 2; 3]%positive = [2%positive]).
Proof.
  assert (Hin : 2%positive ∈ [1; 2; 3]%positive) by set_solver.
  split; [apply chain_queue_repr|]. split; [done|].
  apply (destruct_on_queue chain_heap chain_queue [1; 2; 3]%positive
           2%positive chain_queue_repr Hin).
Defined.

(** X3 at the concrete state: tasks 4 and 5 go through an empty queue. *)
Lemma enqueue_dequeue_fifo_witness :
  queue_repr chain_heap GCTaskQueue.initialize []
  ∧ NoDup [4; 5]%positive
  ∧ (∀ p, p ∈ [4; 5]%positive →
       ∃ t, chain_heap !! p = Some t ∧ older t = None ∧ newer t = None)
  ∧ Z.of_nat (List.length [4; 5]%positive) < uint_modulus
  ∧ ∃ h1 q1,
      enqueue_all [4; 5]%positive chain_heap GCTaskQueue.initialize
      = Ok (h1, q1)
      ∧ drain 2 h1 q1
        = Ok (chain_heap, GCTaskQueue.initialize,
              [Some 4%positive; Some 5%positive]).
Proof.
  assert (Hnd : NoDup [4; 5]%positive).
  { repeat (apply NoDup_cons_2; [set_solver|]). apply NoDup_nil_2. }
  assert (Hfree : ∀ p, p ∈ [4; 5]%positive →
            ∃ t, chain_heap !! p = Some t ∧ older t = None ∧ newer t = None).
  { intros p Hp. apply elem_of_cons in Hp as [->|Hp].
    - eexists. split; [vm_compute; reflexivity|done].
    - apply list_elem_of_singleton in Hp as ->.
      eexists. split; [vm_compute; reflexivity|done]. }
  assert (Hb : Z.of_nat (List.length [4; 5]%positive) < uint_modulus)
    by (unfold uint_modulus; simpl; lia).
  split; [apply empty_queue_repr|]. do 3 (split; [done|]).
  destruct (enqueue_dequeue_fifo chain_heap GCTaskQueue.initialize
              [4; 5]%positive (empty_queue_repr _) Hnd Hfree Hb)
    as (h1 & q1 & Henq & _ & Hdrain).
  by exists h1, q1.
Defined.

(** X4 at the concrete state: the walk for affinity 1 passes task 1,
    which is no barrier, and takes task 2. *)
Lemma dequeue_affinity_respects_barriers_witness :
  queue_repr chain_heap chain_queue [1; 2; 3]%positive
  ∧ [1; 2; 3]%positive ≠ []
  ∧ ∃ h' q' l1 a l2,
      [1; 2; 3]%positive = l1 ++ a :: l2
      ∧ GCTaskQueue.dequeue_affinity 1 chain_heap chain_queue
        = Ok (h', q', Some a)
      ∧ Forall (λ p, ¬ barrier_at chain_heap p) l1.
Proof.
  split; [apply chain_queue_repr|]. split; [done|].
  destruct (dequeue_affinity_respects_barriers chain_heap chain_queue
              [1; 2; 3]%positive 1 chain_queue_repr ltac:(done))
    as (h' & q' & l1 & a & l2 & Hl & Hdq & _ & Hpass & _).
  by exists h', q', l1, a, l2.
Defined.

(** X5 at the concrete state: the chain queue is enqueued on itself, and
    the one-task queue behind the chain. *)
Lemma enqueue_list_is_a_splice_witness :
  chain_store !! 1%positive = Some chain_queue
  ∧ chain_store !! 2%positive = Some single_queue
  ∧ (∃ h' qs',
       QueueObjects.enqueue_list 1 1 chain_heap chain_store = Ok (h', qs')
       ∧ qs' !! 1%positive = Some GCTaskQueue.initialize
       ∧ ∃ t1 t3, h' !! 1%positive = Some t1 ∧ older t1 = Some 3%positive
           ∧ h' !! 3%positive = Some t3 ∧ newer t3 = Some 1%positive)
  ∧ ∃ h' qs' q',
      QueueObjects.enqueue_list 1 2 chain_heap chain_store = Ok (h', qs')
      ∧ qs' !! 2%positive = Some GCTaskQueue.initialize
      ∧ qs' !! 1%positive = Some q'
      ∧ GCTaskQueue.insert_end q' = Some 4%positive.
Proof.
  split; [reflexivity|]. split; [reflexivity|]. split.
  - assert (E : ∃ h' qs',
      QueueObjects.enqueue_list 1 1 chain_heap chain_store = Ok (h', qs'))
      by (eexists _, _; vm_compute; reflexivity).
    destruct E as (h' & qs' & E). exists h', qs'. split; [exact E|].
    destruct (enqueue_list_is_a_splice 1 1 chain_heap h' chain_store qs'
                chain_queue chain_queue eq_refl eq_refl E)
      as (_ & _ & _ & _ & Hinit & _ & Hring).
    split; [by apply Hinit|].
    destruct (Hring eq_refl eq_refl)
      as (re & ie & tre & tie & Hre & Hie & H1 & H2 & H3 & H4).
    injection Hre as <-. injection Hie as <-. by exists tre, tie.
  - assert (E : ∃ h' qs',
      QueueObjects.enqueue_list 1 2 chain_heap chain_store = Ok (h', qs'))
      by (eexists _, _; vm_compute; reflexivity).
    destruct E as (h' & qs' & E).
    destruct (enqueue_list_is_a_splice 1 2 chain_heap h' chain_store qs'
                chain_queue single_queue eq_refl eq_refl E)
      as (_ & _ & _ & _ & Hinit & Hother & _).
    destruct (Hother eq_refl ltac:(done)) as (q' & Hq' & Hie & _).
    exists h', qs', q'. split; [exact E|]. split; [by apply Hinit|].
    by split.
Defined.

(** X6 at the concrete state: the plain dequeue of the chain. *)
Lemma dequeue_relinks_neighbours_witness :
  ∃ h' q' r t',
    GCTaskQueue.dequeue chain_heap chain_queue = Ok (h', q', Some r)
    ∧ h' !! r = Some t' ∧ older t' = None ∧ newer t' = None
    ∧ GCTaskQueue.length q' = uint_decr (GCTaskQueue.length chain_queue).
Proof.
  destruct (dequeue_spec chain_heap chain_queue 1%positive [2; 3]%positive
              chain_queue_repr) as (h' & q' & Hdq & _).
  destruct (dequeue_relinks_neighbours false 0 chain_heap h' chain_queue q'
              (Some 1%positive) Hdq)
    as (r & t & t' & Hres & _ & _ & _ & Ht' & Ho & Hn & Hlen & _).
  exists h', q', r, t'. rewrite <- Hres. by repeat split.
Defined.

(** X7 at the concrete state: one task delivered, none completed, one
    worker busy. *)
Lemma counters_stay_balanced_witness :
  counters_inv chain_manager
  ∧ Forall (λ s : gmap positive GCTask * GCTaskManager.t, counters_inv s.2) []
  ∧ ∃ m', GCTaskManager.note_completion 0 chain_manager = Ok m'
      ∧ counters_inv m'.
Proof.
  assert (Hinv : counters_inv chain_manager) by (vm_compute; reflexivity).
  split; [done|]. split; [apply Forall_nil_2|].
  destruct (counters_stay_balanced true 0 chain_heap chain_manager []
              Hinv (Forall_nil_2 _)) as [_ Hnc].
  eexists. split; [vm_compute; reflexivity|].
  apply Hnc. vm_compute; reflexivity.
Defined.

(** X8 at the concrete state: the barrier is the oldest task and worker
    0 gets it. *)
Lemma barrier_blocks_dispatch_witness :
  queue_repr barrier_first_heap (GCTaskManager.queue chain_manager)
    [1; 2; 3]%positive
  ∧ barrier_at barrier_first_heap 1%positive
  ∧ GCTaskManager.blocking_worker chain_manager = sentinel_worker
  ∧ 0 ≠ sentinel_worker
  ∧ 0 <= GCTaskManager.busy_workers chain_manager < uint_modulus - 1
  ∧ ∃ h' m',
      GCTaskManager.get_task true 0 barrier_first_heap chain_manager []
      = Ok (h', m', Some 1%positive)
      ∧ GCTaskManager.blocking_worker m' = 0
      ∧ GCTaskManager.get_task false 1 h' m' [] = Waiting.
Proof.
  assert (Hns : 0 ≠ sentinel_worker) by done.
  assert (Hbusy : 0 <= GCTaskManager.busy_workers chain_manager
                  < uint_modulus - 1) by (unfold uint_modulus; simpl; lia).
  split; [apply barrier_first_repr|]. split; [apply barrier_first_barrier_at|].
  do 3 (split; [done|]).
  destruct (barrier_blocks_dispatch true 0 barrier_first_heap chain_manager
              1%positive [2; 3]%positive barrier_first_repr
              barrier_first_barrier_at eq_refl Hns Hbusy)
    as (h' & m' & Hget & Hblk & _ & Hwait & _).
  exists h', m'. split; [apply Hget|]. split; [done|]. apply Hwait.
Defined.

(** X9 at the concrete state: one of two workers is created. *)
Lemma resource_release_protocol_witness :
  queue_repr chain_heap (GCTaskManager.queue two_workers_one_created) []
  ∧ GCTaskManager.blocking_worker two_workers_one_created = sentinel_worker
  ∧ GCTaskManager.noop_task two_workers_one_created = Some 1%positive
  ∧ is_Some (chain_heap !! 1%positive)
  ∧ is_uint (GCTaskManager.workers two_workers_one_created)
  ∧ 0 <= GCTaskManager.created_workers two_workers_one_created
      <= GCTaskManager.workers two_workers_one_created
  ∧ List.length (GCTaskManager.resource_flag two_workers_one_created)
    = Z.to_nat (GCTaskManager.workers two_workers_one_created)
  ∧ 0 <= 0 < GCTaskManager.created_workers two_workers_one_created
  ∧ GCTaskManager.resource_flag two_workers_one_created !! Z.to_nat 0
    = Some false
  ∧ GCTaskManager.get_task false 0 chain_heap two_workers_one_created []
    = Waiting
  ∧ ∃ m1, GCTaskManager.release_all_resources two_workers_one_created = Ok m1
      ∧ GCTaskManager.get_task false 1 chain_heap m1 [] = Waiting.
Proof.
  assert (H1 : is_uint (GCTaskManager.workers two_workers_one_created))
    by (apply is_uint_small; simpl; lia).
  assert (H2 : 0 <= GCTaskManager.created_workers two_workers_one_created
               <= GCTaskManager.workers two_workers_one_created)
    by (simpl; lia).
  assert (H3 : 0 <= 0 < GCTaskManager.created_workers two_workers_one_created)
    by (simpl; lia).
  assert (H4 : chain_heap !! 1%positive
               = Some (mkGCTask Kind.ordinary_task 2 NULL (Some 2%positive) 0))
    by (vm_compute; reflexivity).
  split; [apply empty_queue_repr|]. do 2 (split; [done|]).
  split; [by rewrite H4|]. do 5 (split; [done|]).
  destruct (resource_release_protocol false 0 chain_heap
              two_workers_one_created 1%positive _
              (empty_queue_repr _) eq_refl eq_refl H4 H1 H2 eq_refl H3 eq_refl)
    as (Hwait & m1 & m2 & m3 & Hrel & _ & _ & _ & _ & Hother).
  split; [done|]. exists m1. split; [done|].
  apply Hother; [simpl; lia|done].
Defined.

(** X10 at the concrete state: task 4 goes through the manager. *)
Lemma add_task_then_get_task_witness :
  queue_repr chain_heap (GCTaskManager.queue two_workers_one_created) []
  ∧ GCTaskManager.blocking_worker two_workers_one_created = sentinel_worker
  ∧ 0 ≠ sentinel_worker
  ∧ chain_heap !! 4%positive = Some (GCTask_initialize Kind.ordinary_task 0)
  ∧ ∃ h1 m1 m2,
      GCTaskManager.add_task (Some 4%positive) chain_heap
        two_workers_one_created = Ok (h1, m1)
      ∧ GCTaskManager.get_task true 0 h1 m1 []
        = Ok (chain_heap, m2, Some 4%positive).
Proof.
  assert (Hns : 0 ≠ sentinel_worker) by done.
  assert (H4 : chain_heap !! 4%positive
               = Some (GCTask_initialize Kind.ordinary_task 0))
    by (vm_compute; reflexivity).
  split; [apply empty_queue_repr|]. do 3 (split; [done|]).
  destruct (add_task_then_get_task true 0 chain_heap two_workers_one_created
              4%positive _ (empty_queue_repr _) eq_refl Hns H4 eq_refl eq_refl)
    as (h1 & m1 & Hadd & _ & _ & Hget).
  exists h1, m1. eexists. split; [done|]. apply Hget.
Defined.

(** X11 at the concrete state: monitor 9 is released to a supply that
    holds monitor 7. *)
Lemma monitor_supply_reuse_witness :
  none_locked 9%positive = false
  ∧ ∃ s1,
      MonitorSupply.release none_locked (Some 9%positive)
        (MonitorSupply.mk true (Some [7%positive])) = Ok s1
      ∧ MonitorSupply.reserve 1%positive none_locked s1
        = Ok (MonitorSupply.mk true (Some [7%positive]), Some 9%positive).
Proof.
  split; [done|].
  destruct (monitor_supply_reuse none_locked
              (MonitorSupply.mk true (Some [7%positive])) [7%positive]
              9%positive 1%positive eq_refl eq_refl eq_refl)
    as [(s1 & Hrel & _ & Hres) _].
  by exists s1.
Defined.

(** X12 at the concrete state: the first [reserve()]. *)
Lemma monitor_supply_reserve_witness :
  MonitorSupply.reserve 1%positive none_locked MonitorSupply.uninitialized
  = Ok (MonitorSupply.mk true (Some []), Some 1%positive)
  ∧ ∃ r, Some 1%positive = Some r ∧ none_locked r = false.
Proof.
  split; [done|].
  destruct (monitor_supply_reserve none_locked MonitorSupply.uninitialized
              (MonitorSupply.mk true (Some [])) 1%positive (Some 1%positive)
              eq_refl) as [(r & Hr & Hlk & _) _].
  by exists r.
Defined.

(** X13 at the concrete state: a notify, and a wait through one
    spurious wake-up. *)
Lemma wait_helper_handshake_witness :
  WaitHelper.monitor waiting_helper = Some 1%positive
  ∧ WaitHelper.should_wait waiting_helper = true
  ∧ WaitHelper.wait_for true waiting_helper [waiting_helper] = Waiting
  ∧ ∃ wh1, WaitHelper.notify waiting_helper = Ok wh1
      ∧ WaitHelper.wait_for true waiting_helper [waiting_helper; wh1]
        = Ok waiting_helper.
Proof.
  do 2 (split; [done|]).
  destruct (wait_helper_handshake waiting_helper 1%positive eq_refl)
    as [(wh1 & Hn & Hf & Hm & _) Hwait].
  assert (Hsp : Forall (λ w, WaitHelper.should_wait w = true
                             ∧ is_Some (WaitHelper.monitor w))
                  [waiting_helper]).
  { apply Forall_cons. split; [|apply Forall_nil_2]. split; [done|].
    by eexists. }
  destruct (Hwait eq_refl true [waiting_helper] Hsp) as [Hw Hret].
  split; [done|]. exists wh1. split; [done|].
  destruct (Hret wh1 [] Hf) as [E _]. simpl in E. rewrite E.
  destruct wh1 as [mon1 w1]. simpl in *. by subst.
Defined.

(** X14 at the concrete state: the first helper made from an unused
    supply. *)
Lemma wait_helper_release_once_witness :
  WaitHelper.create 1%positive none_locked MonitorSupply.uninitialized
  = Ok (MonitorSupply.mk true (Some []), waiting_helper)
  ∧ ∃ s2 wh',
      WaitHelper.release_monitor none_locked waiting_helper
        (MonitorSupply.mk true (Some [])) = Ok (s2, wh')
      ∧ WaitHelper.release_monitor none_locked wh' s2 = AssertFail EmptyString
      ∧ WaitHelper.create 2%positive none_locked s2
        = Ok (MonitorSupply.mk true (Some []), waiting_helper).
Proof.
  split; [done|].
  destruct (wait_helper_release_once none_locked 1%positive 2%positive
              MonitorSupply.uninitialized (MonitorSupply.mk true (Some []))
              waiting_helper eq_refl)
    as (_ & mon & s2 & wh' & _ & Hrel & _ & Hfail & Hagain).
  by exists s2, wh'.
Defined.

(** X15 at the concrete state: two of three workers are not requested,
    and two idle tasks are queued. *)
Lemma task_idle_workers_parks_inactive_witness :
  (∀ h', h' !! next_free h' = None)
  ∧ queue_repr chain_heap (GCTaskManager.queue one_of_three_active) []
  ∧ ∃ h' m' ps,
      GCTaskManagerIdle.task_idle_workers true 0 next_free
        store_active_workers chain_heap one_of_three_active waiting_helper
      = Ok (h', m', waiting_helper)
      ∧ List.length ps = 2%nat
      ∧ queue_repr h' (GCTaskManager.queue m') ps
      ∧ GCTaskManager.idle_workers m' = 2.
Proof.
  split; [apply next_free_fresh|]. split; [apply empty_queue_repr|].
  destruct (task_idle_workers_parks_inactive 0 next_free store_active_workers
              chain_heap one_of_three_active waiting_helper []
              next_free_fresh (empty_queue_repr _))
    as (h' & q' & ps & Hrun & Hlen & Hrepr & _);
    [simpl; lia|simpl; lia|unfold uint_modulus; simpl; lia|simpl; lia
    |simpl; lia|unfold uint_modulus; simpl; lia|].
  exists h'. eexists. exists ps. split; [exact Hrun|].
  split; [simpl in Hlen; lia|]. split; [exact Hrepr|]. reflexivity.
Defined.

(** X16 at the concrete state: all three workers are requested but two
    are idle, and one active worker is asked for. *)
Lemma task_idle_workers_reduces_active_witness :
  ∃ m',
    GCTaskManagerIdle.task_idle_workers true 0 next_free
      store_active_workers chain_heap two_of_three_idle waiting_helper
    = Ok (chain_heap, m', waiting_helper)
    ∧ GCTaskManager.active_workers m' = 1
    ∧ GCTaskManager.queue m' = GCTaskQueue.initialize.
Proof.
  eexists. split; [|split].
  - apply (task_idle_workers_reduces_active 0 next_free store_active_workers
             chain_heap chain_heap two_of_three_idle _ waiting_helper
             waiting_helper);
      [simpl; unfold uint_modulus; lia|simpl; lia
      |simpl; unfold uint_modulus; lia|simpl; lia|simpl; lia|].
    eexists. split; [reflexivity|]. split; [vm_compute; reflexivity|].
    split; [reflexivity|]. split; reflexivity.
  - reflexivity.
  - reflexivity.
Defined.

(** X17 at the concrete state: one spurious wake-up, then the
    release. *)
Lemma idle_task_parks_until_release_witness :
  WaitHelper.should_wait waiting_helper = true
  ∧ GCTaskManagerIdle.IdleGCTask_do_it 0 two_of_three_idle waiting_helper
      [(two_of_three_idle, waiting_helper)] = Waiting
  ∧ ∃ m' wh',
      GCTaskManagerIdle.IdleGCTask_do_it 0 two_of_three_idle waiting_helper
        ([(two_of_three_idle, waiting_helper)]
         ++ GCTaskManagerIdle.release_idle_workers two_of_three_idle
              waiting_helper :: [])
      = Ok (m', wh')
      ∧ GCTaskManager.idle_workers m' = 1
      ∧ WaitHelper.should_wait wh' = false.
Proof.
  assert (Hsp : Forall (λ w : GCTaskManager.t * WaitHelper.t,
                          WaitHelper.should_wait w.2 = true)
                  [(two_of_three_idle, waiting_helper)]).
  { apply Forall_cons. split; [done|apply Forall_nil_2]. }
  destruct (idle_task_parks_until_release 0 two_of_three_idle waiting_helper
              [(two_of_three_idle, waiting_helper)] eq_refl Hsp)
    as (Hwait & Hret & _).
  split; [done|]. split; [exact Hwait|].
  eexists _, _. split; [apply Hret|]. split; [vm_compute|]; reflexivity.
Defined.

(** X18 at the concrete state: worker 0 blocks the manager and is the
    only busy worker. *)
Lemma barrier_task_waits_for_others_witness :
  WaitHelper.monitor waiting_helper = Some 1%positive
  ∧ WaitForBarrierGCTask.do_it 0 chain_manager waiting_helper []
    = AssertFail "manager isn't blocked"
  ∧ GCTaskManager.is_blocked (GCTaskManager.set_blocking_worker chain_manager 0)
    = true
  ∧ GCTaskManager.busy_workers
      (GCTaskManager.set_blocking_worker chain_manager 0) ≤ 1
  ∧ WaitForBarrierGCTask.do_it 0
      (GCTaskManager.set_blocking_worker chain_manager 0) waiting_helper []
    = Ok (GCTaskManager.set_blocking_worker chain_manager 0,
          WaitHelper.set_should_wait waiting_helper false).
Proof.
  assert (Hq : GCTaskManager.busy_workers
                 (GCTaskManager.set_blocking_worker chain_manager 0) ≤ 1)
    by (simpl; lia).
  split; [done|]. split.
  { destruct (barrier_task_waits_for_others 0 chain_manager waiting_helper
                1%positive eq_refl) as [Hfail _].
    apply Hfail. reflexivity. }
  split; [done|]. split; [exact Hq|].
  destruct (barrier_task_waits_for_others 0
              (GCTaskManager.set_blocking_worker chain_manager 0)
              waiting_helper 1%positive eq_refl) as [_ Hrun].
  destruct (Hrun eq_refl) as [Hnow _]. apply (Hnow Hq []).
Defined.

(** X19 at the concrete state: the barrier is the oldest task, no worker
    is busy, and worker 0 runs the cycle. *)
Lemma barrier_cycle_witness :
  queue_repr barrier_first_heap
    (GCTaskManager.queue (GCTaskManager.set_busy_workers chain_manager 0))
    [1; 2; 3]%positive
  ∧ barrier_at barrier_first_heap 1%positive
  ∧ 0 ≠ sentinel_worker
  ∧ ∃ h' m1 m2 m3 wh',
      GCTaskManager.get_task true 0 barrier_first_heap
        (GCTaskManager.set_busy_workers chain_manager 0) []
      = Ok (h', m1, Some 1%positive)
      ∧ WaitForBarrierGCTask.do_it 0 m1 waiting_helper [] = Ok (m2, wh')
      ∧ GCTaskManager.note_completion 0 m2 = Ok m3
      ∧ GCTaskManager.blocking_worker m3 = sentinel_worker
      ∧ GCTaskManager.barriers m3 = 1
      ∧ GCTaskManager.emptied_queue m3 = 0.
Proof.
  assert (Hns : 0 ≠ sentinel_worker) by done.
  split; [apply barrier_first_repr|]. split; [apply barrier_first_barrier_at|].
  split; [done|].
  destruct (barrier_cycle true 0 barrier_first_heap
              (GCTaskManager.set_busy_workers chain_manager 0)
              1%positive [2; 3]%positive waiting_helper 1%positive
              barrier_first_repr barrier_first_barrier_at eq_refl Hns
              eq_refl eq_refl)
    as (h' & m1 & m2 & m3 & wh' & Hget & Hdo & _ & Hnc & Hblk & _ & Hbar
        & _ & Hemp).
  exists h', m1, m2, m3, wh'. split; [apply Hget|]. split; [apply Hdo|].
  split; [done|]. split; [done|]. split; [by rewrite Hbar|].
  by rewrite Hemp.
Defined.

(** X20 at the concrete state: the one-task list is executed on the
    manager that has the chain queued. *)
Lemma execute_and_wait_queues_barrier_last_witness :
  chain_heap !! next_free chain_heap = None
  ∧ WaitHelper.create 1%positive none_locked MonitorSupply.uninitialized
    = Ok (MonitorSupply.mk true (Some []), waiting_helper)
  ∧ queue_repr chain_heap (GCTaskManager.queue chain_manager)
      [1; 2; 3]%positive
  ∧ queue_repr chain_heap single_queue [4%positive]
  ∧ NoDup ([1; 2; 3]%positive ++ [4%positive])
  ∧ ∃ h1 q1,
      queue_repr h1 q1
        ([1; 2; 3]%positive ++ [4%positive] ++ [next_free chain_heap])
      ∧ GCTaskManagerExecute.execute_and_wait 0 next_free 1%positive
          none_locked none_locked chain_heap chain_manager
          MonitorSupply.uninitialized single_queue [] = Waiting.
Proof.
  split; [apply next_free_fresh|]. split; [done|].
  split; [apply chain_queue_repr|]. split; [apply single_queue_repr|].
  split; [apply chain_single_NoDup|].
  destruct (execute_and_wait_queues_barrier_last 0 next_free 1%positive
              none_locked none_locked chain_heap chain_manager
              MonitorSupply.uninitialized (MonitorSupply.mk true (Some []))
              waiting_helper single_queue [1; 2; 3]%positive [4%positive]
              (next_free_fresh _) eq_refl chain_queue_repr single_queue_repr
              chain_single_NoDup)
    as (h1 & q1 & _ & Hrepr & _ & _ & Hwait);
    [unfold uint_modulus; simpl; lia|].
  by exists h1, q1.
Defined.

(** X21 at the concrete state: the thread is woken once the barrier task
    has been taken off the queue and has notified. *)
Lemma execute_and_wait_returns_after_notify_witness :
  ∃ h1 m1 fin,
    GCTaskManagerExecute.submit 0 next_free 1%positive none_locked
      chain_heap chain_manager MonitorSupply.uninitialized single_queue
    = Ok (h1, m1, MonitorSupply.mk true (Some []), waiting_helper,
          GCTaskQueue.initialize, fin)
    ∧ GCTaskManagerExecute.execute_and_wait 0 next_free 1%positive
        none_locked none_locked chain_heap chain_manager
        MonitorSupply.uninitialized single_queue [] = Waiting
    ∧ GCTaskManagerExecute.execute_and_wait 0 next_free 1%positive
        none_locked none_locked chain_heap chain_manager
        MonitorSupply.uninitialized single_queue
        [(<[fin := GCTask_initialize Kind.wait_for_barrier_task 0]> h1, m1,
          MonitorSupply.mk true (Some []),
          WaitHelper.set_should_wait waiting_helper false)]
      = Ok (<[fin := GCTask_initialize Kind.wait_for_barrier_task 0]> h1, m1,
            MonitorSupply.mk true (Some [1%positive]),
            GCTaskQueue.initialize).
Proof.
  destruct (submit_spec 0 next_free 1%positive none_locked chain_heap
              chain_manager MonitorSupply.uninitialized
              (MonitorSupply.mk true (Some [])) waiting_helper single_queue
              [1; 2; 3]%positive [4%positive]
              (next_free_fresh _) eq_refl chain_queue_repr single_queue_repr
              chain_single_NoDup)
    as (h1 & q1 & Hsub & _); [unfold uint_modulus; simpl; lia|].
  eexists h1, _, _. split; [exact Hsub|].
  destruct (execute_and_wait_returns_after_notify 0 next_free 1%positive
              none_locked none_locked chain_heap h1 chain_manager _
              MonitorSupply.uninitialized _ waiting_helper single_queue _ _
              Hsub [] (Forall_nil_2 _)) as [Hwait Hret].
  split; [exact Hwait|].
  exact (Hret (<[next_free chain_heap
                 := GCTask_initialize Kind.wait_for_barrier_task 0]> h1)
           _ (MonitorSupply.mk true (Some []))
           (WaitHelper.set_should_wait waiting_helper false) []
           (GCTask_initialize Kind.wait_for_barrier_task 0) 1%positive []
           eq_refl eq_refl eq_refl eq_refl (lookup_insert_eq _ _ _)).
Defined.
